(** * The Chrome printer of gotenberg: a shallow embedding

    The development follows [internal/pkg/printer/chrome.go].  Each Go
    function or closure the properties talk about is a Rocq definition of
    the same name; goroutine interleavings, stream contents and the
    results of calls into the CDP client are inputs of the definitions. *)

From Stdlib Require Import ZArith Lia Bool.
From stdpp Require Import base option list strings gmap fin_maps pretty.

Set Warnings "-register-all".
Local Open Scope string_scope.
Local Open Scope list_scope.
Local Open Scope Z_scope.

(** ** Go values used throughout *)

(** The [error] interface.  Values built by libraries (rpcc, cdp, context,
    os, json) are [Foreign] and carry the text their [Error()] method
    returns.  [xerror.Invalid(op, msg, cause)] and [xerror.New(op, err)]
    are constructors of the repository's own [xerror] package. *)
Inductive error : Type :=
  | Foreign (text : string)
  | XInvalid (op : string) (message : string) (cause : option error)
  | XNew (op : string) (cause : error).

(** The [Error()] method.  The text of an [xerror] value is computed by
    the [xerror] package, which is a parameter of the development. *)
Class XerrorText := xerror_Error : error -> string.

Definition Error `{XerrorText} (e : error) : string :=
  match e with
  | Foreign text => text
  | _ => xerror_Error e
  end.

(** A rendering used to run the definitions on concrete inputs. *)
Fixpoint sample_render (e : error) : string :=
  match e with
  | Foreign text => text
  | XInvalid op message None => op +:+ ": " +:+ message
  | XInvalid op message (Some c) => op +:+ ": " +:+ message +:+ ": " +:+ sample_render c
  | XNew op c => op +:+ ": " +:+ sample_render c
  end.

Definition sample_xerror : XerrorText := sample_render.

(** What a goroutine or a blocking call does: it returns ([Returned None]
    is a nil error) or it never does. *)
Inductive outcome : Type :=
  | Blocked
  | Returned (err : option error).

(** [strings.HasPrefix] and [strings.Contains]. *)
Fixpoint HasPrefix (s prefix : string) {struct prefix} : bool :=
  match prefix with
  | EmptyString => true
  | String c prefix' =>
      match s with
      | EmptyString => false
      | String d s' => if Ascii.eqb c d then HasPrefix s' prefix' else false
      end
  end.

Fixpoint Contains (s substr : string) : bool :=
  HasPrefix s substr ||
  match s with
  | EmptyString => false
  | String _ s' => Contains s' substr
  end.

(** [fmt.Sprintf] at the three format strings of the file. *)
Definition Sprintf_d_s (n : Z) (s : string) : string := pretty n +:+ " " +:+ s.
Definition Sprintf_s_colon_s (a b : string) : string := a +:+ ": " +:+ b.

(** The line feed written ["\n"] in the source. *)
Definition newline : string := String (Ascii.ascii_of_nat 10) EmptyString.


(** ** Event subscriptions

    A subscription is the sequence of results its [Recv] method gives:
    events, then possibly an error.  [Recv] on an exhausted sequence never
    returns. *)
Inductive recv (A : Type) : Type :=
  | Event (a : A)
  | RecvError (e : error).
Arguments Event {A} a.
Arguments RecvError {A} e.

Definition op_Print : string := "printer.chromePrinter.Print".

(** The sentinel of [rpcc.ErrStreamClosing] the listeners look for, the
    one of [context.Canceled] the waiter looks for, and the abort text of
    Chrome. *)
Definition stream_closing : string := "rpcc: the stream is closing".
Definition context_canceled : string := "context canceled".
Definition ERR_ABORTED : string := "net::ERR_ABORTED".

(** The payloads of the three network events the listeners read. *)
Record RequestWillBeSentReply : Type :=
  { rs_RequestID : string; rs_URL : string }.
Record ResponseReceivedReply : Type :=
  { rr_RequestID : string; rr_Status : Z; rr_StatusText : string }.
Record LoadingFailedReply : Type :=
  { lf_RequestID : string; lf_ErrorText : string }.

(** The variables the closures of [Print] share: the two maps (each one
    written under its mutex) and the number of calls of
    [cancelOperation]. *)
Record shared : Type :=
  { requestURLs : gmap string string;
    requestErrorMessages : gmap string string;
    cancelOperation_calls : nat }.

Definition shared_init : shared :=
  {| requestURLs := ∅; requestErrorMessages := ∅; cancelOperation_calls := 0 |}.

Definition cancelOperation (st : shared) : shared :=
  {| requestURLs := requestURLs st;
     requestErrorMessages := requestErrorMessages st;
     cancelOperation_calls := S (cancelOperation_calls st) |}.

(** [requestURLs[id]]: the zero value when the key is absent. *)
Definition url_of (urls : gmap string string) (id : string) : string :=
  default "" (urls !! id).

(** One turn of the loop of [requestWillBeSentListener]. *)
Definition requestWillBeSent_body (event : RequestWillBeSentReply) (st : shared) : shared :=
  {| requestURLs := <[rs_RequestID event := rs_URL event]> (requestURLs st);
     requestErrorMessages := requestErrorMessages st;
     cancelOperation_calls := cancelOperation_calls st |}.

Definition set_error (id msg : string) (st : shared) : shared :=
  cancelOperation
    {| requestURLs := requestURLs st;
       requestErrorMessages := <[id := msg]> (requestErrorMessages st);
       cancelOperation_calls := cancelOperation_calls st |}.

(** One turn of the loop of [responseReceivedListener]. *)
Definition responseReceived_body (event : ResponseReceivedReply) (st : shared) : shared :=
  let msg := Sprintf_d_s (rr_Status event) (rr_StatusText event) in
  if (rr_Status event <? 400)%Z then st
  else
    match requestErrorMessages st !! rr_RequestID event with
    | None => set_error (rr_RequestID event) msg st
    | Some value =>
        if String.eqb value ERR_ABORTED
        then set_error (rr_RequestID event) msg st
        else st
    end.

(** One turn of the loop of [loadingFailedListener]. *)
Definition loadingFailed_body (event : LoadingFailedReply) (st : shared) : shared :=
  let msg := lf_ErrorText event in
  match requestErrorMessages st !! lf_RequestID event with
  | None => set_error (lf_RequestID event) msg st
  | Some _ => st
  end.

(** What a listener does when [Recv] fails. *)
Definition on_recv_error `{XerrorText} (err : error) : outcome :=
  if Contains (Error err) stream_closing then Returned None else Returned (Some err).

Section Listeners.
Context `{XerrorText}.

Definition crashListener (crashEvent : list (recv unit)) (st : shared) : shared * outcome :=
  match crashEvent with
  | [] => (st, Blocked)
  | RecvError err :: _ => (st, on_recv_error err)
  | Event _ :: _ =>
      (cancelOperation st, Returned (Some (XInvalid op_Print "target has crashed" None)))
  end.

(** The event carries the text of [exception.ExceptionDetails.Error()]. *)
Definition exceptionListener (exceptionEvent : list (recv string)) (st : shared)
  : shared * outcome :=
  match exceptionEvent with
  | [] => (st, Blocked)
  | RecvError err :: _ => (st, on_recv_error err)
  | Event details :: _ =>
      (cancelOperation st, Returned (Some (XInvalid op_Print details None)))
  end.

Fixpoint consoleListener (consoleEvent : list (recv string)) (st : shared)
  : shared * outcome :=
  match consoleEvent with
  | [] => (st, Blocked)
  | RecvError err :: _ => (st, on_recv_error err)
  | Event _ :: rest => consoleListener rest st
  end.

Fixpoint requestWillBeSentListener
    (requestWillBeSentEvent : list (recv RequestWillBeSentReply)) (st : shared)
  : shared * outcome :=
  match requestWillBeSentEvent with
  | [] => (st, Blocked)
  | RecvError err :: _ => (st, on_recv_error err)
  | Event event :: rest =>
      requestWillBeSentListener rest (requestWillBeSent_body event st)
  end.

Fixpoint responseReceivedListener
    (responseReceivedEvent : list (recv ResponseReceivedReply)) (st : shared)
  : shared * outcome :=
  match responseReceivedEvent with
  | [] => (st, Blocked)
  | RecvError err :: _ => (st, on_recv_error err)
  | Event event :: rest =>
      responseReceivedListener rest (responseReceived_body event st)
  end.

Fixpoint loadingFailedListener
    (loadingFailedEvent : list (recv LoadingFailedReply)) (st : shared)
  : shared * outcome :=
  match loadingFailedEvent with
  | [] => (st, Blocked)
  | RecvError err :: _ => (st, on_recv_error err)
  | Event event :: rest =>
      loadingFailedListener rest (loadingFailed_body event st)
  end.
End Listeners.

(** The three ledger listeners run as goroutines; the mutexes make every
    loop turn atomic, so a run of the batch updates the maps in some
    sequence of turns.  [network_event] tags a turn with its listener. *)
Inductive network_event : Type :=
  | RequestWillBeSent (event : RequestWillBeSentReply)
  | ResponseReceived (event : ResponseReceivedReply)
  | LoadingFailed (event : LoadingFailedReply).

Definition turn (st : shared) (ev : network_event) : shared :=
  match ev with
  | RequestWillBeSent event => requestWillBeSent_body event st
  | ResponseReceived event => responseReceived_body event st
  | LoadingFailed event => loadingFailed_body event st
  end.

Definition turns (evs : list network_event) (st : shared) : shared :=
  fold_left turn evs st.

(** *** The check after the readiness batch (lines 364 to 391)

    [range] over a Go map visits every entry once, in an order the
    language leaves open: [visit] is the order of one run. *)
Definition resource_entry (urls : gmap string string) (kv : string * string) : string :=
  Sprintf_s_colon_s (url_of urls kv.1) kv.2.

Definition resource_message (urls : gmap string string) (visit : list (string * string))
  : string :=
  fold_left
    (fun msg kv =>
       (if bool_decide (0 < String.length msg)%nat then msg +:+ newline else msg)
         +:+ resource_entry urls kv)
    visit "".

(** [inl err] is [return err]; [inr tt] is falling through to the print
    phase. *)
Definition after_readiness (batch : option error) (st : shared)
    (visit : list (string * string)) : error + unit :=
  match batch with
  | Some err => inl err
  | None =>
      if bool_decide (0 < size (requestErrorMessages st))%nat
      then inl (XInvalid op_Print (resource_message (requestURLs st) visit) None)
      else inr tt
  end.

(** ** Options

    The fields of [ChromePrinterOptions] that decide control flow or end
    up in an error text.  The paper geometry and the two wait times are
    [float64] values handed to Chrome and to the clock. *)
Record ChromePrinterOptions : Type :=
  { WaitJSRenderStatus : string;
    PageRanges : string;
    RpccBufferSize : Z;
    MaxConnections : Z;
    WaitForConnection : bool }.

(** ** [runBatch]

    [errgroup] starts every function in a goroutine; [Wait] returns once
    all of them have returned, with the first error that was reported.
    [fn] holds what each goroutine does and [finished] the order in which
    the goroutines return.  The context [errgroup.WithContext] derives is
    not handed to the functions, so a failure does not stop the others. *)
Definition is_returned (o : outcome) : bool :=
  match o with
  | Returned _ => true
  | Blocked => false
  end.

Fixpoint first_error (rs : list outcome) : option error :=
  match rs with
  | [] => None
  | Returned (Some err) :: _ => Some err
  | _ :: rest => first_error rest
  end.

Definition runBatch (finished : list nat) (fn : list outcome) : outcome :=
  if forallb is_returned fn
     && forallb (fun i => bool_decide (i ∈ finished)) (seq 0 (length fn))
  then Returned (first_error (omap (fun i => fn !! i) finished))
  else Blocked.

(** ** [listenEvents] *)

Definition op_listenEvents : string := "printer.chromePrinter.listenEvents".
Definition networkIdleEventName : string := "networkIdle".

(** The closures of the batch.  Each gives the part of its subscription
    it has not read together with what it returns. *)
Definition recv_one (s : list (recv unit)) : list (recv unit) * outcome :=
  match s with
  | [] => ([], Blocked)
  | RecvError err :: rest => (rest, Returned (Some err))
  | Event _ :: rest => (rest, Returned None)
  end.

Definition wait_domContentEventFired := recv_one.
Definition wait_loadEventFired := recv_one.
Definition wait_loadingFinished := recv_one.

(** A lifecycle event is its [Name]. *)
Fixpoint wait_lifecycleEvent (s : list (recv string)) : list (recv string) * outcome :=
  match s with
  | [] => ([], Blocked)
  | RecvError err :: rest => (rest, Returned (Some err))
  | Event name :: rest =>
      if String.eqb name networkIdleEventName
      then (rest, Returned None)
      else wait_lifecycleEvent rest
  end.

(** What the CDP client answers to the calls of [listenEvents]. *)
Record listen_calls : Type :=
  { Page_Enable : option error;
    Network_Enable : option error;
    Page_DOMContentEventFired : error + list (recv unit);
    Page_LoadEventFired : error + list (recv unit);
    Page_LifecycleEvent : error + list (recv string);
    Network_LoadingFinished : error + list (recv unit);
    Page_Navigate : option error;
    finished : list nat }.

Definition listenEvents_resolver (c : listen_calls) : outcome :=
  match Page_Enable c with
  | Some err => Returned (Some err)
  | None =>
  match Network_Enable c with
  | Some err => Returned (Some err)
  | None =>
  match Page_DOMContentEventFired c with
  | inl err => Returned (Some err)
  | inr domContentEventFired =>
  match Page_LoadEventFired c with
  | inl err => Returned (Some err)
  | inr loadEventFired =>
  match Page_LifecycleEvent c with
  | inl err => Returned (Some err)
  | inr lifecycleEvent =>
  match Network_LoadingFinished c with
  | inl err => Returned (Some err)
  | inr loadingFinished =>
  match Page_Navigate c with
  | Some err => Returned (Some err)
  | None =>
      runBatch (finished c)
        [ (wait_domContentEventFired domContentEventFired).2;
          (wait_loadEventFired loadEventFired).2;
          (wait_lifecycleEvent lifecycleEvent).2;
          (wait_loadingFinished loadingFinished).2 ]
  end end end end end end end.

Definition listenEvents (c : listen_calls) : outcome :=
  match listenEvents_resolver c with
  | Returned (Some err) => Returned (Some (XNew op_listenEvents err))
  | o => o
  end.

(** ** [eval], [Eval], [Wait] and [poll] *)

Record EvaluateArgs : Type :=
  { Expression : string; ReturnByValue : bool; AwaitPromise : bool }.

Record EvaluateReply : Type :=
  { ExceptionDetails : option error; Result_Value : string }.

(** [json.Unmarshal(data, out)] at [out : *bool]: the new value of the
    variable and the error. *)
Class JsonBool := json_Unmarshal : string -> bool -> bool * option error.

(** [out] is [None] for a nil pointer and holds the pointed value
    otherwise; the result has the value after the call. *)
Definition eval `{JsonBool} (reply : error + EvaluateReply) (out : option bool)
  : option bool * option error :=
  match reply with
  | inl err => (out, Some err)
  | inr reply =>
      match ExceptionDetails reply with
      | Some details => (out, Some details)
      | None =>
          match out with
          | None => (None, None)
          | Some b =>
              let '(b', err) := json_Unmarshal (Result_Value reply) b in
              (Some b', err)
          end
      end
  end.

Definition Eval_args (expr : string) (out : option bool) : EvaluateArgs :=
  {| Expression := expr; ReturnByValue := bool_decide (out <> None); AwaitPromise := false |}.

Definition EvalPromise_args (expr : string) (out : option bool) : EvaluateArgs :=
  {| Expression := expr; ReturnByValue := bool_decide (out <> None); AwaitPromise := true |}.

Definition Eval `{JsonBool} := eval.
Definition EvalPromise `{JsonBool} := eval.

(** [time.Duration] counts nanoseconds. *)
Definition Millisecond : Z := 1000000.
Definition Second : Z := 1000 * Millisecond.

(** What [poll] does, in order. *)
Inductive poll_step : Type :=
  | NewTimer (d : Z)
  | TimerStop (stopped : bool)
  | DrainTimer
  | CallFn (i : nat)
  | TimerReset (d : Z)
  | TimerFired
  | CtxDone.

(** The loop of [poll] from its turn [i] on.  [fn i] is what the call
    number [i] of the function returns; [ctx_done i] is [ctx.Err()] when
    the [select] of turn [i] takes the [ctx.Done()] case and [None] when
    it takes the timer.  [None] as a result: more turns than [fuel]. *)
Fixpoint poll_loop (fuel : nat) (fn : nat -> bool * option error)
    (ctx_done : nat -> option error) (i : nat)
  : option (list poll_step * option error) :=
  match fuel with
  | O => None
  | S fuel' =>
      match fn i with
      | (_, Some err) => Some ([CallFn i], Some err)
      | (true, None) => Some ([CallFn i], None)
      | (false, None) =>
          match ctx_done i with
          | Some err => Some ([CallFn i; TimerReset (100 * Millisecond); CtxDone], Some err)
          | None =>
              match poll_loop fuel' fn ctx_done (S i) with
              | Some (steps, r) =>
                  Some (CallFn i :: TimerReset (100 * Millisecond) :: TimerFired :: steps, r)
              | None => None
              end
          end
      end
  end.

(** The steps before the loop, and the steps of [n] turns that end on
    the timer. *)
Definition poll_arm (stopped : bool) : list poll_step :=
  NewTimer (1 * Second) :: TimerStop stopped :: (if stopped then [] else [DrainTimer]).

Definition poll_turns (i n : nat) : list poll_step :=
  flat_map (fun j => [CallFn j; TimerReset (100 * Millisecond); TimerFired]) (seq i n).

(** A turn that goes on: the function says no and the timer fires. *)
Definition goes_on (fn : nat -> bool * option error) (ctx_done : nat -> option error)
    (j : nat) : Prop :=
  fn j = (false, None) /\ ctx_done j = None.

(** [stopped] is what [t.Stop()] returns. *)
Definition poll (fuel : nat) (stopped : bool) (fn : nat -> bool * option error)
    (ctx_done : nat -> option error) : option (list poll_step * option error) :=
  match poll_loop fuel fn ctx_done 0 with
  | Some (steps, r) => Some (poll_arm stopped ++ steps, r)
  | None => None
  end.

(** The closure [Wait] hands to [poll], at the reply [Runtime.Evaluate]
    gives. *)
Definition Wait_fn `{JsonBool} (reply : error + EvaluateReply) : bool * option error :=
  match Eval reply (Some false) with
  | (_, Some err) => (false, Some err)
  | (ok, None) => (default false ok, None)
  end.

Definition Wait `{JsonBool} (fuel : nat) (stopped : bool)
    (replies : nat -> error + EvaluateReply) (ctx_done : nat -> option error)
  : option (list poll_step * option error) :=
  poll fuel stopped (fun i => Wait_fn (replies i)) ctx_done.

(** ** The closure [waiter]

    [wait] is what the call of [Wait] does when it is made.  [sleep]
    returns in every case and gives no value. *)
Definition on_wait_error `{XerrorText} (err : error) : outcome :=
  if Contains (Error err) context_canceled then Returned None else Returned (Some err).

Definition waiter `{XerrorText} (opts : ChromePrinterOptions) (c : listen_calls)
    (wait : outcome) : outcome :=
  match listenEvents c with
  | Blocked => Blocked
  | Returned (Some err) => on_wait_error err
  | Returned None =>
      if negb (String.eqb (WaitJSRenderStatus opts) "")
      then
        match wait with
        | Blocked => Blocked
        | Returned (Some err) => on_wait_error err
        | Returned None => Returned None
        end
      else Returned None
  end.


(** ** The closure [resolver]: acquisition and deferred release

    A run of [resolver] is the list of the calls it makes on the browser.
    The small monad below threads that list and the stack of the deferred
    calls; a step either goes on with a value or leaves the function. *)

(** The context a call is given: the one of [Print], which carries the
    deadline, or [context.Background()]. *)
Inductive context : Type :=
  | ctx_Print
  | ctx_Background.

(** The connection a CDP command travels on. *)
Inductive conn : Type :=
  | devtConn
  | newContextConn.

Inductive call : Type :=
  | devtool_Version (ctx : context)
  | rpcc_DialContext (ctx : context) (c : conn)
  | Conn_Close (c : conn)
  | Target_CreateBrowserContext (ctx : context) (via : conn)
  | Target_DisposeBrowserContext (ctx : context) (via : conn) (BrowserContextID : string)
  | Target_CreateTarget (ctx : context) (via : conn) (BrowserContextID : string)
  | Target_CloseTarget (ctx : context) (via : conn) (TargetID : string)
  | enableEvents (ctx : context)
  | setCustomHTTPHeaders (ctx : context)
  | subscribe (ctx : context) (name : string)
  | readiness_batch (ctx : context)
  | print_batch (ctx : context).

Record frame : Type :=
  { performed : list call; deferred : list call }.

Inductive flow (A : Type) : Type :=
  | Go (a : A)
  | Leave (o : outcome).
Arguments Go {A} a.
Arguments Leave {A} o.

Definition M (A : Type) : Type := frame -> frame * flow A.

#[local] Instance M_ret : MRet M := fun A a f => (f, Go a).
#[local] Instance M_bind : MBind M := fun A B k m f =>
  match m f with
  | (f', Go a) => k a f'
  | (f', Leave o) => (f', Leave o)
  end.

(** A call that answers [r]: an error leaves the function. *)
Definition perform {A : Type} (c : call) (r : error + A) : M A := fun f =>
  ({| performed := performed f ++ [c]; deferred := deferred f |},
   match r with
   | inl err => Leave (Returned (Some err))
   | inr a => Go a
   end).

Definition check (r : option error) : error + unit :=
  match r with
  | Some err => inl err
  | None => inr tt
  end.

(** A blocking step: it may never return. *)
Definition await (c : call) (o : outcome) : M unit := fun f =>
  ({| performed := performed f ++ [c]; deferred := deferred f |},
   match o with
   | Returned None => Go tt
   | o => Leave o
   end).

Definition defer (c : call) : M unit := fun f =>
  ({| performed := performed f; deferred := c :: deferred f |}, Go tt).

Definition leave {A : Type} (r : error + unit) : M A := fun f =>
  (f, Leave (Returned (match r with inl err => Some err | inr _ => None end))).

(** Running a function body: when it returns, the deferred calls run,
    last registered first. *)
Definition run_deferred (m : M unit) : list call * outcome :=
  match m {| performed := []; deferred := [] |} with
  | (f, Leave Blocked) => (performed f, Blocked)
  | (f, Leave (Returned r)) => (performed f ++ deferred f, Returned r)
  | (f, Go _) => (performed f ++ deferred f, Returned None)
  end.

(** What the browser answers to [resolver]. *)
Record resolver_calls : Type :=
  { Version : option error;
    Dial_devt : option error;
    CreateBrowserContext : error + string;
    CreateTarget : error + string;
    Dial_target : option error;
    enable : option error;
    headers : option error;
    subscriptions : list (option error);
    readiness : outcome;
    ledger : shared;
    visit : list (string * string);
    TargetCrashed_again : option error;
    printing : outcome }.

Definition subscription_names : list string :=
  [ "Inspector.TargetCrashed"; "Runtime.ExceptionThrown"; "Runtime.ConsoleAPICalled";
    "Network.RequestWillBeSent"; "Network.ResponseReceived"; "Network.LoadingFailed" ].

(** The six subscriptions before the readiness batch; [answers] has the
    error of each call, in order. *)
Fixpoint subscribe_all (names : list string) (answers : list (option error)) : M unit :=
  match names with
  | [] => mret tt
  | name :: names' =>
      _ ← perform (subscribe ctx_Print name) (check (default None (head answers)));
      subscribe_all names' (tail answers)
  end.

(** From [enableEvents] to the second [runBatch]. *)
Definition render_phase (b : resolver_calls) : M unit :=
  _ ← perform (enableEvents ctx_Print) (check (enable b));
  _ ← perform (setCustomHTTPHeaders ctx_Print) (check (headers b));
  _ ← subscribe_all subscription_names (subscriptions b);
  _ ← await (readiness_batch ctx_Print) (readiness b);
  match after_readiness None (ledger b) (visit b) with
  | inl err => leave (inl err)
  | inr _ =>
      _ ← perform (subscribe ctx_Print "Inspector.TargetCrashed")
            (check (TargetCrashed_again b));
      await (print_batch ctx_Print) (printing b)
  end.

Definition resolver_body (b : resolver_calls) : M unit :=
  _ ← perform (devtool_Version ctx_Print) (check (Version b));
  _ ← perform (rpcc_DialContext ctx_Print devtConn) (check (Dial_devt b));
  _ ← defer (Conn_Close devtConn);
  BrowserContextID ← perform (Target_CreateBrowserContext ctx_Print devtConn)
                       (CreateBrowserContext b);
  _ ← defer (Target_DisposeBrowserContext ctx_Background devtConn BrowserContextID);
  TargetID ← perform (Target_CreateTarget ctx_Print devtConn BrowserContextID)
               (CreateTarget b);
  _ ← perform (rpcc_DialContext ctx_Print newContextConn) (check (Dial_target b));
  _ ← defer (Conn_Close newContextConn);
  _ ← defer (Target_CloseTarget ctx_Background newContextConn TargetID);
  render_phase b.

Definition resolver (b : resolver_calls) : list call * outcome :=
  run_deferred (resolver_body b).

(** The calls that give a resource back. *)
Definition is_release (c : call) : bool :=
  match c with
  | Conn_Close _ | Target_DisposeBrowserContext _ _ _ | Target_CloseTarget _ _ _ => true
  | _ => false
  end.

Definition teardown (b : resolver_calls) : list call :=
  filter (fun c => is_release c = true) (resolver b).1.


(** A step that registers no deferred call and makes no release call. *)
Definition quiet {A : Type} (m : M A) : Prop :=
  forall f : frame,
    deferred (m f).1 = deferred f
    /\ exists cs : list call,
         performed (m f).1 = performed f ++ cs
         /\ Forall (fun c => is_release c = false) cs.

(** The release calls of a full acquisition, in the order they run. *)
Definition full_teardown (BrowserContextID TargetID : string) : list call :=
  [ Target_CloseTarget ctx_Background newContextConn TargetID;
    Conn_Close newContextConn;
    Target_DisposeBrowserContext ctx_Background devtConn BrowserContextID;
    Conn_Close devtConn ].

(** ** The closure [printer]: error translation and streaming to disk *)

(** A file: its permission bits and its bytes. *)
Record File : Type :=
  { mode : Z; data : list Byte.byte }.

(** The flags of [os.OpenFile] on linux. *)
Definition O_WRONLY : Z := 1.
Definition O_CREATE : Z := 64.
Definition O_EXCL : Z := 128.
Definition O_TRUNC : Z := 512.
Definition O_APPEND : Z := 1024.

Definition has_flag (flag bit : Z) : bool := negb (Z.land flag bit =? 0).

(** An open file: its name and the flags it was opened with.  The write
    position of a fresh handle is the start of the file. *)
Record handle : Type :=
  { h_name : string; h_flag : Z; h_offset : nat }.

(** [os.OpenFile(name, flag, perm)].  [refused] is a failure of the
    operating system that does not depend on the flags (a missing
    directory, a directory in the way, no permission); [umask] is the
    mask of the process. *)
Definition OpenFile (umask : Z) (refused : option error) (name : string) (flag perm : Z)
    (fs : gmap string File) : gmap string File * (error + handle) :=
  match refused with
  | Some err => (fs, inl err)
  | None =>
      let h := {| h_name := name; h_flag := flag; h_offset := 0 |} in
      match fs !! name with
      | Some f =>
          if has_flag flag O_CREATE && has_flag flag O_EXCL
          then (fs, inl (Foreign ("open " +:+ name +:+ ": file exists")))
          else if has_flag flag O_TRUNC
          then (<[name := {| mode := mode f; data := [] |}]> fs, inr h)
          else (fs, inr h)
      | None =>
          if has_flag flag O_CREATE
          then (<[name := {| mode := Z.land perm (Z.lnot umask); data := [] |}]> fs, inr h)
          else (fs, inl (Foreign ("open " +:+ name +:+ ": no such file or directory")))
      end
  end.

(** Writing [bytes] at position [off] of a file that holds [old]. *)
Definition write_at (old : list Byte.byte) (off : nat) (bytes : list Byte.byte)
  : list Byte.byte :=
  take off old ++ replicate (off - length old) Byte.x00 ++ bytes
    ++ drop (off + length bytes) old.

Definition file_write (h : handle) (bytes : list Byte.byte) (fs : gmap string File)
  : gmap string File :=
  match fs !! h_name h with
  | Some f =>
      let off := if has_flag (h_flag h) O_APPEND then length (data f) else h_offset h in
      <[h_name h := {| mode := mode f; data := write_at (data f) off bytes |}]> fs
  | None => fs
  end.

(** The IO stream of Chrome: the bytes it delivers, then the end of the
    stream or a read error. *)
Record io_stream : Type :=
  { stream_bytes : list Byte.byte; stream_error : option error }.

(** [reader.WriteTo(file)]: everything read is written; [disk] is a write
    that fails after some bytes. *)
Definition WriteTo (s : io_stream) (disk : option (nat * error)) (h : handle)
    (fs : gmap string File) : gmap string File * option error :=
  match disk with
  | Some (n, err) =>
      if bool_decide (n < length (stream_bytes s))%nat
      then (file_write h (take n (stream_bytes s)) fs, Some err)
      else (file_write h (stream_bytes s) fs, stream_error s)
  | None => (file_write h (stream_bytes s) fs, stream_error s)
  end.

(** What the system and Chrome answer to [printer]. *)
Record printer_calls : Type :=
  { PrintToPDF : error + io_stream;
    umask : Z;
    open_refused : option error;
    disk : option (nat * error);
    file_Close : option error }.

Definition page_ranges_message (opts : ChromePrinterOptions) : string :=
  "'" +:+ PageRanges opts +:+ "' is not a valid Google Chrome page ranges".

Definition buffer_size_message (opts : ChromePrinterOptions) : string :=
  "'" +:+ pretty (RpccBufferSize opts)
    +:+ "' bytes are not enough: increase the Google Chrome rpcc buffer size (up to 100 MB)".

Definition printer `{XerrorText} (opts : ChromePrinterOptions) (destination : string)
    (c : printer_calls) (fs : gmap string File) : gmap string File * option error :=
  match PrintToPDF c with
  | inl err =>
      if Contains (Error err) "Page range syntax error"
      then (fs, Some (XInvalid op_Print (page_ranges_message opts) (Some err)))
      else if Contains (Error err) "rpcc: message too large"
      then (fs, Some (XInvalid op_Print (buffer_size_message opts) (Some err)))
      else (fs, Some err)
  | inr stream =>
      match OpenFile (umask c) (open_refused c) destination (Z.lor O_CREATE O_WRONLY) 384 fs with
      | (fs1, inl err) => (fs1, Some err)
      | (fs1, inr file) =>
          match WriteTo stream (disk c) file fs1 with
          | (fs2, Some err) => (fs2, Some err)
          | (fs2, None) =>
              match file_Close c with
              | Some err => (fs2, Some err)
              | None => (fs2, None)
              end
          end
      end
  end.

(** What the destination holds once [printer] has written [bytes] over
    [old], the file that was there, if any. *)
Definition written (mask : Z) (old : option File) (bytes : list Byte.byte) : File :=
  match old with
  | Some f => {| mode := mode f; data := bytes ++ drop (length bytes) (data f) |}
  | None => {| mode := Z.land 384 (Z.lnot mask); data := bytes |}
  end.

(** ** [Print]: admission

    The two package variables: the counter, and the channel of capacity
    one, held as the number of values in its buffer. *)
Record globals : Type :=
  { devtConnections : Z;
    lockChrome : nat }.

(** [int64] arithmetic wraps. *)
Definition wrap64 (z : Z) : Z := (z + 2 ^ 63) mod 2 ^ 64 - 2 ^ 63.

(** The steps of [Print] on the package variables, and its call of
    [resolver]. *)
Inductive admission_step : Type :=
  | Increment
  | Decrement
  | SendLock
  | ReceiveLock
  | Resolve.

Definition increment (g : globals) : globals :=
  {| devtConnections := wrap64 (devtConnections g + 1); lockChrome := lockChrome g |}.
Definition decrement (g : globals) : globals :=
  {| devtConnections := wrap64 (devtConnections g - 1); lockChrome := lockChrome g |}.

(** A send on [lockChrome] goes through when the buffer of capacity one
    is empty and a receive when it holds a value; otherwise the goroutine
    waits. *)
Definition send_lock (g : globals) : option globals :=
  if bool_decide (lockChrome g < 1)%nat
  then Some {| devtConnections := devtConnections g; lockChrome := S (lockChrome g) |}
  else None.
Definition receive_lock (g : globals) : option globals :=
  match lockChrome g with
  | O => None
  | S n => Some {| devtConnections := devtConnections g; lockChrome := n |}
  end.

(** What a call finds each time it is looked at while it waits at the
    [select]: the package variables as the other calls have left them,
    [ctx.Err()], and the choice of the runtime when both cases are
    ready. *)
Record moment : Type :=
  { m_vars : globals;
    m_ctx_Err : option error;
    m_pick : bool }.

(** What the [select] of [Print] does at one moment: the send on
    [lockChrome] can go when the buffer is empty, the receive on
    [ctx.Done()] when the context is over.  [LockAcquired] holds the
    package variables after the send. *)
Inductive selected : Type :=
  | LockAcquired (g : globals)
  | Done (err : error)
  | Parked.

Definition select_once (mo : moment) : selected :=
  match send_lock (m_vars mo), m_ctx_Err mo with
  | Some g, None => LockAcquired g
  | Some g, Some err => if m_pick mo then LockAcquired g else Done err
  | None, Some err => Done err
  | None, None => Parked
  end.

(** The [select] blocks until one of its cases is ready: it fires at the
    first moment that does not leave it parked, and is still parked when
    there is none.  It gives with its result the package variables of
    the moment it stopped at. *)
Fixpoint select_lock (now : moment) (later : list moment) {struct later}
  : globals * selected :=
  match later with
  | [] => (m_vars now, select_once now)
  | next :: later' =>
      match select_once now with
      | Parked => select_lock next later'
      | s => (m_vars now, s)
      end
  end.

Definition no_available_connections : error :=
  XInvalid op_Print "no available connections" None.

(** [ctx_at_select] is [ctx.Err()] when [Print] reaches the [select] and
    [pick_lock] the choice of the runtime then; [parked] are the moments
    that follow for a call that waits there; [ctx_at_return] is
    [ctx.Err()] when [resolver] is back. *)
Record print_env : Type :=
  { ctx_at_select : option error;
    pick_lock : bool;
    parked : list moment;
    ctx_at_return : option error }.

(** The moments of the [select], the first with the package variables
    [Print] was called with. *)
Definition moments (e : print_env) (g : globals) : list moment :=
  {| m_vars := g; m_ctx_Err := ctx_at_select e; m_pick := pick_lock e |} :: parked e.

Section Print.
(** The world [resolver] acts on (the browser and the file system);
    [resolver] itself, run with the package variables as [Print] has set
    them, which gives the world as it leaves it and returns or does not;
    and [xcontext.MustHandleError], given [ctx.Err()] and the error. *)
Context {World : Type}.
Variable run_resolver : globals -> World -> World * outcome.
Variable MustHandleError : option error -> error -> error.

(** A run of [Print] so far: the package variables, the world, and the
    steps made, each with the package variables it left. *)
Definition run : Type := globals * World * list (admission_step * globals).

Definition record_step (s : admission_step) (g : globals) (r : run) : run :=
  (g, r.1.2, r.2 ++ [(s, g)]).

(** [err := resolver()] *)
Definition resolve (r : run) : run * outcome :=
  let '(w', o) := run_resolver r.1.1 r.1.2 in
  ((r.1.1, w', r.2 ++ [(Resolve, r.1.1)]), o).

(** [devtConnections++], [resolver()] and, once it is back,
    [devtConnections--]. *)
Definition counted (r : run) : run * outcome :=
  let '(r, o) := resolve (record_step Increment (increment r.1.1) r) in
  match o with
  | Returned err => (record_step Decrement (decrement r.1.1) r, Returned err)
  | Blocked => (r, Blocked)
  end.

(** The handling of the error of [resolver]. *)
Definition handle_error (e : print_env) (err : option error) : option error :=
  match err with
  | Some err => Some (MustHandleError (ctx_at_return e) (XNew op_Print err))
  | None => None
  end.

Definition Print (opts : ChromePrinterOptions) (e : print_env) (g : globals) (w : World)
  : globals * World * list (admission_step * globals) * outcome :=
  if wrap64 (devtConnections g + 1) <? MaxConnections opts then
    match counted (g, w, []) with
    | (r, Returned err) => (r, Returned (handle_error e err))
    | (r, Blocked) => (r, Blocked)
    end
  else if (MaxConnections opts <=? devtConnections g) && negb (WaitForConnection opts) then
    (g, w, [], Returned (Some no_available_connections))
  else
    match select_lock {| m_vars := g; m_ctx_Err := ctx_at_select e;
                         m_pick := pick_lock e |} (parked e) with
    | (g0, LockAcquired g1) =>
        match counted (record_step SendLock g1 (g0, w, [])) with
        | (r, Returned err) =>
            match receive_lock r.1.1 with
            | Some g' => (record_step ReceiveLock g' r, Returned (handle_error e err))
            | None => (r, Blocked)
            end
        | (r, Blocked) => (r, Blocked)
        end
    | (g0, Done err) => (g0, w, [], Returned (Some (MustHandleError (Some err) err)))
    | (g0, Parked) => (g0, w, [], Blocked)
    end.

(** What [Print] gives once a render is admitted.  [before] are the
    steps made to get there and [up] the package variables [resolver]
    runs under; when [resolver] is back, [after] are the steps that
    follow and [found] the package variables they leave; when it is not,
    [Print] stays at the call. *)
Definition rendered (e : print_env) (before : list (admission_step * globals))
    (up : globals) (after : list (admission_step * globals)) (found : globals)
    (w : World) : globals * World * list (admission_step * globals) * outcome :=
  match run_resolver up w with
  | (w', Returned err) =>
      (found, w', before ++ [(Increment, up); (Resolve, up)] ++ after,
       Returned (handle_error e err))
  | (w', Blocked) => (up, w', before ++ [(Increment, up); (Resolve, up)], Blocked)
  end.
End Print.

(** At a moment the [select] stays parked, takes the slot, or ends on
    the context. *)
Definition busy (mo : moment) : Prop :=
  (1 <= lockChrome (m_vars mo))%nat /\ m_ctx_Err mo = None.

Definition admits (mo : moment) : Prop :=
  lockChrome (m_vars mo) = 0%nat /\ (m_ctx_Err mo = None \/ m_pick mo = true).

Definition expires (mo : moment) (err : error) : Prop :=
  m_ctx_Err mo = Some err
  /\ ((1 <= lockChrome (m_vars mo))%nat \/ m_pick mo = false).

(** The counter is an [int64] below its largest value. *)
Definition below_max (g : globals) : Prop :=
  - 2 ^ 63 <= devtConnections g < 2 ^ 63 - 1.


(** A turn that writes the error of [id] whatever the entry holds, as
    long as it is absent or the abort text: an error response. *)
Definition error_response_of (id : string) (ev : network_event) : bool :=
  match ev with
  | ResponseReceived event =>
      String.eqb (rr_RequestID event) id && (400 <=? rr_Status event)
  | _ => false
  end.


(** ** Sample inputs

    Concrete answers of the browser and the system, to run the
    definitions on. *)

(** Every call succeeds; the context is ["C1"] and the target ["T1"]. *)
Definition sample_calls : resolver_calls :=
  {| Version := None; Dial_devt := None;
     CreateBrowserContext := inr "C1"; CreateTarget := inr "T1";
     Dial_target := None; enable := None; headers := None; subscriptions := [];
     readiness := Returned None; ledger := shared_init; visit := [];
     TargetCrashed_again := None; printing := Returned None |}.

(** The same with a readiness batch that ends on the deadline. *)
Definition sample_calls_deadline : resolver_calls :=
  {| Version := None; Dial_devt := None;
     CreateBrowserContext := inr "C1"; CreateTarget := inr "T1";
     Dial_target := None; enable := None; headers := None; subscriptions := [];
     readiness := Returned (Some (Foreign "context deadline exceeded"));
     ledger := shared_init; visit := [];
     TargetCrashed_again := None; printing := Returned None |}.


(** The bytes of ["%PDF"] and a file of nine bytes at ["out.pdf"] with
    permission bits 0644. *)
Definition sample_pdf : list Byte.byte := [Byte.x25; Byte.x50; Byte.x44; Byte.x46].

Definition sample_old_file : File :=
  {| mode := 420;
     data := [Byte.x4f; Byte.x4c; Byte.x44; Byte.x4f; Byte.x4c; Byte.x44;
              Byte.x4f; Byte.x4c; Byte.x44] |}.

Definition sample_fs : gmap string File := {[ "out.pdf" := sample_old_file ]}.

Definition sample_print (reply : error + io_stream) : printer_calls :=
  {| PrintToPDF := reply; umask := 18; open_refused := None; disk := None;
     file_Close := None |}.

Definition sample_opts : ChromePrinterOptions :=
  {| WaitJSRenderStatus := "ready"; PageRanges := "1-x"; RpccBufferSize := 1048576;
     MaxConnections := 2; WaitForConnection := false |}.


(** Answers with which [listenEvents] returns nil: every call succeeds
    and every subscription delivers its event. *)
Definition sample_listen : listen_calls :=
  {| Page_Enable := None; Network_Enable := None;
     Page_DOMContentEventFired := inr [Event tt];
     Page_LoadEventFired := inr [Event tt];
     Page_LifecycleEvent := inr [Event "init"; Event "load"; Event "networkIdle"];
     Network_LoadingFinished := inr [Event tt];
     Page_Navigate := None;
     finished := [3; 0; 2; 1]%nat |}.


(** A decoder of the two JSON booleans, and the replies of a page whose
    status is reached at the sixth evaluation. *)
Definition sample_json : JsonBool := fun data old =>
  if String.eqb data "true" then (true, None)
  else if String.eqb data "false" then (false, None)
  else (old, Some (Foreign "json: cannot unmarshal into Go value of type bool")).

Definition sample_replies (i : nat) : error + EvaluateReply :=
  inr {| ExceptionDetails := None;
         Result_Value := if (i <? 5)%nat then "false" else "true" |}.


(** A world for [Print]: the calls made on the browser and the files.
    [sample_run] is a run of [resolver] in which everything succeeds and
    four bytes are printed to ["out.pdf"]; [sample_MustHandleError] turns
    an error into a timeout when the context is over. *)
Definition sample_world : Type := list call * gmap string File.

Definition sample_run (g : globals) (w : sample_world) : sample_world * outcome :=
  let '(calls, o) := resolver sample_calls in
  let '(fs', err) :=
    @printer sample_xerror sample_opts "out.pdf"
      (sample_print (inr {| stream_bytes := sample_pdf; stream_error := None |})) w.2 in
  ((w.1 ++ calls, fs'), Returned err).


Definition sample_MustHandleError (ctx_Err : option error) (err : error) : error :=
  match ctx_Err with
  | Some _ => XInvalid "xcontext.MustHandleError" "context has timed out" (Some err)
  | None => err
  end.

Definition sample_env : print_env :=
  {| ctx_at_select := None; pick_lock := true; parked := []; ctx_at_return := None |}.

(** A call that finds the slot taken, once more at the next moment, and
    free with the counter at 0 at the one after. *)
Definition sample_env_waiting : print_env :=
  {| ctx_at_select := None; pick_lock := true;
     parked := [ {| m_vars := {| devtConnections := 1; lockChrome := 1 |};
                    m_ctx_Err := None; m_pick := true |};
                 {| m_vars := {| devtConnections := 0; lockChrome := 0 |};
                    m_ctx_Err := None; m_pick := true |} ];
     ctx_at_return := None |}.

Definition sample_opts_one : ChromePrinterOptions :=
  {| WaitJSRenderStatus := ""; PageRanges := ""; RpccBufferSize := 1048576;
     MaxConnections := 1; WaitForConnection := true |}.


(** ** [enableEvents] and [setCustomHTTPHeaders] *)

Definition op_enableEvents : string := "printer.chromePrinter.enableEvents".
Definition op_setCustomHTTPHeaders : string :=
  "printer.chromePrinter.setCustomHTTPHeaders".

(** What the five calls of [enableEvents] do and the order in which
    their goroutines return. *)
Record enable_calls : Type :=
  { ee_DOM_Enable : outcome;
    ee_Network_Enable : outcome;
    ee_Page_Enable : outcome;
    ee_Page_SetLifecycleEventsEnabled : outcome;
    ee_Runtime_Enable : outcome;
    ee_finished : list nat }.

Definition enable_batch (c : enable_calls) : list outcome :=
  [ ee_DOM_Enable c; ee_Network_Enable c; ee_Page_Enable c;
    ee_Page_SetLifecycleEventsEnabled c; ee_Runtime_Enable c ].

Definition chromePrinter_enableEvents (c : enable_calls) : outcome :=
  match runBatch (ee_finished c) (enable_batch c) with
  | Returned (Some err) => Returned (Some (XNew op_enableEvents err))
  | o => o
  end.

(** [json.Marshal] at a [map[string]string]. *)
Class JsonMarshal := json_Marshal : gmap string string -> error + string.

(** The loop that copies the headers, entry by entry, in the order
    [visit] of the [range]. *)
Definition copy_headers (visit : list (string * string)) : gmap string string :=
  fold_left (fun m kv => <[kv.1 := kv.2]> m) visit ∅.

(** The payloads handed to [Network.SetExtraHTTPHeaders], whose answer
    to a payload is [SetExtraHTTPHeaders], and the error returned. *)
Definition chromePrinter_setCustomHTTPHeaders `{JsonMarshal}
    (CustomHTTPHeaders : gmap string string) (visit : list (string * string))
    (SetExtraHTTPHeaders : string -> option error) : list string * option error :=
  let resolver :=
    if bool_decide (size CustomHTTPHeaders = 0)%nat then ([], None)
    else
      match json_Marshal (copy_headers visit) with
      | inl err => ([], Some err)
      | inr b => ([b], SetExtraHTTPHeaders b)
      end in
  match resolver with
  | (sent, Some err) => (sent, Some (XNew op_setCustomHTTPHeaders err))
  | (sent, None) => (sent, None)
  end.


(** A rendering of a map of headers, to run the definitions on. *)
Definition sample_marshal : JsonMarshal := fun m =>
  inr (String.concat "," ((fun kv => kv.1 +:+ ":" +:+ kv.2) <$> map_to_list m)).


(** How the turn [k] ends [poll]: the steps of the turn and the result. *)
Definition poll_ends (fn : nat -> bool * option error) (ctx_done : nat -> option error)
    (k : nat) (last : list poll_step) (r : option error) : Prop :=
  (fn k = (true, None) /\ last = [CallFn k] /\ r = None)
  \/ (exists b err, fn k = (b, Some err) /\ last = [CallFn k] /\ r = Some err)
  \/ (exists err, fn k = (false, None) /\ ctx_done k = Some err
                  /\ last = [CallFn k; TimerReset (100 * Millisecond); CtxDone]
                  /\ r = Some err).

(** A reply that [Wait] reads as the boolean [b]: no exception, and a
    value that decodes to [b]. *)
Definition decodes_to `{JsonBool} (reply : error + EvaluateReply) (b : bool) : Prop :=
  exists r, reply = inr r /\ ExceptionDetails r = None
            /\ json_Unmarshal (Result_Value r) false = (b, None).


(** A turn of [requestWillBeSentListener] for the request [id]. *)
Definition request_of (id : string) (ev : network_event) : bool :=
  match ev with
  | RequestWillBeSent event => String.eqb (rs_RequestID event) id
  | _ => false
  end.

(** The turn [ev] reports the error text [v] for the request [id]: a
    load failure with that text, or a response with an error status that
    prints as that text. *)
Definition reports (id v : string) (ev : network_event) : Prop :=
  match ev with
  | RequestWillBeSent _ => False
  | ResponseReceived event =>
      rr_RequestID event = id /\ 400 <= rr_Status event
      /\ v = Sprintf_d_s (rr_Status event) (rr_StatusText event)
  | LoadingFailed event => lf_RequestID event = id /\ v = lf_ErrorText event
  end.


(** The request id a turn is about. *)
Definition event_key (ev : network_event) : string :=
  match ev with
  | RequestWillBeSent event => rs_RequestID event
  | ResponseReceived event => rr_RequestID event
  | LoadingFailed event => lf_RequestID event
  end.


(** The release calls of a run of [resolver] that returns, read off what
    was acquired. *)
Definition expected_teardown (b : resolver_calls) : list call :=
  match Version b, Dial_devt b with
  | None, None =>
      match CreateBrowserContext b with
      | inl _ => [Conn_Close devtConn]
      | inr cid =>
          match CreateTarget b, Dial_target b with
          | inr tid, None => full_teardown cid tid
          | _, _ =>
              [Target_DisposeBrowserContext ctx_Background devtConn cid;
               Conn_Close devtConn]
          end
      end
  | _, _ => []
  end.

(** A step whose calls, made or deferred, all satisfy [P]. *)
Definition within {A : Type} (P : call -> Prop) (m : M A) : Prop :=
  forall f : frame,
    exists cs ds : list call,
      performed (m f).1 = performed f ++ cs
      /\ deferred (m f).1 = ds ++ deferred f
      /\ Forall P cs /\ Forall P ds.


(** The target is created but the connection to it cannot be dialed. *)
Definition sample_calls_no_dial : resolver_calls :=
  {| Version := None; Dial_devt := None;
     CreateBrowserContext := inr "C1"; CreateTarget := inr "T1";
     Dial_target := Some (Foreign "dial tcp 127.0.0.1:9222: connection refused");
     enable := None; headers := None; subscriptions := [];
     readiness := Returned None; ledger := shared_init; visit := [];
     TargetCrashed_again := None; printing := Returned None |}.


(** * The package [xlog]

    A call that panics gives the text of the panic. *)
Inductive result (A : Type) : Type :=
  | Value (a : A)
  | Panic (text : string).
Arguments Value {A} a.
Arguments Panic {A} text.

(** [Level] is a string type: any string can be converted to it. *)
Definition DebugLevel : string := "DEBUG".
Definition InfoLevel : string := "INFO".
Definition ErrorLevel : string := "ERROR".

(** The levels of logrus, from the most to the least severe, and the
    rank logrus compares them by. *)
Inductive logrus_Level : Type :=
  | logrus_PanicLevel
  | logrus_FatalLevel
  | logrus_ErrorLevel
  | logrus_WarnLevel
  | logrus_InfoLevel
  | logrus_DebugLevel
  | logrus_TraceLevel.

Definition logrus_rank (l : logrus_Level) : nat :=
  match l with
  | logrus_PanicLevel => 0
  | logrus_FatalLevel => 1
  | logrus_ErrorLevel => 2
  | logrus_WarnLevel => 3
  | logrus_InfoLevel => 4
  | logrus_DebugLevel => 5
  | logrus_TraceLevel => 6
  end.

Definition mustLogrusLevel (level : string) : result logrus_Level :=
  if String.eqb level DebugLevel then Value logrus_DebugLevel
  else if String.eqb level InfoLevel then Value logrus_InfoLevel
  else if String.eqb level ErrorLevel then Value logrus_ErrorLevel
  else Panic ("xlog.mustLogrusLevel: '" +:+ level
                +:+ "' is not associated with any logrus.Level").

Definition Levels : list string := [DebugLevel; InfoLevel; ErrorLevel].

(** [%v] at a slice of strings. *)
Definition Sprint_slice (l : list string) : string :=
  "[" +:+ String.concat " " l +:+ "]".

Definition MustParseLevel (level : string) : result string :=
  if String.eqb level DebugLevel then Value DebugLevel
  else if String.eqb level InfoLevel then Value InfoLevel
  else if String.eqb level ErrorLevel then Value ErrorLevel
  else Panic ("xlog.MustParseLevel: '" +:+ level +:+ "' is not one of '"
                +:+ Sprint_slice Levels +:+ "'").

(** A value of type [interface{}], as far as the package looks at it,
    and the name of its type in the panic of a failed assertion. *)
Inductive value : Type :=
  | VString (s : string)
  | VInt (n : Z)
  | VBool (b : bool)
  | VNil.

Definition type_name (v : value) : string :=
  match v with
  | VString _ => "string"
  | VInt _ => "int"
  | VBool _ => "bool"
  | VNil => "nil"
  end.

(** [v.(string)]. *)
Definition assert_string (v : value) : result string :=
  match v with
  | VString s => Value s
  | _ => Panic ("interface conversion: interface {} is " +:+ type_name v
                  +:+ ", not string")
  end.

(** The logger of logrus the package builds, an entry of it with its
    fields, and a line handed to the output. *)
Record logrus_Logger : Type :=
  { lg_Level : logrus_Level; lg_JSONFormatter : bool }.

Record Entry : Type :=
  { e_Logger : logrus_Logger; e_Data : gmap string value }.

Record line : Type :=
  { l_Level : logrus_Level; l_Data : gmap string value; l_Message : string }.

(** [entry.WithFields(fields)]: a new entry; the given fields win over
    the ones the entry has. *)
Definition Entry_WithFields (fields : gmap string value) (e : Entry) : Entry :=
  {| e_Logger := e_Logger e; e_Data := fields ∪ e_Data e |}.

Definition Entry_WithField (key : string) (v : value) (e : Entry) : Entry :=
  Entry_WithFields {[ key := v ]} e.

(** [entry.Log(level, message)]: the line is written when the level of
    the logger is at least [level]. *)
Definition Entry_Log (lvl : logrus_Level) (message : string) (e : Entry) : list line :=
  if bool_decide (logrus_rank lvl <= logrus_rank (lg_Level (e_Logger e)))%nat
  then [{| l_Level := lvl; l_Data := e_Data e; l_Message := message |}]
  else [].

Record Logger : Type :=
  { entry : Entry; level : string }.

(** [New(level, trace)]; [isatty] says whether the standard output is a
    terminal. *)
Definition xlog_New (isatty : bool) (lvl trace : string) : result Logger :=
  match mustLogrusLevel lvl with
  | Panic text => Panic text
  | Value l =>
      Value {| entry :=
                 Entry_WithField "trace" (VString trace)
                   {| e_Logger := {| lg_Level := l; lg_JSONFormatter := negb isatty |};
                      e_Data := ∅ |};
               level := lvl |}
  end.

Definition Logger_Level (l : Logger) : string := level l.

Definition Logger_WithFields (fields : gmap string value) (l : Logger) : Logger :=
  {| entry := Entry_WithFields fields (entry l); level := level l |}.

(** [fmt.Sprintf] is a parameter. *)
Class Fmt := fmt_Sprintf : string -> list value -> string.

Definition DebugOp (l : Logger) (op message : string) : list line :=
  Entry_Log logrus_DebugLevel message (Entry_WithField "op" (VString op) (entry l)).
Definition InfoOp (l : Logger) (op message : string) : list line :=
  Entry_Log logrus_InfoLevel message (Entry_WithField "op" (VString op) (entry l)).
Definition ErrorOp `{XerrorText} (l : Logger) (op : string) (err : error) : list line :=
  Entry_Log logrus_ErrorLevel (Error err) (Entry_WithField "op" (VString op) (entry l)).

Definition DebugOpf `{Fmt} (l : Logger) (op format : string) (args : list value)
  : list line :=
  Entry_Log logrus_DebugLevel (fmt_Sprintf format args)
    (Entry_WithField "op" (VString op) (entry l)).
Definition InfoOpf `{Fmt} (l : Logger) (op format : string) (args : list value)
  : list line :=
  Entry_Log logrus_InfoLevel (fmt_Sprintf format args)
    (Entry_WithField "op" (VString op) (entry l)).
Definition ErrorOpf `{Fmt} (l : Logger) (op format : string) (args : list value)
  : list line :=
  Entry_Log logrus_ErrorLevel (fmt_Sprintf format args)
    (Entry_WithField "op" (VString op) (entry l)).

(** [l.entry.Data["trace"].(string)]: a missing key gives the nil
    interface. *)
Definition GetTraceId (l : Logger) : result string :=
  assert_string (default VNil (e_Data (entry l) !! "trace")).

Record LeveledLogger : Type :=
  { ll_logger : Logger; ll_op : string }.

Definition NewLeveledLogger (logger : Logger) (op : string) : LeveledLogger :=
  {| ll_logger := logger; ll_op := op |}.

(** The loop of [fields] from the index it has reached, with the map
    built so far. *)
Fixpoint fields_from (keysAndValues : list value) (fields : gmap string value)
  : result (gmap string value) :=
  match keysAndValues with
  | key :: v :: rest =>
      match assert_string key with
      | Value k => fields_from rest (<[k := v]> fields)
      | Panic text => Panic text
      end
  | _ => Value fields
  end.

Definition LeveledLogger_fields (keysAndValues : list value) : result (gmap string value) :=
  fields_from keysAndValues ∅.

Section Leveled.
Context `{Fmt}.

Definition LeveledLogger_Error (l : LeveledLogger) (msg : string)
    (keysAndValues : list value) : result (list line) :=
  match LeveledLogger_fields keysAndValues with
  | Panic text => Panic text
  | Value fields =>
      Value (ErrorOpf (Logger_WithFields fields (ll_logger l)) (ll_op l) "%s" [VString msg])
  end.

Definition LeveledLogger_Info (l : LeveledLogger) (msg : string)
    (keysAndValues : list value) : result (list line) :=
  match LeveledLogger_fields keysAndValues with
  | Panic text => Panic text
  | Value fields =>
      Value (InfoOpf (Logger_WithFields fields (ll_logger l)) (ll_op l) "%s" [VString msg])
  end.

Definition LeveledLogger_Debug (l : LeveledLogger) (msg : string)
    (keysAndValues : list value) : result (list line) :=
  match LeveledLogger_fields keysAndValues with
  | Panic text => Panic text
  | Value fields =>
      Value (DebugOpf (Logger_WithFields fields (ll_logger l)) (ll_op l) "%s" [VString msg])
  end.

Definition LeveledLogger_Warn (l : LeveledLogger) (msg : string)
    (keysAndValues : list value) : result (list line) :=
  match LeveledLogger_fields keysAndValues with
  | Panic text => Panic text
  | Value fields =>
      Value (ErrorOpf (Logger_WithFields fields (ll_logger l)) (ll_op l) "%s" [VString msg])
  end.
End Leveled.

(** The pairs the loop of [fields] reads: a last element without a
    partner is left out. *)
Fixpoint pairs (keysAndValues : list value) : list (value * value) :=
  match keysAndValues with
  | key :: v :: rest => (key, v) :: pairs rest
  | _ => []
  end.

Definition is_string (v : value) : bool :=
  match v with
  | VString _ => true
  | _ => false
  end.

(** A formatter that prints its first argument, to run the definitions
    on. *)
Definition sample_fmt : Fmt := fun format args =>
  match args with
  | VString s :: _ => s
  | _ => format
  end.


(** What one pair adds to the map of [fields]. *)
Definition insert_pair (fields : gmap string value) (p : value * value)
  : gmap string value :=
  match p.1 with
  | VString k => <[k := p.2]> fields
  | _ => fields
  end.


(** The fields of a line of a leveled logger: the operation, over the
    fields of the call, over the trace of the logger. *)
Definition leveled_data (op trace : string) (fields : gmap string value)
  : gmap string value :=
  {[ "op" := VString op ]} ∪ (fields ∪ {[ "trace" := VString trace ]}).


(** The logger [New] builds at the level ERROR on a terminal. *)
Definition sample_logger : Logger :=
  {| entry := {| e_Logger := {| lg_Level := logrus_ErrorLevel;
                                lg_JSONFormatter := false |};
                 e_Data := {[ "trace" := VString "trace-7" ]} |};
     level := "ERROR" |}.


(** * The package [xhttp]

    The settings [New] reads from the configuration. *)
Record Config : Type :=
  { EnableAuthentication : bool;
    AuthenticationUsername : string;
    AuthenticationPassword : string;
    DisableGoogleChrome : bool;
    DisableUnoconv : bool }.

(** The paths of the endpoints are computed from the configuration by
    functions of the package that are parameters here. *)
Class Endpoints :=
  { pingEndpoint : Config -> string;
    htmlEndpoint : Config -> string;
    urlEndpoint : Config -> string;
    markdownEndpoint : Config -> string }.

Inductive handler : Type :=
  | pingHandler
  | htmlHandler
  | urlHandler
  | markdownHandler.

(** The middlewares; the one for basic authentication holds the
    configuration its validator reads. *)
Inductive middleware : Type :=
  | BasicAuth (config : Config)
  | contextMiddleware (config : Config)
  | loggerMiddleware (config : Config)
  | cleanupMiddleware
  | errorMiddleware.

Record route : Type :=
  { r_method : string; r_path : string; r_handler : handler }.

(** An [echo.Echo]: its two flags, and the middlewares and routes in
    the order they were registered. *)
Record Echo : Type :=
  { HideBanner : bool; HidePort : bool;
    middlewares : list middleware; routes : list route }.

Definition echo_New : Echo :=
  {| HideBanner := false; HidePort := false; middlewares := []; routes := [] |}.

Definition echo_Use (m : middleware) (srv : Echo) : Echo :=
  {| HideBanner := HideBanner srv; HidePort := HidePort srv;
     middlewares := middlewares srv ++ [m]; routes := routes srv |}.

Definition echo_add (method path : string) (h : handler) (srv : Echo) : Echo :=
  {| HideBanner := HideBanner srv; HidePort := HidePort srv;
     middlewares := middlewares srv;
     routes := routes srv ++ [{| r_method := method; r_path := path; r_handler := h |}] |}.

(** The function handed to [middleware.BasicAuth]. *)
Definition basicAuthValidator (config : Config) (username password : string)
  : bool * option error :=
  if String.eqb username (AuthenticationUsername config)
     && String.eqb password (AuthenticationPassword config)
  then (true, None)
  else (false, None).

Definition xhttp_New `{Endpoints} (config : Config) : Echo :=
  let srv := {| HideBanner := true; HidePort := true;
                middlewares := middlewares echo_New; routes := routes echo_New |} in
  let srv := if EnableAuthentication config then echo_Use (BasicAuth config) srv else srv in
  let srv := echo_Use (contextMiddleware config) srv in
  let srv := echo_Use (loggerMiddleware config) srv in
  let srv := echo_Use cleanupMiddleware srv in
  let srv := echo_Use errorMiddleware srv in
  let srv := echo_add "GET" (pingEndpoint config) pingHandler srv in
  if DisableGoogleChrome config && DisableUnoconv config then srv
  else
    let srv :=
      if negb (DisableGoogleChrome config) then
        echo_add "POST" (markdownEndpoint config) markdownHandler
          (echo_add "POST" (urlEndpoint config) urlHandler
             (echo_add "POST" (htmlEndpoint config) htmlHandler srv))
      else srv in
    srv.

(** The configuration with another setting for unoconv. *)
Definition with_DisableUnoconv (b : bool) (config : Config) : Config :=
  {| EnableAuthentication := EnableAuthentication config;
     AuthenticationUsername := AuthenticationUsername config;
     AuthenticationPassword := AuthenticationPassword config;
     DisableGoogleChrome := DisableGoogleChrome config;
     DisableUnoconv := b |}.

Definition is_BasicAuth (m : middleware) : bool :=
  match m with
  | BasicAuth _ => true
  | _ => false
  end.

Definition sample_endpoints : Endpoints :=
  {| pingEndpoint := fun _ => "/ping";
     htmlEndpoint := fun _ => "/convert/html";
     urlEndpoint := fun _ => "/convert/url";
     markdownEndpoint := fun _ => "/convert/markdown" |}.


(** The answers to the seven calls [listenEvents] makes before its
    batch, in the order of the source, each by the error it gives. *)
Definition answer_error {A : Type} (r : error + A) : option error :=
  match r with
  | inl err => Some err
  | inr _ => None
  end.

Definition listen_answers (c : listen_calls) : list (option error) :=
  [ Page_Enable c;
    Network_Enable c;
    answer_error (Page_DOMContentEventFired c);
    answer_error (Page_LoadEventFired c);
    answer_error (Page_LifecycleEvent c);
    answer_error (Network_LoadingFinished c);
    Page_Navigate c ].


(** ** Facts on strings *)

Lemma HasPrefix_app (p r : string) : HasPrefix (p +:+ r) p = true.
Proof.
  induction p as [|c p IH]; [reflexivity|].
  simpl. rewrite Ascii.eqb_refl. exact IH.
Qed.

Lemma HasPrefix_inv (s p : string) :
  HasPrefix s p = true -> exists r, s = p +:+ r.
Proof.
  revert s. induction p as [|c p IH]; intros s Hs; simpl in *.
  - exists s. reflexivity.
  - destruct s as [|d s]; [discriminate|].
    destruct (Ascii.eqb c d) eqn:E; [|discriminate].
    apply Ascii.eqb_eq in E. subst d.
    destruct (IH _ Hs) as [r ->]. exists r. reflexivity.
Qed.

Lemma Contains_of_prefix (s sub : string) :
  HasPrefix s sub = true -> Contains s sub = true.
Proof. intros Hp. destruct s; simpl; rewrite Hp; reflexivity. Qed.

Lemma Contains_intro (a sub b : string) : Contains (a +:+ sub +:+ b) sub = true.
Proof.
  induction a as [|c a IH].
  - apply Contains_of_prefix. exact (HasPrefix_app sub b).
  - change (Contains (String c (a +:+ sub +:+ b)) sub = true).
    simpl. rewrite IH. apply orb_true_r.
Qed.

Lemma Contains_inv (s sub : string) :
  Contains s sub = true -> exists a b, s = a +:+ sub +:+ b.
Proof.
  induction s as [|c s IH]; intros Hc.
  - simpl in Hc. rewrite orb_false_r in Hc.
    destruct (HasPrefix_inv _ _ Hc) as [r ->]. exists "", r. reflexivity.
  - simpl in Hc. apply orb_true_iff in Hc as [Hp|Hc].
    + destruct (HasPrefix_inv _ _ Hp) as [r ->]. exists "", r. reflexivity.
    + destruct (IH Hc) as (a & b & ->). exists (String c a), b. reflexivity.
Qed.

(** [Contains] decides the substring relation. *)
Lemma Contains_spec (s sub : string) :
  Contains s sub = true <-> exists a b, s = a +:+ sub +:+ b.
Proof.
  split; [apply Contains_inv|]. intros (a & b & ->). apply Contains_intro.
Qed.

Lemma append_cons (x : Ascii.ascii) (a b : string) :
  String x a +:+ b = String x (a +:+ b).
Proof. reflexivity. Qed.

Lemma append_assoc (a b c : string) : (a +:+ b) +:+ c = a +:+ b +:+ c.
Proof.
  induction a as [|x a IH]; [reflexivity|].
  rewrite !append_cons. f_equal. exact IH.
Qed.

Lemma append_nil_r (a : string) : a +:+ "" = a.
Proof.
  induction a as [|x a IH]; [reflexivity|].
  rewrite append_cons. f_equal. exact IH.
Qed.

Lemma length_append (a b : string) :
  String.length (a +:+ b) = (String.length a + String.length b)%nat.
Proof.
  induction a as [|x a IH]; [reflexivity|].
  rewrite append_cons. simpl. f_equal. exact IH.
Qed.

Lemma Contains_trans (s t u : string) :
  Contains s t = true -> Contains t u = true -> Contains s u = true.
Proof.
  intros (a & b & ->)%Contains_spec (c & d & ->)%Contains_spec.
  apply Contains_spec. exists (a +:+ c), (d +:+ b).
  rewrite !append_assoc. reflexivity.
Qed.

(** ** The error ledger *)

Section Ledger.
Implicit Types (st : shared) (id : string) (ev : network_event).

(** A text [Sprintf("%d %s", ...)] builds has a space; the abort text
    has none. *)
Lemma Sprintf_d_s_not_abort (n : Z) (s : string) : Sprintf_d_s n s <> ERR_ABORTED.
Proof.
  intros E.
  pose proof (Contains_intro (pretty n) " " s) as Hc.
  unfold Sprintf_d_s in E. rewrite E in Hc. vm_compute in Hc. discriminate.
Qed.

Lemma turns_app (a b : list network_event) st :
  turns (a ++ b) st = turns b (turns a st).
Proof. unfold turns. apply fold_left_app. Qed.

Lemma turns_cons ev (b : list network_event) st :
  turns (ev :: b) st = turns b (turn st ev).
Proof. reflexivity. Qed.

Lemma response_writes (event : ResponseReceivedReply) st :
  400 <= rr_Status event ->
  requestErrorMessages st !! rr_RequestID event = None
  \/ requestErrorMessages st !! rr_RequestID event = Some ERR_ABORTED ->
  requestErrorMessages (responseReceived_body event st) !! rr_RequestID event
  = Some (Sprintf_d_s (rr_Status event) (rr_StatusText event)).
Proof.
  intros Hs He. unfold responseReceived_body.
  destruct (Z.ltb_spec (rr_Status event) 400) as [?|_]; [lia|].
  destruct He as [-> | ->]; simpl; apply lookup_insert_eq.
Qed.

Lemma response_below_400 (event : ResponseReceivedReply) st :
  rr_Status event < 400 -> responseReceived_body event st = st.
Proof.
  intros Hs. unfold responseReceived_body.
  destruct (Z.ltb_spec (rr_Status event) 400) as [_|?]; [reflexivity|lia].
Qed.

Lemma loadingFailed_keeps (event : LoadingFailedReply) st :
  is_Some (requestErrorMessages st !! lf_RequestID event) ->
  loadingFailed_body event st = st.
Proof. intros [v Hv]. unfold loadingFailed_body. rewrite Hv. reflexivity. Qed.

(** No turn writes over an entry that is not the abort text. *)
Lemma turn_keeps_concrete st ev id (v : string) :
  requestErrorMessages st !! id = Some v -> v <> ERR_ABORTED ->
  requestErrorMessages (turn st ev) !! id = Some v.
Proof.
  intros Hv Hne. destruct ev as [event|event|event]; simpl.
  - exact Hv.
  - unfold responseReceived_body.
    destruct (rr_Status event <? 400); [exact Hv|].
    destruct (requestErrorMessages st !! rr_RequestID event) as [value|] eqn:E.
    + destruct (String.eqb_spec value ERR_ABORTED) as [->|_]; [|exact Hv].
      simpl. rewrite lookup_insert_ne; [exact Hv|]. congruence.
    + simpl. rewrite lookup_insert_ne; [exact Hv|]. congruence.
  - unfold loadingFailed_body.
    destruct (requestErrorMessages st !! lf_RequestID event) eqn:E; [exact Hv|].
    simpl. rewrite lookup_insert_ne; [exact Hv|]. congruence.
Qed.

Lemma turns_keep_concrete (evs : list network_event) st id (v : string) :
  requestErrorMessages st !! id = Some v -> v <> ERR_ABORTED ->
  requestErrorMessages (turns evs st) !! id = Some v.
Proof.
  revert st. induction evs as [|ev evs IH]; intros st Hv Hne; [exact Hv|].
  rewrite turns_cons. apply IH; [|exact Hne]. by apply turn_keeps_concrete.
Qed.

(** The abort text stays until an error response of the request. *)
Lemma turn_keeps_abort st ev id :
  error_response_of id ev = false ->
  requestErrorMessages st !! id = Some ERR_ABORTED ->
  requestErrorMessages (turn st ev) !! id = Some ERR_ABORTED.
Proof.
  intros Hev Hv. destruct ev as [event|event|event]; simpl in *.
  - exact Hv.
  - unfold responseReceived_body.
    destruct (Z.ltb_spec (rr_Status event) 400) as [|Hge]; [exact Hv|].
    assert (rr_RequestID event <> id) as Hid.
    { intros <-. rewrite String.eqb_refl in Hev. simpl in Hev.
      apply Z.leb_gt in Hev. lia. }
    destruct (requestErrorMessages st !! rr_RequestID event) as [value|].
    + destruct (String.eqb value ERR_ABORTED); [|exact Hv].
      simpl. by rewrite lookup_insert_ne.
    + simpl. by rewrite lookup_insert_ne.
  - unfold loadingFailed_body.
    destruct (requestErrorMessages st !! lf_RequestID event) eqn:E; [exact Hv|].
    simpl. rewrite lookup_insert_ne; [exact Hv|]. congruence.
Qed.

Lemma turns_keep_abort (evs : list network_event) st id :
  Forall (fun ev => error_response_of id ev = false) evs ->
  requestErrorMessages st !! id = Some ERR_ABORTED ->
  requestErrorMessages (turns evs st) !! id = Some ERR_ABORTED.
Proof.
  intros Hall. revert st. induction Hall as [|ev evs Hev _ IH]; intros st Hv; [exact Hv|].
  rewrite turns_cons. apply IH. by apply turn_keeps_abort.
Qed.
End Ledger.

(** C1 (as amended).  For the entry of a request id in the error ledger:
    an error response (status at least 400) writes over the abort text
    [net::ERR_ABORTED]; a [loadingFailed] report never writes over an
    entry, whatever it holds; an entry that is not the abort text is kept
    by every later report; so a request first reported as aborted and then
    by an error response ends with the text of the response. *)
Theorem error_ledger_upgrade_rule (st : shared) (id : string) :
  (forall event : ResponseReceivedReply,
      rr_RequestID event = id -> 400 <= rr_Status event ->
      requestErrorMessages st !! id = Some ERR_ABORTED ->
      requestErrorMessages (responseReceived_body event st) !! id
      = Some (Sprintf_d_s (rr_Status event) (rr_StatusText event)))
  /\ (forall event : LoadingFailedReply,
      lf_RequestID event = id ->
      is_Some (requestErrorMessages st !! id) ->
      requestErrorMessages (loadingFailed_body event st) = requestErrorMessages st)
  /\ (forall (v : string) (evs : list network_event),
      requestErrorMessages st !! id = Some v -> v <> ERR_ABORTED ->
      requestErrorMessages (turns evs st) !! id = Some v)
  /\ (forall (pre mid post : list network_event) (event : ResponseReceivedReply),
      rr_RequestID event = id -> 400 <= rr_Status event ->
      requestErrorMessages (turns pre st) !! id = None ->
      Forall (fun ev => error_response_of id ev = false) mid ->
      requestErrorMessages
        (turns (pre ++ LoadingFailed {| lf_RequestID := id; lf_ErrorText := ERR_ABORTED |}
                    :: mid ++ ResponseReceived event :: post) st) !! id
      = Some (Sprintf_d_s (rr_Status event) (rr_StatusText event))).
Proof.
  repeat split.
  - intros event <- Hs Hv. apply response_writes; auto.
  - intros event <- Hv. by rewrite loadingFailed_keeps.
  - intros v evs Hv Hne. by apply turns_keep_concrete.
  - intros pre mid post event <- Hs Hnone Hmid.
    rewrite turns_app, turns_cons, turns_app, turns_cons.
    apply turns_keep_concrete; [|apply Sprintf_d_s_not_abort].
    simpl. apply response_writes; [exact Hs|]. right.
    apply turns_keep_abort; [exact Hmid|].
    unfold loadingFailed_body. simpl. rewrite Hnone. simpl. apply lookup_insert_eq.
Qed.

Lemma error_ledger_upgrade_rule_witness :
  requestErrorMessages
    (turns [ LoadingFailed {| lf_RequestID := "7"; lf_ErrorText := ERR_ABORTED |};
             ResponseReceived {| rr_RequestID := "7"; rr_Status := 404;
                                 rr_StatusText := "Not Found" |} ]
       shared_init) !! "7"
  = Some "404 Not Found".
Proof.
  destruct (error_ledger_upgrade_rule shared_init "7") as (_ & _ & _ & Hrun).
  exact (Hrun [] [] []
           {| rr_RequestID := "7"; rr_Status := 404; rr_StatusText := "Not Found" |}
           eq_refl ltac:(simpl; lia) eq_refl (List.Forall_nil _)).
Defined.

(** C1, the claim as stated fails: a request reported as aborted and then
    by [loadingFailed] with a concrete text keeps the abort text. *)
Lemma loadingFailed_keeps_abort_text :
  requestErrorMessages
    (turns [ LoadingFailed {| lf_RequestID := "7"; lf_ErrorText := ERR_ABORTED |};
             LoadingFailed {| lf_RequestID := "7";
                              lf_ErrorText := "net::ERR_CONNECTION_REFUSED" |} ]
       shared_init) !! "7"
  = Some "net::ERR_ABORTED"
  /\ "net::ERR_ABORTED" <> "net::ERR_CONNECTION_REFUSED".
Proof. split; [vm_compute; reflexivity|discriminate]. Qed.

(** ** The resource-error message *)

Section ResourceMessage.
Implicit Types (urls : gmap string string) (visit : list (string * string)).

Lemma concat_cons_cons (sep x y : string) (l : list string) :
  String.concat sep (x :: y :: l) = x +:+ sep +:+ String.concat sep (y :: l).
Proof. reflexivity. Qed.

Lemma concat_absorb (sep x y : string) (l : list string) :
  String.concat sep (((x +:+ sep) +:+ y) :: l) = String.concat sep (x :: y :: l).
Proof.
  destruct l as [|z l].
  - simpl. apply append_assoc.
  - rewrite !concat_cons_cons, !append_assoc. reflexivity.
Qed.

Lemma resource_entry_length urls kv : (0 < String.length (resource_entry urls kv))%nat.
Proof.
  unfold resource_entry, Sprintf_s_colon_s. rewrite !length_append. simpl. lia.
Qed.

Lemma fold_message urls visit (acc : string) :
  (0 < String.length acc)%nat ->
  fold_left
    (fun msg kv =>
       (if bool_decide (0 < String.length msg)%nat then msg +:+ newline else msg)
         +:+ resource_entry urls kv)
    visit acc
  = String.concat newline (acc :: (resource_entry urls <$> visit)).
Proof.
  revert acc. induction visit as [|kv visit IH]; intros acc Hacc; [reflexivity|].
  simpl fold_left. rewrite bool_decide_eq_true_2 by exact Hacc.
  rewrite IH.
  - rewrite fmap_cons. apply concat_absorb.
  - rewrite !length_append. lia.
Qed.

(** The loop of [Print] joins the entries with line feeds. *)
Lemma resource_message_join urls visit :
  resource_message urls visit = String.concat newline (resource_entry urls <$> visit).
Proof.
  destruct visit as [|kv visit]; [reflexivity|].
  unfold resource_message. simpl fold_left.
  apply fold_message, resource_entry_length.
Qed.

Lemma Contains_concat (sep x : string) (l : list string) :
  x ∈ l -> Contains (String.concat sep l) x = true.
Proof.
  induction 1 as [x l|x y l Hin IH].
  - destruct l as [|z l].
    + simpl. rewrite <- (append_nil_r x) at 1. exact (Contains_intro "" x "").
    + rewrite concat_cons_cons. exact (Contains_intro "" x _).
  - destruct l as [|z l]; [by apply elem_of_nil in Hin|].
    rewrite concat_cons_cons.
    apply Contains_spec in IH as (a & b & ->).
    apply Contains_spec. exists (y +:+ sep +:+ a), b.
    rewrite !append_assoc. reflexivity.
Qed.

Lemma Contains_app_l (a b : string) : Contains (a +:+ b) a = true.
Proof. exact (Contains_intro "" a b). Qed.

Lemma Contains_app_mid (a s b : string) : Contains (a +:+ s +:+ b) s = true.
Proof. apply Contains_intro. Qed.
End ResourceMessage.

(** C9 (as amended).  After a readiness batch that returned no error, a
    non-empty error ledger makes [resolver] return the [xerror.Invalid]
    error whose message joins with line feeds one ["<url>: <message>"]
    entry per request of the ledger, the url being the one kept for the
    request id; a response with a status below 400 changes nothing; and a
    response with status 404 that is handled while the ledger has no
    entry, or the abort text, for its request puts the url of the request
    and ["404"] in the message. *)
Theorem resource_errors_surface (s0 : shared) (evs : list network_event)
    (visit : list (string * string)) :
  let st := turns evs s0 in
  let msg := String.concat newline (resource_entry (requestURLs st) <$> visit) in
  visit ≡ₚ map_to_list (requestErrorMessages st) ->
  requestErrorMessages st <> ∅ ->
  after_readiness None st visit = inl (XInvalid op_Print msg None)
  /\ length visit = size (requestErrorMessages st)
  /\ NoDup visit.*1
  /\ (forall id m, requestErrorMessages st !! id = Some m <-> (id, m) ∈ visit)
  /\ (forall id m, requestErrorMessages st !! id = Some m ->
        Contains msg (url_of (requestURLs st) id +:+ ": " +:+ m) = true)
  /\ (forall (event : ResponseReceivedReply) (s : shared),
        rr_Status event < 400 -> responseReceived_body event s = s)
  /\ (forall (pre post : list network_event) (event : ResponseReceivedReply) (u : string),
        evs = pre ++ ResponseReceived event :: post ->
        rr_Status event = 404 ->
        requestErrorMessages (turns pre s0) !! rr_RequestID event = None
        \/ requestErrorMessages (turns pre s0) !! rr_RequestID event = Some ERR_ABORTED ->
        requestURLs st !! rr_RequestID event = Some u ->
        Contains msg u = true /\ Contains msg "404" = true).
Proof.
  intros st msg Hperm Hne.
  assert (forall id m, requestErrorMessages st !! id = Some m <-> (id, m) ∈ visit) as Hin.
  { intros id m. rewrite Hperm. symmetry. apply elem_of_map_to_list. }
  assert (forall id m, requestErrorMessages st !! id = Some m ->
            Contains msg (url_of (requestURLs st) id +:+ ": " +:+ m) = true) as Hmsg.
  { intros id m Hm. apply Hin in Hm. subst msg. apply Contains_concat.
    apply list_elem_of_fmap. exists (id, m). split; [reflexivity|exact Hm]. }
  split; [|split; [|split; [|split; [|split; [|split]]]]].
  - unfold after_readiness. rewrite bool_decide_eq_true_2.
    + rewrite resource_message_join. reflexivity.
    + apply map_size_non_empty_iff in Hne. lia.
  - rewrite Hperm. apply length_map_to_list.
  - rewrite Hperm. apply NoDup_fst_map_to_list.
  - exact Hin.
  - exact Hmsg.
  - intros event s Hs. by apply response_below_400.
  - intros pre post event u -> H404 Hfree Hu.
    assert (requestErrorMessages st !! rr_RequestID event
            = Some (Sprintf_d_s 404 (rr_StatusText event))) as Hentry.
    { subst st. rewrite turns_app, turns_cons.
      apply turns_keep_concrete; [|apply Sprintf_d_s_not_abort].
      simpl. rewrite <- H404. apply response_writes; [lia|exact Hfree]. }
    apply Hmsg in Hentry. unfold url_of in Hentry. rewrite Hu in Hentry. simpl in Hentry.
    split.
    + eapply Contains_trans; [exact Hentry|]. apply Contains_app_l.
    + eapply Contains_trans; [exact Hentry|].
      unfold Sprintf_d_s. change (pretty 404) with "404".
      apply Contains_spec. exists (u +:+ ": "), (" " +:+ rr_StatusText event).
      rewrite !append_assoc. reflexivity.
Qed.

Lemma resource_errors_surface_witness :
  after_readiness None
    (turns [ RequestWillBeSent {| rs_RequestID := "1"; rs_URL := "http://t/api" |};
             ResponseReceived {| rr_RequestID := "1"; rr_Status := 404;
                                 rr_StatusText := "Not Found" |} ]
       shared_init)
    [("1", "404 Not Found")]
  = inl (XInvalid op_Print "http://t/api: 404 Not Found" None).
Proof.
  refine (proj1 (resource_errors_surface shared_init
                   [ RequestWillBeSent {| rs_RequestID := "1"; rs_URL := "http://t/api" |};
                     ResponseReceived {| rr_RequestID := "1"; rr_Status := 404;
                                         rr_StatusText := "Not Found" |} ]
                   [("1", "404 Not Found")] _ _)).
  - vm_compute. reflexivity.
  - intros E. apply (f_equal (fun m => m !! "1")) in E. vm_compute in E. discriminate.
Defined.

(** C9, the claim as stated fails: a request whose load failure was
    recorded first keeps that text, and the 404 of its response is not in
    the message. *)
Lemma response_404_after_failure_is_not_reported :
  let st :=
    turns [ RequestWillBeSent {| rs_RequestID := "1"; rs_URL := "http://t/a.js" |};
            LoadingFailed {| lf_RequestID := "1";
                             lf_ErrorText := "net::ERR_CONNECTION_RESET" |};
            ResponseReceived {| rr_RequestID := "1"; rr_Status := 404;
                                rr_StatusText := "Not Found" |} ]
      shared_init in
  map_to_list (requestErrorMessages st) = [("1", "net::ERR_CONNECTION_RESET")]
  /\ after_readiness None st (map_to_list (requestErrorMessages st))
     = inl (XInvalid op_Print "http://t/a.js: net::ERR_CONNECTION_RESET" None)
  /\ Contains "http://t/a.js: net::ERR_CONNECTION_RESET" "404" = false.
Proof. vm_compute. repeat split. Qed.

(** ** Deferred release in [resolver] *)

Section Teardown.
Ltac solve_suffix :=
  unfold full_teardown;
  first [ by exists [] | by eexists [_] | by eexists [_; _]
        | by eexists [_; _; _] | by eexists [_; _; _; _] ].

Lemma quiet_ret {A : Type} (a : A) : quiet (mret a).
Proof. intros f. split; [reflexivity|]. exists []. by rewrite app_nil_r. Qed.

Lemma quiet_bind {A B : Type} (m : M A) (k : A -> M B) :
  quiet m -> (forall a, quiet (k a)) -> quiet (m ≫= k).
Proof.
  intros Hm Hk f. unfold mbind, M_bind.
  destruct (Hm f) as (Hd & cs & Hp & Hcs).
  destruct (m f) as [f' [a|o]] eqn:E; simpl in *.
  - destruct (Hk a f') as (Hd' & cs' & Hp' & Hcs').
    split; [congruence|]. exists (cs ++ cs').
    rewrite Hp', Hp, app_assoc. split; [reflexivity|]. by apply Forall_app.
  - split; [exact Hd|]. by exists cs.
Qed.

Lemma quiet_perform {A : Type} (c : call) (r : error + A) :
  is_release c = false -> quiet (perform c r).
Proof.
  intros Hc f. split; [reflexivity|]. exists [c]. split; [reflexivity|].
  by constructor.
Qed.

Lemma quiet_await (c : call) (o : outcome) : is_release c = false -> quiet (await c o).
Proof.
  intros Hc f. split; [reflexivity|]. exists [c]. split; [reflexivity|].
  by constructor.
Qed.

Lemma quiet_leave {A : Type} (r : error + unit) : quiet (@leave A r).
Proof. intros f. split; [reflexivity|]. exists []. by rewrite app_nil_r. Qed.

Lemma quiet_subscribe_all (names : list string) (answers : list (option error)) :
  quiet (subscribe_all names answers).
Proof.
  revert answers. induction names as [|name names IH]; intros answers.
  - apply quiet_ret.
  - simpl. apply quiet_bind; [by apply quiet_perform|]. intros _. apply IH.
Qed.

Lemma quiet_render_phase (b : resolver_calls) : quiet (render_phase b).
Proof.
  unfold render_phase.
  repeat (apply quiet_bind; [first [by apply quiet_perform | by apply quiet_await
                                   | apply quiet_subscribe_all]|intros _]).
  destruct (after_readiness None (ledger b) (visit b)).
  - apply quiet_leave.
  - apply quiet_bind; [by apply quiet_perform|]. intros _. by apply quiet_await.
Qed.

(** With everything acquired, [resolver] is the render phase run on
    the frame that holds the four deferred calls. *)
Lemma resolver_body_acquired (b : resolver_calls) (cid tid : string) :
  Version b = None -> Dial_devt b = None ->
  CreateBrowserContext b = inr cid -> CreateTarget b = inr tid ->
  Dial_target b = None ->
  resolver_body b {| performed := []; deferred := [] |}
  = render_phase b
      {| performed :=
           [ devtool_Version ctx_Print; rpcc_DialContext ctx_Print devtConn;
             Target_CreateBrowserContext ctx_Print devtConn;
             Target_CreateTarget ctx_Print devtConn cid;
             rpcc_DialContext ctx_Print newContextConn ];
         deferred := full_teardown cid tid |}.
Proof.
  intros H1 H2 H3 H4 H5.
  unfold resolver_body, mbind, M_bind, perform, defer.
  rewrite H1, H2, H3, H4, H5. reflexivity.
Qed.

Lemma filter_release_work (work rel : list call) :
  Forall (fun c => is_release c = false) work ->
  Forall (fun c => is_release c = true) rel ->
  filter (fun c => is_release c = true) (work ++ rel) = rel.
Proof.
  intros Hw Hr. rewrite filter_app.
  replace (filter (fun c => is_release c = true) work) with (@nil call).
  - simpl. induction Hr as [|c rel Hc _ IH]; [reflexivity|].
    rewrite filter_cons_True by exact Hc. by rewrite IH.
  - induction Hw as [|c work Hc _ IH]; [reflexivity|].
    rewrite filter_cons_False by congruence. exact IH.
Qed.

Lemma elem_of_full_teardown (c : call) (cid tid : string) :
  c ∈ full_teardown cid tid ->
  c = Target_CloseTarget ctx_Background newContextConn tid
  \/ c = Conn_Close newContextConn
  \/ c = Target_DisposeBrowserContext ctx_Background devtConn cid
  \/ c = Conn_Close devtConn.
Proof.
  unfold full_teardown. rewrite !elem_of_cons, elem_of_nil. tauto.
Qed.

(** Every run of [resolver]: work that releases nothing, then the end
    of the full teardown that matches what was acquired. *)
Lemma resolver_shape (b : resolver_calls) :
  exists (work rel : list call) (cid tid : string),
    (resolver b).1 = work ++ rel
    /\ Forall (fun c => is_release c = false) work
    /\ rel `suffix_of` full_teardown cid tid
    /\ (forall c t : string,
        Version b = None -> Dial_devt b = None ->
        CreateBrowserContext b = inr c -> CreateTarget b = inr t ->
        Dial_target b = None -> (resolver b).2 <> Blocked ->
        rel = full_teardown c t).
Proof.
  destruct (Version b) as [e1|] eqn:H1.
  { exists [devtool_Version ctx_Print], [], "", "".
    unfold resolver, run_deferred, resolver_body, mbind, M_bind, perform.
    rewrite H1. simpl. repeat split; [repeat constructor|solve_suffix|intros; discriminate]. }
  destruct (Dial_devt b) as [e2|] eqn:H2.
  { exists [devtool_Version ctx_Print; rpcc_DialContext ctx_Print devtConn], [], "", "".
    unfold resolver, run_deferred, resolver_body, mbind, M_bind, perform.
    rewrite H1, H2. simpl. repeat split; [repeat constructor|solve_suffix|intros; discriminate]. }
  destruct (CreateBrowserContext b) as [e3|cid] eqn:H3.
  { exists [devtool_Version ctx_Print; rpcc_DialContext ctx_Print devtConn;
            Target_CreateBrowserContext ctx_Print devtConn],
           [Conn_Close devtConn], "", "".
    unfold resolver, run_deferred, resolver_body, mbind, M_bind, perform, defer.
    rewrite H1, H2, H3. simpl.
    repeat split; [repeat constructor|solve_suffix|intros; discriminate]. }
  destruct (CreateTarget b) as [e4|tid] eqn:H4.
  { exists [devtool_Version ctx_Print; rpcc_DialContext ctx_Print devtConn;
            Target_CreateBrowserContext ctx_Print devtConn;
            Target_CreateTarget ctx_Print devtConn cid],
           [Target_DisposeBrowserContext ctx_Background devtConn cid;
            Conn_Close devtConn], cid, "".
    unfold resolver, run_deferred, resolver_body, mbind, M_bind, perform, defer.
    rewrite H1, H2, H3, H4. simpl.
    repeat split; [repeat constructor|solve_suffix|intros; discriminate]. }
  destruct (Dial_target b) as [e5|] eqn:H5.
  { exists [devtool_Version ctx_Print; rpcc_DialContext ctx_Print devtConn;
            Target_CreateBrowserContext ctx_Print devtConn;
            Target_CreateTarget ctx_Print devtConn cid;
            rpcc_DialContext ctx_Print newContextConn],
           [Target_DisposeBrowserContext ctx_Background devtConn cid;
            Conn_Close devtConn], cid, tid.
    unfold resolver, run_deferred, resolver_body, mbind, M_bind, perform, defer.
    rewrite H1, H2, H3, H4, H5. simpl.
    repeat split; [repeat constructor|solve_suffix|intros; discriminate]. }
  pose proof (resolver_body_acquired b cid tid H1 H2 H3 H4 H5) as Hbody.
  destruct (quiet_render_phase b
              {| performed :=
                   [ devtool_Version ctx_Print; rpcc_DialContext ctx_Print devtConn;
                     Target_CreateBrowserContext ctx_Print devtConn;
                     Target_CreateTarget ctx_Print devtConn cid;
                     rpcc_DialContext ctx_Print newContextConn ];
                 deferred := full_teardown cid tid |})
    as (Hd & cs & Hp & Hcs).
  rewrite <- Hbody in Hd, Hp. simpl in Hd, Hp.
  unfold resolver, run_deferred.
  destruct (resolver_body b {| performed := []; deferred := [] |}) as [f r].
  simpl in Hd, Hp.
  assert (Forall (fun c => is_release c = false) (performed f)) as Hwork.
  { rewrite Hp. repeat (constructor; [reflexivity|]). exact Hcs. }
  destruct r as [[]|[|r]]; simpl.
  - exists (performed f), (deferred f), cid, tid. rewrite Hd.
    repeat split; [exact Hwork|solve_suffix|]. intros c t _ _ [= ->] [= ->] _ _. reflexivity.
  - exists (performed f), [], cid, tid. rewrite app_nil_r.
    repeat split; [exact Hwork|solve_suffix|]. intros c t _ _ _ _ _ Hb. by destruct Hb.
  - exists (performed f), (deferred f), cid, tid. rewrite Hd.
    repeat split; [exact Hwork|solve_suffix|]. intros c t _ _ [= ->] [= ->] _ _. reflexivity.
Qed.
End Teardown.

(** C2 (as amended).  In every run of [resolver] the calls
    [CloseTarget] and [DisposeBrowserContext] are given
    [context.Background()]; the release calls run as a tail of the list
    [CloseTarget(targetId)], close of the connection to the target,
    [DisposeBrowserContext(contextId)], close of the first connection;
    and once the context, the target and its connection are acquired, a
    run that returns, with or without an error, ends with exactly that
    list. *)
Theorem teardown_runs_last_registered_first (b : resolver_calls) :
  (forall ctx via id,
      Target_CloseTarget ctx via id ∈ (resolver b).1 -> ctx = ctx_Background)
  /\ (forall ctx via id,
      Target_DisposeBrowserContext ctx via id ∈ (resolver b).1 -> ctx = ctx_Background)
  /\ (exists cid tid, teardown b `suffix_of` full_teardown cid tid)
  /\ (forall cid tid,
      Version b = None -> Dial_devt b = None ->
      CreateBrowserContext b = inr cid -> CreateTarget b = inr tid ->
      Dial_target b = None -> (resolver b).2 <> Blocked ->
      teardown b = full_teardown cid tid
      /\ exists work, (resolver b).1 = work ++ full_teardown cid tid
                      /\ Forall (fun c => is_release c = false) work).
Proof.
  destruct (resolver_shape b) as (work & rel & cid & tid & Hrun & Hwork & Hsuf & Hfull).
  assert (Forall (fun c => is_release c = true) rel) as Hrel.
  { destruct Hsuf as [k Hk]. apply Forall_forall. intros c Hc.
    assert (c ∈ full_teardown cid tid) as Hin by (rewrite Hk; set_solver).
    apply elem_of_full_teardown in Hin.
    destruct Hin as [-> | [-> | [-> | ->]]]; reflexivity. }
  assert (forall c, is_release c = true -> c ∈ (resolver b).1 ->
            c ∈ full_teardown cid tid) as Hmem.
  { intros c Hc Hin. rewrite Hrun in Hin. apply elem_of_app in Hin as [Hin|Hin].
    - rewrite Forall_forall in Hwork. specialize (Hwork c Hin). congruence.
    - destruct Hsuf as [k ->]. set_solver. }
  assert (teardown b = rel) as Htd.
  { unfold teardown. rewrite Hrun. by apply filter_release_work. }
  split; [|split; [|split]].
  - intros ctx via id Hin. apply Hmem in Hin; [|reflexivity].
    apply elem_of_full_teardown in Hin.
    destruct Hin as [Hin|[Hin|[Hin|Hin]]]; congruence.
  - intros ctx via id Hin. apply Hmem in Hin; [|reflexivity].
    apply elem_of_full_teardown in Hin.
    destruct Hin as [Hin|[Hin|[Hin|Hin]]]; congruence.
  - exists cid, tid. by rewrite Htd.
  - intros c t H1 H2 H3 H4 H5 Hret.
    specialize (Hfull c t H1 H2 H3 H4 H5 Hret). subst rel.
    split; [exact Htd|]. by exists work.
Qed.

Lemma teardown_runs_last_registered_first_witness :
  teardown sample_calls_deadline
  = [ Target_CloseTarget ctx_Background newContextConn "T1";
      Conn_Close newContextConn;
      Target_DisposeBrowserContext ctx_Background devtConn "C1";
      Conn_Close devtConn ].
Proof.
  destruct (teardown_runs_last_registered_first sample_calls_deadline)
    as (_ & _ & _ & Hfull).
  exact (proj1 (Hfull "C1" "T1" eq_refl eq_refl eq_refl eq_refl eq_refl
                  ltac:(vm_compute; discriminate))).
Defined.

(** C2, the claim as stated fails: the first release call is
    [CloseTarget], sent on the connection to the target, which is closed
    after it. *)
Lemma CloseTarget_precedes_connection_close :
  teardown sample_calls
  = [ Target_CloseTarget ctx_Background newContextConn "T1";
      Conn_Close newContextConn;
      Target_DisposeBrowserContext ctx_Background devtConn "C1";
      Conn_Close devtConn ]
  /\ head (teardown sample_calls) <> Some (Conn_Close newContextConn).
Proof. split; [vm_compute; reflexivity|vm_compute; discriminate]. Qed.

(** ** The closure [printer] *)

Section Printer.
Context `{XerrorText}.

Lemma write_at_start (old bytes : list Byte.byte) :
  write_at old 0 bytes = bytes ++ drop (length bytes) old.
Proof. reflexivity. Qed.

(** [OpenFile] at the flags of [printer]: an existing file is left as
    it is, a missing one is created empty. *)
Lemma OpenFile_printer (mask : Z) (name : string) (fs : gmap string File) :
  OpenFile mask None name (Z.lor O_CREATE O_WRONLY) 384 fs
  = (match fs !! name with
     | Some _ => fs
     | None => <[name := {| mode := Z.land 384 (Z.lnot mask); data := [] |}]> fs
     end,
     inr {| h_name := name; h_flag := Z.lor O_CREATE O_WRONLY; h_offset := 0 |}).
Proof. unfold OpenFile. destruct (fs !! name); reflexivity. Qed.

Lemma file_write_printer (name : string) (bytes : list Byte.byte)
    (fs : gmap string File) (f : File) :
  fs !! name = Some f ->
  file_write {| h_name := name; h_flag := Z.lor O_CREATE O_WRONLY; h_offset := 0 |}
    bytes fs
  = <[name := {| mode := mode f; data := bytes ++ drop (length bytes) (data f) |}]> fs.
Proof. intros Hf. unfold file_write. simpl. rewrite Hf. reflexivity. Qed.

Lemma printer_success (opts : ChromePrinterOptions) (destination : string)
    (c : printer_calls) (fs fs' : gmap string File) :
  printer opts destination c fs = (fs', None) ->
  exists s, PrintToPDF c = inr s /\ stream_error s = None
            /\ fs' = <[destination := written (umask c) (fs !! destination)
                                        (stream_bytes s)]> fs.
Proof.
  unfold printer. destruct (PrintToPDF c) as [err|s].
  { repeat case_match; intros [= ]. }
  destruct (open_refused c) as [e|] eqn:Ho.
  { unfold OpenFile. intros [= ]. }
  rewrite OpenFile_printer.
  set (fs1 := match fs !! destination with Some _ => fs | None => _ end).
  set (h := {| h_name := destination |}).
  assert (forall bytes, file_write h bytes fs1
            = <[destination := written (umask c) (fs !! destination) bytes]> fs) as Hw.
  { intros bytes. subst fs1 h. destruct (fs !! destination) as [f|] eqn:Hf.
    - by rewrite (file_write_printer _ _ _ f).
    - rewrite (file_write_printer _ _ _ {| mode := Z.land 384 (Z.lnot (umask c));
                                           data := [] |})
        by apply lookup_insert_eq.
      simpl. rewrite drop_nil, app_nil_r. apply insert_insert_eq. }
  unfold WriteTo. destruct (disk c) as [[n e]|].
  - case_bool_decide.
    + intros [= ].
    + rewrite Hw. destruct (stream_error s) eqn:Hs; [intros [= ]|].
      destruct (file_Close c); intros [= <-]. by exists s.
  - rewrite Hw. destruct (stream_error s) eqn:Hs; [intros [= ]|].
    destruct (file_Close c); intros [= <-]. by exists s.
Qed.
End Printer.

(** What a successful run of [printer] leaves.  [printer] opens the
    destination write-only, creating it with permission bits 0600 (less
    the mask of the process) when it is missing, with no [O_TRUNC] among
    its flags, and writes the stream from the start of the file.  A file
    that was missing, or that held no more bytes than the stream, holds
    exactly the bytes of the stream afterwards; a longer file still has
    its bytes past the length of the stream; an existing file keeps its
    permission bits.  No other file changes. *)
Theorem printer_writes_stream_from_start `{XerrorText}
    (opts : ChromePrinterOptions) (destination : string) (c : printer_calls)
    (fs fs' : gmap string File) :
  printer opts destination c fs = (fs', None) ->
  exists s,
    PrintToPDF c = inr s /\ stream_error s = None
    /\ has_flag (Z.lor O_CREATE O_WRONLY) O_CREATE = true
    /\ has_flag (Z.lor O_CREATE O_WRONLY) O_WRONLY = true
    /\ has_flag (Z.lor O_CREATE O_WRONLY) O_TRUNC = false
    /\ 384 = 6 * 8 * 8
    /\ (fs !! destination = None ->
        fs' !! destination
        = Some {| mode := Z.land 384 (Z.lnot (umask c)); data := stream_bytes s |})
    /\ (forall f, fs !! destination = Some f ->
        fs' !! destination
        = Some {| mode := mode f;
                  data := stream_bytes s ++ drop (length (stream_bytes s)) (data f) |})
    /\ (forall f, fs !! destination = Some f ->
        (length (data f) <= length (stream_bytes s))%nat ->
        fs' !! destination = Some {| mode := mode f; data := stream_bytes s |})
    /\ (forall other, other <> destination -> fs' !! other = fs !! other).
Proof.
  intros Hrun. destruct (printer_success _ _ _ _ _ Hrun) as (s & Hs & Herr & ->).
  exists s. repeat split; try (exact Hs || exact Herr).
  - intros Hnone. rewrite lookup_insert_eq, Hnone. reflexivity.
  - intros f Hf. rewrite lookup_insert_eq, Hf. reflexivity.
  - intros f Hf Hlen. rewrite lookup_insert_eq, Hf. simpl.
    rewrite drop_ge by exact Hlen. by rewrite app_nil_r.
  - intros other Hne. by rewrite lookup_insert_ne.
Qed.

Lemma printer_writes_stream_from_start_witness :
  (@printer sample_xerror sample_opts "new.pdf"
     (sample_print (inr {| stream_bytes := sample_pdf; stream_error := None |}))
     sample_fs).1 !! "new.pdf"
  = Some {| mode := 384; data := sample_pdf |}.
Proof.
  destruct (@printer_writes_stream_from_start sample_xerror sample_opts "new.pdf"
              (sample_print (inr {| stream_bytes := sample_pdf; stream_error := None |}))
              sample_fs
              (@printer sample_xerror sample_opts "new.pdf"
                 (sample_print (inr {| stream_bytes := sample_pdf;
                                       stream_error := None |}))
                 sample_fs).1
              ltac:(vm_compute; reflexivity))
    as (s & Hs & _ & _ & _ & _ & _ & Hnew & _).
  injection Hs as <-. exact (Hnew ltac:(vm_compute; reflexivity)).
Defined.

(** C3.  The claim has the content of the destination equal to the
    bytes of the stream after a successful run, what was there before
    being fully replaced.  The code misses this for a longer file that
    exists: it opens the file without [O_TRUNC], so a destination of
    nine bytes printed with a stream of four bytes ends, with [printer]
    returning nil, as the four bytes of the stream followed by the last
    five bytes it held before. *)
Lemma printer_does_not_truncate :
  @printer sample_xerror sample_opts "out.pdf"
    (sample_print (inr {| stream_bytes := sample_pdf; stream_error := None |}))
    sample_fs
  = ({[ "out.pdf" := {| mode := 420;
                        data := sample_pdf ++ [Byte.x4c; Byte.x44; Byte.x4f; Byte.x4c;
                                               Byte.x44] |} ]},
     None)
  /\ sample_pdf ++ [Byte.x4c; Byte.x44; Byte.x4f; Byte.x4c; Byte.x44] <> sample_pdf.
Proof. split; [vm_compute; reflexivity|discriminate]. Qed.

(** C8 (as amended).  When [PrintToPDF] fails, [printer] leaves the file
    system alone and returns: for a text with ["Page range syntax error"],
    the [xerror.Invalid] error that names the configured page ranges;
    otherwise, for a text with ["rpcc: message too large"], the
    [xerror.Invalid] error that carries the configured buffer size and the
    advice to go up to 100 MB; otherwise the error itself.  Both
    translations keep the error as their cause. *)
Theorem PrintToPDF_error_translation `{XerrorText}
    (opts : ChromePrinterOptions) (destination : string) (c : printer_calls)
    (fs : gmap string File) (err : error) :
  PrintToPDF c = inl err ->
  (Contains (Error err) "Page range syntax error" = true ->
   printer opts destination c fs
   = (fs, Some (XInvalid op_Print
                  ("'" +:+ PageRanges opts +:+ "' is not a valid Google Chrome page ranges")
                  (Some err))))
  /\ (Contains (Error err) "Page range syntax error" = false ->
      Contains (Error err) "rpcc: message too large" = true ->
      printer opts destination c fs
      = (fs, Some (XInvalid op_Print (buffer_size_message opts) (Some err))))
  /\ (Contains (Error err) "Page range syntax error" = false ->
      Contains (Error err) "rpcc: message too large" = false ->
      printer opts destination c fs = (fs, Some err))
  /\ Contains (buffer_size_message opts) (pretty (RpccBufferSize opts)) = true
  /\ Contains (buffer_size_message opts) "(up to 100 MB)" = true.
Proof.
  intros Hc. unfold printer. rewrite Hc. repeat split.
  - intros ->. reflexivity.
  - intros -> ->. reflexivity.
  - intros -> ->. reflexivity.
  - unfold buffer_size_message. apply Contains_intro.
  - unfold buffer_size_message. apply Contains_spec.
    exists ("'" +:+ pretty (RpccBufferSize opts)
              +:+ "' bytes are not enough: increase the Google Chrome rpcc buffer size "),
           "".
    rewrite !append_assoc. reflexivity.
Qed.

Lemma PrintToPDF_error_translation_witness :
  @printer sample_xerror sample_opts "out.pdf"
    (sample_print (inl (Foreign "rpcc: message too large"))) sample_fs
  = (sample_fs,
     Some (XInvalid op_Print
             "'1048576' bytes are not enough: increase the Google Chrome rpcc buffer size (up to 100 MB)"
             (Some (Foreign "rpcc: message too large")))).
Proof.
  destruct (@PrintToPDF_error_translation sample_xerror sample_opts "out.pdf"
              (sample_print (inl (Foreign "rpcc: message too large"))) sample_fs
              (Foreign "rpcc: message too large") eq_refl)
    as (_ & Hbuf & _).
  exact (Hbuf ltac:(vm_compute; reflexivity) ltac:(vm_compute; reflexivity)).
Defined.

(** C8, the claim as stated fails: an error whose text has
    ["message too large"] without the prefix of rpcc is returned as it
    is. *)
Lemma message_too_large_needs_rpcc_prefix :
  Contains (@Error sample_xerror (Foreign "message too large")) "message too large" = true
  /\ @printer sample_xerror sample_opts "out.pdf"
       (sample_print (inl (Foreign "message too large"))) sample_fs
     = (sample_fs, Some (Foreign "message too large")).
Proof. split; vm_compute; reflexivity. Qed.

(** ** Benign errors in the listeners and in [waiter] *)

Section Benign.
Context `{XerrorText}.
Implicit Types (err : error) (st : shared).

Lemma on_recv_error_closing err :
  Contains (Error err) stream_closing = true -> on_recv_error err = Returned None.
Proof. unfold on_recv_error. intros ->. reflexivity. Qed.

Lemma on_wait_error_canceled err :
  Contains (Error err) context_canceled = true -> on_wait_error err = Returned None.
Proof. unfold on_wait_error. intros ->. reflexivity. Qed.

Lemma consoleListener_closing (evs : list string) err rest st :
  consoleListener ((Event <$> evs) ++ RecvError err :: rest) st
  = (st, on_recv_error err).
Proof. induction evs as [|ev evs IH]; [reflexivity|exact IH]. Qed.

Lemma requestWillBeSentListener_closing (evs : list RequestWillBeSentReply) err rest st :
  requestWillBeSentListener ((Event <$> evs) ++ RecvError err :: rest) st
  = (turns (RequestWillBeSent <$> evs) st, on_recv_error err).
Proof.
  revert st. induction evs as [|ev evs IH]; intros st; [reflexivity|].
  simpl. rewrite IH. reflexivity.
Qed.

Lemma responseReceivedListener_closing (evs : list ResponseReceivedReply) err rest st :
  responseReceivedListener ((Event <$> evs) ++ RecvError err :: rest) st
  = (turns (ResponseReceived <$> evs) st, on_recv_error err).
Proof.
  revert st. induction evs as [|ev evs IH]; intros st; [reflexivity|].
  simpl. rewrite IH. reflexivity.
Qed.

Lemma loadingFailedListener_closing (evs : list LoadingFailedReply) err rest st :
  loadingFailedListener ((Event <$> evs) ++ RecvError err :: rest) st
  = (turns (LoadingFailed <$> evs) st, on_recv_error err).
Proof.
  revert st. induction evs as [|ev evs IH]; intros st; [reflexivity|].
  simpl. rewrite IH. reflexivity.
Qed.

Lemma first_error_elem (rs : list outcome) (e : error) :
  first_error rs = Some e -> Returned (Some e) ∈ rs.
Proof.
  induction rs as [|r rs IH]; [discriminate|].
  destruct r as [|[e'|]]; simpl.
  - intros Hr. right. by apply IH.
  - intros [= ->]. left.
  - intros Hr. right. by apply IH.
Qed.

(** The error of a batch is the error of one of its functions. *)
Lemma runBatch_error (order : list nat) (fn : list outcome) (e : error) :
  runBatch order fn = Returned (Some e) -> Returned (Some e) ∈ fn.
Proof.
  unfold runBatch. case_match; [|discriminate]. intros [= He].
  apply first_error_elem in He. apply list_elem_of_omap in He as (i & _ & Hi).
  by apply list_elem_of_lookup_2 in Hi.
Qed.
End Benign.

(** C7 (as amended).  An error of [Recv] whose text contains
    ["rpcc: the stream is closing"] makes each of the six event listeners
    return nil; an error of [listenEvents] or of the wait on the JS
    status whose text contains ["context canceled"] makes [waiter] return
    nil; and the error of a batch is always the error of one of its
    functions, so these returns never reach the caller. *)
Theorem benign_errors_return_nil `{XerrorText} (err : error) :
  (Contains (Error err) "rpcc: the stream is closing" = true ->
   forall st : shared,
     (forall rest, crashListener (RecvError err :: rest) st = (st, Returned None))
     /\ (forall rest, exceptionListener (RecvError err :: rest) st = (st, Returned None))
     /\ (forall evs rest,
          consoleListener ((Event <$> evs) ++ RecvError err :: rest) st
          = (st, Returned None))
     /\ (forall evs rest,
          requestWillBeSentListener ((Event <$> evs) ++ RecvError err :: rest) st
          = (turns (RequestWillBeSent <$> evs) st, Returned None))
     /\ (forall evs rest,
          responseReceivedListener ((Event <$> evs) ++ RecvError err :: rest) st
          = (turns (ResponseReceived <$> evs) st, Returned None))
     /\ (forall evs rest,
          loadingFailedListener ((Event <$> evs) ++ RecvError err :: rest) st
          = (turns (LoadingFailed <$> evs) st, Returned None)))
  /\ (Contains (Error err) "context canceled" = true ->
      forall (opts : ChromePrinterOptions) (c : listen_calls) (wait : outcome),
        (listenEvents c = Returned (Some err) -> waiter opts c wait = Returned None)
        /\ (listenEvents c = Returned None -> WaitJSRenderStatus opts <> "" ->
            waiter opts c (Returned (Some err)) = Returned None))
  /\ (forall (order : list nat) (fn : list outcome) (e : error),
        runBatch order fn = Returned (Some e) -> Returned (Some e) ∈ fn).
Proof.
  split; [|split].
  - intros Hc st. pose proof (on_recv_error_closing err Hc) as Hnil.
    repeat split; intros.
    + simpl. by rewrite Hnil.
    + simpl. by rewrite Hnil.
    + by rewrite consoleListener_closing, Hnil.
    + by rewrite requestWillBeSentListener_closing, Hnil.
    + by rewrite responseReceivedListener_closing, Hnil.
    + by rewrite loadingFailedListener_closing, Hnil.
  - intros Hc opts c wait. pose proof (on_wait_error_canceled err Hc) as Hnil.
    split.
    + intros Hl. unfold waiter. by rewrite Hl.
    + intros Hl Hjs. unfold waiter. rewrite Hl.
      apply String.eqb_neq in Hjs. rewrite Hjs. simpl. exact Hnil.
  - intros order fn e. apply runBatch_error.
Qed.

Lemma benign_errors_return_nil_witness :
  @crashListener sample_xerror [RecvError (Foreign "rpcc: the stream is closing")]
    shared_init
  = (shared_init, Returned None)
  /\ @waiter sample_xerror sample_opts sample_listen
       (Returned (Some (Foreign "context canceled")))
     = Returned None.
Proof.
  split.
  - destruct (@benign_errors_return_nil sample_xerror
                (Foreign "rpcc: the stream is closing")) as (Hclose & _).
    exact (proj1 (Hclose ltac:(vm_compute; reflexivity) shared_init) []).
  - destruct (@benign_errors_return_nil sample_xerror (Foreign "context canceled"))
      as (_ & Hcancel & _).
    exact (proj2 (Hcancel ltac:(vm_compute; reflexivity) sample_opts sample_listen Blocked)
             ltac:(vm_compute; reflexivity) ltac:(vm_compute; discriminate)).
Defined.

(** C7, the claim as stated fails: texts with ["context cancelled"] or
    with ["stream is closing"] alone are not among the texts the code
    looks for, and such errors are returned. *)
Lemma other_spellings_are_returned :
  Contains (@Error sample_xerror (Foreign "context cancelled")) "context cancelled" = true
  /\ @waiter sample_xerror sample_opts sample_listen
       (Returned (Some (Foreign "context cancelled")))
     = Returned (Some (Foreign "context cancelled"))
  /\ Contains (@Error sample_xerror (Foreign "the stream is closing")) "stream is closing"
     = true
  /\ @crashListener sample_xerror [RecvError (Foreign "the stream is closing")] shared_init
     = (shared_init, Returned (Some (Foreign "the stream is closing"))).
Proof. repeat split; vm_compute; reflexivity. Qed.

(** ** The readiness gates of [listenEvents] *)

Section Readiness.
Implicit Types (c : listen_calls) (fn : list outcome) (order : list nat).

Lemma first_error_None (rs : list outcome) :
  first_error rs = None <-> forall e, Returned (Some e) ∉ rs.
Proof.
  induction rs as [|r rs IH].
  - split; [intros _ e He; by apply elem_of_nil in He|reflexivity].
  - destruct r as [|[e'|]]; simpl.
    + rewrite IH. split; intros Hn e He.
      * apply elem_of_cons in He as [?|He]; [discriminate|]. by apply (Hn e).
      * apply (Hn e). by right.
    + split; [discriminate|]. intros Hn. destruct (Hn e'). left.
    + rewrite IH. split; intros Hn e He.
      * apply elem_of_cons in He as [?|He]; [discriminate|]. by apply (Hn e).
      * apply (Hn e). by right.
Qed.

(** A batch returns nil exactly when every function has returned nil. *)
Lemma runBatch_nil order fn :
  runBatch order fn = Returned None
  <-> Forall (fun o => o = Returned None) fn
      /\ forall i, (i < length fn)%nat -> i ∈ order.
Proof.
  unfold runBatch. split.
  - destruct (forallb is_returned fn) eqn:Hret; [|discriminate].
    destruct (forallb _ (seq 0 (length fn))) eqn:Hall; [|discriminate].
    simpl. intros [= Hfirst].
    assert (forall i, (i < length fn)%nat -> i ∈ order) as Hin.
    { intros i Hi. rewrite forallb_forall in Hall.
      specialize (Hall i). rewrite bool_decide_eq_true in Hall.
      apply Hall, in_seq. lia. }
    split; [|exact Hin].
    apply Forall_forall. intros o Ho.
    rewrite forallb_forall in Hret. pose proof (Hret o) as Hr.
    rewrite <- list_elem_of_In in Hr. specialize (Hr Ho).
    destruct o as [|[e|]]; [discriminate| |reflexivity].
    exfalso. apply (proj1 (first_error_None _) Hfirst e).
    apply list_elem_of_lookup_1 in Ho as [i Hi].
    apply list_elem_of_omap. exists i. split; [|exact Hi].
    apply Hin. by apply lookup_lt_Some in Hi.
  - intros [Hnil Hin].
    replace (forallb is_returned fn) with true.
    + replace (forallb _ (seq 0 (length fn))) with true.
      * simpl. f_equal. apply first_error_None. intros e He.
        apply list_elem_of_omap in He as (i & _ & Hi).
        apply list_elem_of_lookup_2 in Hi.
        rewrite Forall_forall in Hnil. by specialize (Hnil _ Hi).
      * symmetry. apply forallb_forall. intros i Hi. apply bool_decide_eq_true.
        apply Hin. apply in_seq in Hi. lia.
    + symmetry. apply forallb_forall. intros o Ho. apply list_elem_of_In in Ho.
      rewrite Forall_forall in Hnil. by rewrite (Hnil o Ho).
Qed.

Lemma recv_one_nil (s : list (recv unit)) :
  (recv_one s).2 = Returned None <-> exists rest, s = Event tt :: rest.
Proof.
  split.
  - destruct s as [|[[]|e] rest]; simpl; try discriminate. intros _. by exists rest.
  - intros [rest ->]. reflexivity.
Qed.

(** The lifecycle gate reads on past every other name and stops at the
    first ["networkIdle"]. *)
Lemma wait_lifecycleEvent_skips (others : list string) (rest : list (recv string)) :
  Forall (fun name => name <> networkIdleEventName) others ->
  wait_lifecycleEvent ((Event <$> others) ++ rest) = wait_lifecycleEvent rest.
Proof.
  induction 1 as [|name others Hname _ IH]; [reflexivity|].
  simpl. apply String.eqb_neq in Hname. rewrite Hname. exact IH.
Qed.

Lemma wait_lifecycleEvent_nil (s : list (recv string)) :
  (wait_lifecycleEvent s).2 = Returned None
  <-> exists others rest,
        s = (Event <$> others) ++ Event networkIdleEventName :: rest
        /\ Forall (fun name => name <> networkIdleEventName) others.
Proof.
  split.
  - induction s as [|[name|e] s IH]; simpl; try discriminate.
    destruct (String.eqb_spec name networkIdleEventName) as [->|Hne].
    + intros _. exists [], s. split; [reflexivity|constructor].
    + intros Hs. destruct (IH Hs) as (others & rest & -> & Hall).
      exists (name :: others), rest. split; [reflexivity|by constructor].
  - intros (others & rest & -> & Hall).
    rewrite wait_lifecycleEvent_skips by exact Hall.
    reflexivity.
Qed.
End Readiness.

(** C5.  [listenEvents] returns nil exactly when its calls succeed and
    each of the four gates, run side by side, has seen its signal and
    returned: one [domContentEventFired], one [loadEventFired], a
    [lifecycleEvent] named ["networkIdle"] and one [loadingFinished].
    Each gate stops reading at its signal; the lifecycle gate reads past
    every event of another name, and a run of such events alone leaves it
    waiting. *)
Theorem readiness_waits_for_four_signals (c : listen_calls) :
  (listenEvents c = Returned None <->
     Page_Enable c = None /\ Network_Enable c = None /\ Page_Navigate c = None
     /\ (exists rest, Page_DOMContentEventFired c = inr (Event tt :: rest))
     /\ (exists rest, Page_LoadEventFired c = inr (Event tt :: rest))
     /\ (exists others rest,
           Page_LifecycleEvent c
           = inr ((Event <$> others) ++ Event "networkIdle" :: rest)
           /\ Forall (fun name => name <> "networkIdle") others)
     /\ (exists rest, Network_LoadingFinished c = inr (Event tt :: rest))
     /\ (forall i, (i < 4)%nat -> i ∈ finished c))
  /\ (forall rest, wait_domContentEventFired (Event tt :: rest) = (rest, Returned None))
  /\ (forall rest, wait_loadEventFired (Event tt :: rest) = (rest, Returned None))
  /\ (forall rest, wait_loadingFinished (Event tt :: rest) = (rest, Returned None))
  /\ (forall others rest,
        Forall (fun name => name <> "networkIdle") others ->
        wait_lifecycleEvent ((Event <$> others) ++ Event "networkIdle" :: rest)
        = (rest, Returned None)
        /\ wait_lifecycleEvent (Event <$> others) = ([], Blocked)).
Proof.
  split; [|repeat split; try reflexivity].
  - unfold listenEvents, listenEvents_resolver. split.
    + destruct (Page_Enable c); [discriminate|].
      destruct (Network_Enable c); [discriminate|].
      destruct (Page_DOMContentEventFired c) as [|dom]; [discriminate|].
      destruct (Page_LoadEventFired c) as [|load]; [discriminate|].
      destruct (Page_LifecycleEvent c) as [|life]; [discriminate|].
      destruct (Network_LoadingFinished c) as [|fin]; [discriminate|].
      destruct (Page_Navigate c); [discriminate|].
      destruct (runBatch _ _) as [|[e|]] eqn:Hb; try discriminate. intros _.
      apply runBatch_nil in Hb as [Hall Hin].
      rewrite !Forall_cons in Hall. destruct Hall as (Hd & Hl & Hn & Hf & _).
      apply recv_one_nil in Hd as [rd ->]. apply recv_one_nil in Hl as [rl ->].
      apply recv_one_nil in Hf as [rf ->].
      apply wait_lifecycleEvent_nil in Hn as (others & rn & -> & Hothers).
      repeat split; eauto.
    + intros (-> & -> & -> & [rd ->] & [rl ->] & (others & rn & -> & Hothers)
              & [rf ->] & Hin).
      replace (runBatch _ _) with (Returned None); [reflexivity|].
      symmetry. apply runBatch_nil. split; [|exact Hin].
      rewrite !Forall_cons. repeat split; try reflexivity; try apply Forall_nil; trivial.
      apply wait_lifecycleEvent_nil. by exists others, rn.
  - rewrite (wait_lifecycleEvent_skips others (Event "networkIdle" :: rest)) by assumption.
    reflexivity.
  - rewrite <- (app_nil_r (Event <$> others)).
    rewrite wait_lifecycleEvent_skips by assumption. reflexivity.
Qed.

Lemma readiness_waits_for_four_signals_witness :
  listenEvents sample_listen = Returned None
  /\ wait_lifecycleEvent [Event "init"; Event "load"; Event "networkIdle"; Event "late"]
     = ([Event "late"], Returned None).
Proof.
  destruct (readiness_waits_for_four_signals sample_listen) as (Hiff & _ & _ & _ & Hlife).
  split.
  - apply Hiff. repeat split; try reflexivity.
    + by exists [].
    + by exists [].
    + exists ["init"; "load"], []. split; [reflexivity|].
      repeat constructor; discriminate.
    + by exists [].
    + intros i Hi. simpl.
      destruct i as [|[|[|[|i]]]]; [repeat constructor..|lia].
  - exact (proj1 (Hlife ["init"; "load"] [Event "late"]
                    ltac:(repeat constructor; discriminate))).
Defined.

(** ** [poll] and [Wait] *)

Section Poll.
Variable fn : nat -> bool * option error.
Variable ctx_done : nat -> option error.

Lemma poll_loop_goes_on (n fuel i : nat) :
  (forall j, (i <= j < i + n)%nat -> goes_on fn ctx_done j) ->
  poll_loop (n + fuel) fn ctx_done i
  = match poll_loop fuel fn ctx_done (i + n) with
    | Some (steps, r) => Some (poll_turns i n ++ steps, r)
    | None => None
    end.
Proof.
  revert i. induction n as [|n IH]; intros i Hgo.
  - simpl. rewrite Nat.add_0_r. by destruct (poll_loop fuel fn ctx_done i) as [[]|].
  - destruct (Hgo i ltac:(lia)) as [Hfn Hctx].
    simpl poll_loop. rewrite Hfn, Hctx.
    rewrite IH by (intros j Hj; apply Hgo; lia).
    replace (S i + n)%nat with (i + S n)%nat by lia.
    destruct (poll_loop fuel fn ctx_done (i + S n)) as [[steps r]|]; reflexivity.
Qed.

(** [poll] after [n] turns that go on, with a turn left to run. *)
Lemma poll_after (stopped : bool) (n fuel : nat) :
  (forall j, (j < n)%nat -> goes_on fn ctx_done j) -> (n < fuel)%nat ->
  poll fuel stopped fn ctx_done
  = match poll_loop (fuel - n) fn ctx_done n with
    | Some (steps, r) => Some (poll_arm stopped ++ poll_turns 0 n ++ steps, r)
    | None => None
    end.
Proof.
  intros Hgo Hfuel. unfold poll.
  replace fuel with (n + (fuel - n))%nat at 1 by lia.
  rewrite poll_loop_goes_on by (intros j Hj; apply Hgo; lia).
  simpl. destruct (poll_loop (fuel - n) fn ctx_done n) as [[steps r]|]; reflexivity.
Qed.
End Poll.

(** C6.  [poll] arms a timer of one second, stops it (and drains its
    channel when the stop came late), and then calls the function before
    any wait.  After each call that says no it resets the timer to 100 ms
    and waits for it or for the context.  It returns nil at the first
    call that says yes, the error of the function at the first call that
    fails, and the error of the context when the context ends a wait.
    [Wait] is [poll] at the function that evaluates the expression. *)
Theorem poll_samples_first_then_every_100ms `{JsonBool}
    (fn : nat -> bool * option error) (ctx_done : nat -> option error)
    (stopped : bool) (n fuel : nat) :
  (forall j, (j < n)%nat -> goes_on fn ctx_done j) -> (n < fuel)%nat ->
  poll_arm stopped
  = NewTimer 1000000000 :: TimerStop stopped :: (if stopped then [] else [DrainTimer])
  /\ poll_turns 0 n
     = flat_map (fun j => [CallFn j; TimerReset 100000000; TimerFired]) (seq 0 n)
  /\ (fn n = (true, None) ->
      poll fuel stopped fn ctx_done
      = Some (poll_arm stopped ++ poll_turns 0 n ++ [CallFn n], None))
  /\ (forall b err, fn n = (b, Some err) ->
      poll fuel stopped fn ctx_done
      = Some (poll_arm stopped ++ poll_turns 0 n ++ [CallFn n], Some err))
  /\ (forall err, fn n = (false, None) -> ctx_done n = Some err ->
      poll fuel stopped fn ctx_done
      = Some (poll_arm stopped ++ poll_turns 0 n
                ++ [CallFn n; TimerReset 100000000; CtxDone], Some err))
  /\ (forall replies : nat -> error + EvaluateReply,
      Wait fuel stopped replies ctx_done
      = poll fuel stopped (fun i => Wait_fn (replies i)) ctx_done)
  /\ (forall err, Wait_fn (inl err) = (false, Some err))
  /\ (forall details value,
      Wait_fn (inr {| ExceptionDetails := Some details; Result_Value := value |})
      = (false, Some details)).
Proof.
  intros Hgo Hfuel.
  pose proof (poll_after fn ctx_done stopped n fuel Hgo Hfuel) as Hpoll.
  destruct (fuel - n)%nat as [|rest] eqn:Hrest; [lia|]. simpl poll_loop in Hpoll.
  repeat split.
  - intros Hfn. rewrite Hpoll, Hfn. reflexivity.
  - intros b err Hfn. rewrite Hpoll, Hfn. by destruct b.
  - intros err Hfn Hctx. rewrite Hpoll, Hfn, Hctx. reflexivity.
Qed.

Lemma poll_samples_first_then_every_100ms_witness :
  @Wait sample_json 10 true sample_replies (fun _ => None)
  = Some ([ NewTimer 1000000000; TimerStop true;
            CallFn 0; TimerReset 100000000; TimerFired;
            CallFn 1; TimerReset 100000000; TimerFired;
            CallFn 2; TimerReset 100000000; TimerFired;
            CallFn 3; TimerReset 100000000; TimerFired;
            CallFn 4; TimerReset 100000000; TimerFired;
            CallFn 5 ], None).
Proof.
  destruct (@poll_samples_first_then_every_100ms sample_json
              (fun i => @Wait_fn sample_json (sample_replies i)) (fun _ => None)
              true 5 10)
    as (_ & _ & Hyes & _ & _ & Hwait & _).
  - intros j Hj. split; [|reflexivity].
    destruct j as [|[|[|[|[|j]]]]]; [reflexivity..|lia].
  - lia.
  - rewrite Hwait. exact (Hyes eq_refl).
Defined.

(** ** Admission in [Print] *)

Section Admission.
Context {World : Type}.
Variable run_resolver : globals -> World -> World * outcome.
Variable MustHandleError : option error -> error -> error.
Implicit Types (opts : ChromePrinterOptions) (e : print_env) (g : globals) (w : World).
Implicit Types (mo : moment) (later : list moment).

Lemma wrap64_small (z : Z) : - 2 ^ 63 <= z < 2 ^ 63 -> wrap64 z = z.
Proof. intros Hz. unfold wrap64. rewrite Z.mod_small; lia. Qed.

(** Counting up, and down again, below the largest [int64]. *)
Lemma increment_below g :
  below_max g ->
  increment g = {| devtConnections := devtConnections g + 1; lockChrome := lockChrome g |}.
Proof.
  intros Hg. unfold increment. rewrite wrap64_small; [reflexivity|].
  unfold below_max in Hg. lia.
Qed.

Lemma decrement_up (a : Z) (l : nat) :
  - 2 ^ 63 <= a < 2 ^ 63 - 1 ->
  decrement {| devtConnections := a + 1; lockChrome := l |}
  = {| devtConnections := a; lockChrome := l |}.
Proof.
  intros Ha. unfold decrement. simpl.
  replace (a + 1 - 1) with a by lia. by rewrite wrap64_small by lia.
Qed.

(** [counted] on a run below the largest [int64]. *)
Lemma counted_below (r : run) :
  below_max r.1.1 ->
  let up := {| devtConnections := devtConnections r.1.1 + 1;
               lockChrome := lockChrome r.1.1 |} in
  counted run_resolver r
  = match run_resolver up r.1.2 with
    | (w', Returned err) =>
        ((r.1.1, w', r.2 ++ [(Increment, up); (Resolve, up); (Decrement, r.1.1)]),
         Returned err)
    | (w', Blocked) => ((up, w', r.2 ++ [(Increment, up); (Resolve, up)]), Blocked)
    end.
Proof.
  intros Hg up. subst up. destruct r as [[g w] tr]. simpl in *.
  unfold counted, resolve, record_step. simpl.
  rewrite increment_below by exact Hg.
  destruct (run_resolver _ w) as [w' [|err]]; cbn -[decrement];
    rewrite <- ?(assoc_L (++)); cbn -[decrement]; [reflexivity|].
  rewrite decrement_up by exact Hg. by destruct g.
Qed.

(** The four parts of what [rendered] gives. *)
Lemma rendered_steps e before up after found w :
  (rendered run_resolver MustHandleError e before up after found w).1.2
  = before ++ [(Increment, up); (Resolve, up)]
      ++ (if is_returned (run_resolver up w).2 then after else []).
Proof.
  unfold rendered. by destruct (run_resolver up w) as [w' [|err]].
Qed.



Lemma rendered_world e before up after found w :
  (rendered run_resolver MustHandleError e before up after found w).1.1.2
  = (run_resolver up w).1.
Proof. unfold rendered. by destruct (run_resolver up w) as [w' [|err]]. Qed.

(** The [select] at one moment. *)
Lemma moment_cases mo : busy mo \/ admits mo \/ exists err, expires mo err.
Proof.
  unfold busy, admits, expires.
  destruct mo as [[a [|l]] [err|] []]; simpl.
  all: first [ left; split; [lia|reflexivity]
             | right; left; split; [reflexivity|by (left + right)]
             | right; right; exists err; split; [reflexivity|by (left; lia) + right] ].
Qed.

Lemma select_once_busy mo : busy mo -> select_once mo = Parked.
Proof.
  intros [Hl Hc]. unfold select_once, send_lock. rewrite Hc.
  case_bool_decide; [lia|reflexivity].
Qed.

Lemma select_once_admits mo :
  admits mo ->
  select_once mo
  = LockAcquired {| devtConnections := devtConnections (m_vars mo); lockChrome := 1 |}.
Proof.
  intros [Hl Hc]. unfold select_once, send_lock. rewrite Hl. simpl.
  destruct Hc as [-> | Hp]; [reflexivity|].
  rewrite Hp. by destruct (m_ctx_Err mo).
Qed.

Lemma select_once_expires mo err : expires mo err -> select_once mo = Done err.
Proof.
  intros [Hc Hor]. unfold select_once, send_lock. rewrite Hc.
  case_bool_decide; [|reflexivity]. destruct Hor as [Hl | ->]; [lia|reflexivity].
Qed.

(** The [select] fires at the first moment that is not busy. *)
Lemma select_lock_fires (before : list moment) mo (after : list moment) now later :
  now :: later = before ++ mo :: after ->
  Forall busy before -> select_once mo <> Parked ->
  select_lock now later = (m_vars mo, select_once mo).
Proof.
  revert now later. induction before as [|b before IH]; intros now later Heq Hbusy Hmo.
  - simpl in Heq. injection Heq as -> ->.
    destruct after; simpl; [reflexivity|]. by destruct (select_once mo).
  - simpl in Heq. injection Heq as -> ->.
    apply Forall_cons in Hbusy as [Hb Hbusy].
    destruct before as [|b' before]; simpl.
    + rewrite (select_once_busy b Hb). by apply (IH mo after).
    + rewrite (select_once_busy b Hb). by apply (IH b' (before ++ mo :: after)).
Qed.

Lemma select_lock_parked now later :
  Forall busy (now :: later) ->
  exists mo, last (now :: later) = Some mo /\ select_lock now later = (m_vars mo, Parked).
Proof.
  revert now. induction later as [|next later IH]; intros now Hbusy.
  - exists now. split; [reflexivity|]. simpl.
    apply Forall_cons in Hbusy as [Hb _]. by rewrite select_once_busy.
  - apply Forall_cons in Hbusy as [Hb Hbusy].
    destruct (IH next Hbusy) as (mo & Hlast & Hsel).
    exists mo. split; [exact Hlast|]. simpl. by rewrite select_once_busy.
Qed.

(** A list of moments is busy throughout or has a first moment that is
    not. *)
Lemma moments_split (l : list moment) :
  Forall busy l
  \/ exists before mo after,
       l = before ++ mo :: after /\ Forall busy before
       /\ (admits mo \/ exists err, expires mo err).
Proof.
  induction l as [|mo l IH]; [left; constructor|].
  destruct (moment_cases mo) as [Hb|Hfire].
  - destruct IH as [Hall|(before & mo' & after & -> & Hbefore & Hmo')].
    + left. by constructor.
    + right. exists (mo :: before), mo', after. split; [reflexivity|].
      split; [by constructor|exact Hmo'].
  - right. exists [], mo, l. split; [reflexivity|]. split; [constructor|exact Hfire].
Qed.

(** The branches of [Print]. *)
Lemma Print_fast opts e g w :
  below_max g ->
  devtConnections g + 1 < MaxConnections opts ->
  Print run_resolver MustHandleError opts e g w
  = rendered run_resolver MustHandleError e []
      {| devtConnections := devtConnections g + 1; lockChrome := lockChrome g |}
      [(Decrement, g)] g w.
Proof.
  intros Hg Hlt. unfold Print. rewrite wrap64_small by (unfold below_max in Hg; lia).
  destruct (Z.ltb_spec (devtConnections g + 1) (MaxConnections opts)); [|lia].
  rewrite counted_below by exact Hg. simpl. unfold rendered.
  by destruct (run_resolver _ w) as [w' [|err]].
Qed.

Lemma Print_refused opts e g w :
  below_max g ->
  MaxConnections opts <= devtConnections g -> WaitForConnection opts = false ->
  Print run_resolver MustHandleError opts e g w
  = (g, w, [], Returned (Some no_available_connections)).
Proof.
  intros Hg Hle Hw. unfold Print. rewrite wrap64_small by (unfold below_max in Hg; lia).
  destruct (Z.ltb_spec (devtConnections g + 1) (MaxConnections opts)); [lia|].
  destruct (Z.leb_spec (MaxConnections opts) (devtConnections g)); [|lia].
  rewrite Hw. reflexivity.
Qed.

Lemma Print_select opts e g w :
  below_max g ->
  MaxConnections opts <= devtConnections g + 1 ->
  devtConnections g < MaxConnections opts \/ WaitForConnection opts = true ->
  Print run_resolver MustHandleError opts e g w
  = match select_lock {| m_vars := g; m_ctx_Err := ctx_at_select e;
                         m_pick := pick_lock e |} (parked e) with
    | (g0, LockAcquired g1) =>
        match counted run_resolver (record_step SendLock g1 (g0, w, [])) with
        | (r, Returned err) =>
            match receive_lock r.1.1 with
            | Some g' =>
                (record_step ReceiveLock g' r, Returned (handle_error MustHandleError e err))
            | None => (r, Blocked)
            end
        | (r, Blocked) => (r, Blocked)
        end
    | (g0, Done err) => (g0, w, [], Returned (Some (MustHandleError (Some err) err)))
    | (g0, Parked) => (g0, w, [], Blocked)
    end.
Proof.
  intros Hg Hge Hor. unfold Print. rewrite wrap64_small by (unfold below_max in Hg; lia).
  destruct (Z.ltb_spec (devtConnections g + 1) (MaxConnections opts)); [lia|].
  replace ((MaxConnections opts <=? devtConnections g) && negb (WaitForConnection opts))
    with false; [reflexivity|].
  symmetry. apply andb_false_iff. destruct Hor as [Hlt| ->]; [left|by right].
  apply Z.leb_gt. lia.
Qed.

(** The three ways through the [select]. *)
Lemma Print_slot opts e g w (before : list moment) mo (after : list moment) :
  below_max g ->
  MaxConnections opts <= devtConnections g + 1 ->
  devtConnections g < MaxConnections opts \/ WaitForConnection opts = true ->
  moments e g = before ++ mo :: after -> Forall busy before ->
  admits mo -> below_max (m_vars mo) ->
  Print run_resolver MustHandleError opts e g w
  = rendered run_resolver MustHandleError e
      [(SendLock, {| devtConnections := devtConnections (m_vars mo); lockChrome := 1 |})]
      {| devtConnections := devtConnections (m_vars mo) + 1; lockChrome := 1 |}
      [(Decrement, {| devtConnections := devtConnections (m_vars mo); lockChrome := 1 |});
       (ReceiveLock, m_vars mo)]
      (m_vars mo) w.
Proof.
  intros Hg Hge Hor Heq Hbusy Hmo Hbelow.
  rewrite Print_select by assumption.
  rewrite (select_lock_fires before mo after) by
    (first [exact Heq | exact Hbusy | by rewrite (select_once_admits mo Hmo)]).
  rewrite (select_once_admits mo Hmo).
  rewrite counted_below by exact Hbelow. simpl. unfold rendered.
  destruct (run_resolver _ w) as [w' [|err]]; [reflexivity|].
  simpl. unfold record_step. simpl.
  destruct Hmo as [Hl _]. destruct (m_vars mo) as [a l]. simpl in *. by subst l.
Qed.

Lemma Print_expired opts e g w (before : list moment) mo (after : list moment) err :
  below_max g ->
  MaxConnections opts <= devtConnections g + 1 ->
  devtConnections g < MaxConnections opts \/ WaitForConnection opts = true ->
  moments e g = before ++ mo :: after -> Forall busy before ->
  expires mo err ->
  Print run_resolver MustHandleError opts e g w
  = (m_vars mo, w, [], Returned (Some (MustHandleError (Some err) err))).
Proof.
  intros Hg Hge Hor Heq Hbusy Hmo.
  rewrite Print_select by assumption.
  rewrite (select_lock_fires before mo after) by
    (first [exact Heq | exact Hbusy | by rewrite (select_once_expires mo err Hmo)]).
  by rewrite (select_once_expires mo err Hmo).
Qed.

Lemma Print_parked opts e g w :
  below_max g ->
  MaxConnections opts <= devtConnections g + 1 ->
  devtConnections g < MaxConnections opts \/ WaitForConnection opts = true ->
  Forall busy (moments e g) ->
  exists mo, last (moments e g) = Some mo
             /\ Print run_resolver MustHandleError opts e g w = (m_vars mo, w, [], Blocked).
Proof.
  intros Hg Hge Hor Hbusy.
  destruct (select_lock_parked _ _ Hbusy) as (mo & Hlast & Hsel).
  exists mo. split; [exact Hlast|].
  rewrite Print_select by assumption. by rewrite Hsel.
Qed.

(** Every run of [Print], by the branch it takes. *)
Lemma Print_shapes opts e g w :
  Forall (fun mo => below_max (m_vars mo)) (moments e g) ->
  (devtConnections g + 1 < MaxConnections opts
   /\ Print run_resolver MustHandleError opts e g w
      = rendered run_resolver MustHandleError e []
          {| devtConnections := devtConnections g + 1; lockChrome := lockChrome g |}
          [(Decrement, g)] g w)
  \/ (MaxConnections opts <= devtConnections g /\ WaitForConnection opts = false
      /\ Print run_resolver MustHandleError opts e g w
         = (g, w, [], Returned (Some no_available_connections)))
  \/ (MaxConnections opts <= devtConnections g + 1
      /\ (devtConnections g < MaxConnections opts \/ WaitForConnection opts = true)
      /\ ((exists before mo after,
             moments e g = before ++ mo :: after /\ Forall busy before /\ admits mo
             /\ Print run_resolver MustHandleError opts e g w
                = rendered run_resolver MustHandleError e
                    [(SendLock, {| devtConnections := devtConnections (m_vars mo);
                                   lockChrome := 1 |})]
                    {| devtConnections := devtConnections (m_vars mo) + 1;
                       lockChrome := 1 |}
                    [(Decrement, {| devtConnections := devtConnections (m_vars mo);
                                    lockChrome := 1 |});
                     (ReceiveLock, m_vars mo)]
                    (m_vars mo) w)
          \/ (exists before mo after err,
                moments e g = before ++ mo :: after /\ Forall busy before
                /\ expires mo err
                /\ Print run_resolver MustHandleError opts e g w
                   = (m_vars mo, w, [], Returned (Some (MustHandleError (Some err) err))))
          \/ (Forall busy (moments e g)
              /\ exists mo, last (moments e g) = Some mo
                            /\ Print run_resolver MustHandleError opts e g w
                               = (m_vars mo, w, [], Blocked)))).
Proof.
  intros Hall.
  assert (below_max g) as Hg by (by apply Forall_cons in Hall as [? _]).
  destruct (Z.lt_ge_cases (devtConnections g + 1) (MaxConnections opts)) as [Hlt|Hge].
  { left. split; [exact Hlt|by apply Print_fast]. }
  assert (MaxConnections opts <= devtConnections g /\ WaitForConnection opts = false
          \/ (devtConnections g < MaxConnections opts \/ WaitForConnection opts = true))
    as [[Hle Hw]|Hor].
  { destruct (Z.le_gt_cases (MaxConnections opts) (devtConnections g)) as [Hle|Hgt];
      [destruct (WaitForConnection opts)|]; [right; by right|by left|right; left; lia]. }
  { right. left. split; [exact Hle|]. split; [exact Hw|by apply Print_refused]. }
  right. right. split; [lia|]. split; [exact Hor|].
  destruct (moments_split (moments e g))
    as [Hbusy|(before & mo & after & Heq & Hbefore & [Hmo|[err Hmo]])].
  - right. right. split; [exact Hbusy|]. by apply Print_parked.
  - left. exists before, mo, after. split; [exact Heq|]. split; [exact Hbefore|].
    split; [exact Hmo|]. apply (Print_slot opts e g w before mo after); try assumption.
    rewrite Heq in Hall. apply Forall_app in Hall as [_ Hall].
    by apply Forall_cons in Hall as [? _].
  - right. left. exists before, mo, after, err. split; [exact Heq|]. split; [exact Hbefore|].
    split; [exact Hmo|]. by apply (Print_expired opts e g w before mo after).
Qed.

(** [Print] returns the refusal exactly on its second branch, as long
    as [MustHandleError] does not itself build that error. *)
Lemma Print_refusal_iff opts e g w :
  below_max g ->
  (forall c x, MustHandleError c (XNew op_Print x) <> no_available_connections) ->
  (forall err, MustHandleError (Some err) err <> no_available_connections) ->
  (Print run_resolver MustHandleError opts e g w).2
  = Returned (Some no_available_connections)
  <-> MaxConnections opts <= devtConnections g /\ WaitForConnection opts = false.
Proof.
  intros Hg Hnew Hdone.
  assert (forall r : option error,
            handle_error MustHandleError e r <> Some no_available_connections) as Hadm.
  { intros [err|]; [|discriminate]. intros [= Heq]. by apply Hnew in Heq. }
  assert (forall r : @run World * outcome,
            match r with
            | (r', Returned err) => (r', Returned (handle_error MustHandleError e err))
            | (r', Blocked) => (r', Blocked)
            end.2 <> Returned (Some no_available_connections)) as Hfast.
  { intros [r' [|err]]; simpl; [discriminate|]. intros [= Heq]. by apply Hadm in Heq. }
  destruct (Z.lt_ge_cases (devtConnections g + 1) (MaxConnections opts)) as [Hlt|Hge].
  { split; [|intros [? _]; lia]. unfold Print.
    rewrite wrap64_small by (unfold below_max in Hg; lia).
    destruct (Z.ltb_spec (devtConnections g + 1) (MaxConnections opts)); [|lia].
    intros Heq. by apply Hfast in Heq. }
  assert (MaxConnections opts <= devtConnections g /\ WaitForConnection opts = false
          \/ (devtConnections g < MaxConnections opts \/ WaitForConnection opts = true))
    as [[Hle Hw]|Hor].
  { destruct (Z.le_gt_cases (MaxConnections opts) (devtConnections g)) as [Hle|Hgt];
      [destruct (WaitForConnection opts)|]; [right; by right|by left|right; left; lia]. }
  { rewrite Print_refused by assumption. simpl. split; [by split|reflexivity]. }
  split.
  - rewrite Print_select by (first [assumption | lia]).
    destruct (select_lock _ _) as [g0 [g1|err|]]; simpl.
    + destruct (counted _ _) as [r [|err]]; simpl; [discriminate|].
      destruct (receive_lock _); simpl; [|discriminate].
      intros [= Heq]. by apply Hadm in Heq.
    + intros [= Heq]. by apply Hdone in Heq.
    + discriminate.
  - intros [Hle Hw]. destruct Hor as [Hlt|Hw']; [lia|congruence].
Qed.
End Admission.

(** C4.  With the counter at [a], the cap at [m] and the wait option
    [wait]: when [a + 1 < m], [Print] counts up to [a + 1], which is at
    most [m - 1], and runs [resolver] with the slot as it found it,
    counting down when [resolver] is back; [Print] returns the error "no
    available connections" exactly when [m <= a] and [wait] is false; in
    every other case it goes to the [select] on the slot, where it stays
    parked as long as the slot is taken and the context is not over, and
    at the first moment that is otherwise it either takes the slot,
    found free, counts up and runs [resolver] holding it, releasing it
    after the count down, or returns the error of the context; it is
    still parked when no such moment comes.  In particular at
    [a = m - 1] it goes through the slot whatever [wait] is. *)
Theorem admission_control {World : Type}
    (run_resolver : globals -> World -> World * outcome)
    (MustHandleError : option error -> error -> error)
    (opts : ChromePrinterOptions) (e : print_env) (g : globals) (w : World) :
  let a := devtConnections g in
  let m := MaxConnections opts in
  let through_slot :=
    (forall before mo after,
        moments e g = before ++ mo :: after -> Forall busy before ->
        (admits mo -> below_max (m_vars mo) ->
         let held := {| devtConnections := devtConnections (m_vars mo);
                        lockChrome := 1 |} in
         let up := {| devtConnections := devtConnections (m_vars mo) + 1;
                      lockChrome := 1 |} in
         Print run_resolver MustHandleError opts e g w
         = rendered run_resolver MustHandleError e [(SendLock, held)] up
             [(Decrement, held); (ReceiveLock, m_vars mo)] (m_vars mo) w)
        /\ (forall err, expires mo err ->
              Print run_resolver MustHandleError opts e g w
              = (m_vars mo, w, [], Returned (Some (MustHandleError (Some err) err)))))
    /\ (Forall busy (moments e g) ->
        exists mo, last (moments e g) = Some mo
                   /\ Print run_resolver MustHandleError opts e g w
                      = (m_vars mo, w, [], Blocked)) in
  below_max g ->
  (forall c x, MustHandleError c (XNew op_Print x) <> no_available_connections) ->
  (forall err, MustHandleError (Some err) err <> no_available_connections) ->
  (a + 1 < m ->
   Print run_resolver MustHandleError opts e g w
   = rendered run_resolver MustHandleError e []
       {| devtConnections := a + 1; lockChrome := lockChrome g |} [(Decrement, g)] g w
   /\ a + 1 <= m - 1)
  /\ ((Print run_resolver MustHandleError opts e g w).2
      = Returned (Some no_available_connections)
      <-> m <= a /\ WaitForConnection opts = false)
  /\ (m <= a + 1 -> a < m \/ WaitForConnection opts = true -> through_slot)
  /\ (a = m - 1 -> through_slot).
Proof.
  intros a m through_slot Ha Hnew Hdone. subst a m.
  assert (MaxConnections opts <= devtConnections g + 1 ->
          devtConnections g < MaxConnections opts \/ WaitForConnection opts = true ->
          through_slot) as Hslot.
  { intros Hge Hor. split.
    - intros before mo after Heq Hbusy. split.
      + intros Hmo Hbelow. by apply (Print_slot _ _ opts e g w before mo after).
      + intros err Hmo. by apply (Print_expired _ _ opts e g w before mo after).
    - intros Hbusy. by apply Print_parked. }
  split; [|split; [|split]].
  - intros Hlt. split; [by apply Print_fast|lia].
  - by apply Print_refusal_iff.
  - exact Hslot.
  - intros Heq. apply Hslot; [lia|left; lia].
Qed.

Lemma admission_control_witness :
  Print sample_run sample_MustHandleError sample_opts_one sample_env_waiting
    {| devtConnections := 1; lockChrome := 1 |} ([], sample_fs)
  = ({| devtConnections := 0; lockChrome := 0 |},
     (sample_run {| devtConnections := 1; lockChrome := 1 |} ([], sample_fs)).1,
     [ (SendLock, {| devtConnections := 0; lockChrome := 1 |});
       (Increment, {| devtConnections := 1; lockChrome := 1 |});
       (Resolve, {| devtConnections := 1; lockChrome := 1 |});
       (Decrement, {| devtConnections := 0; lockChrome := 1 |});
       (ReceiveLock, {| devtConnections := 0; lockChrome := 0 |}) ],
     Returned None).
Proof.
  destruct (admission_control sample_run sample_MustHandleError sample_opts_one
              sample_env_waiting {| devtConnections := 1; lockChrome := 1 |}
              ([], sample_fs))
    as (_ & _ & Hslot & _).
  - unfold below_max. simpl. lia.
  - intros [c|] x; discriminate.
  - intros err. discriminate.
  - destruct Hslot as [Hfire _]; [simpl; lia|by right|].
    destruct (Hfire
                [ {| m_vars := {| devtConnections := 1; lockChrome := 1 |};
                     m_ctx_Err := None; m_pick := true |};
                  {| m_vars := {| devtConnections := 1; lockChrome := 1 |};
                     m_ctx_Err := None; m_pick := true |} ]
                {| m_vars := {| devtConnections := 0; lockChrome := 0 |};
                   m_ctx_Err := None; m_pick := true |} [] eq_refl) as [Hadmit _].
    + repeat constructor.
    + rewrite Hadmit; [reflexivity|split; [reflexivity|by left]|].
      unfold below_max. simpl. lia.
Defined.

(** C10.  Whenever [Print] returns the error "no available connections",
    the counter and the slot are as before, no step was made on them,
    and the world of the browser and of the files is untouched; the
    same holds whatever [resolver] would do and whatever the world is. *)
Theorem refusal_has_no_effect {World : Type}
    (run_resolver : globals -> World -> World * outcome)
    (MustHandleError : option error -> error -> error)
    (opts : ChromePrinterOptions) (e : print_env) (g : globals) (w : World) :
  - 2 ^ 63 <= devtConnections g < 2 ^ 63 - 1 ->
  (forall c x, MustHandleError c (XNew op_Print x) <> no_available_connections) ->
  (forall err, MustHandleError (Some err) err <> no_available_connections) ->
  (Print run_resolver MustHandleError opts e g w).2
  = Returned (Some no_available_connections) ->
  Print run_resolver MustHandleError opts e g w
  = (g, w, [], Returned (Some no_available_connections))
  /\ (forall (World' : Type) (run_resolver' : globals -> World' -> World' * outcome)
        (MustHandleError' : option error -> error -> error) (e' : print_env) (w' : World'),
        Print run_resolver' MustHandleError' opts e' g w'
        = (g, w', [], Returned (Some no_available_connections))).
Proof.
  intros Hg Hnew Hdone Hret.
  apply Print_refusal_iff in Hret as [Hle Hw]; [|assumption..].
  split; [by apply Print_refused|]. intros. by apply Print_refused.
Qed.

Lemma refusal_has_no_effect_witness :
  Print sample_run sample_MustHandleError sample_opts sample_env
    {| devtConnections := 2; lockChrome := 1 |} ([], sample_fs)
  = ({| devtConnections := 2; lockChrome := 1 |}, ([], sample_fs), [],
     Returned (Some (XInvalid "printer.chromePrinter.Print" "no available connections" None))).
Proof.
  refine (proj1 (refusal_has_no_effect sample_run sample_MustHandleError sample_opts
                   sample_env {| devtConnections := 2; lockChrome := 1 |} ([], sample_fs)
                   _ _ _ _)).
  - simpl. lia.
  - intros [c|] x; discriminate.
  - intros err. discriminate.
  - vm_compute. reflexivity.
Defined.

(** ** More on [runBatch] and its callers *)

Section Batch.
Implicit Types (fn : list outcome) (order : list nat).

Lemma first_error_app_nil (l r : list outcome) :
  Forall (fun o => forall e, o <> Returned (Some e)) l ->
  first_error (l ++ r) = first_error r.
Proof.
  induction 1 as [|o l Ho _ IH]; [reflexivity|].
  destruct o as [|[e|]]; simpl; try exact IH. by destruct (Ho e).
Qed.

Lemma runBatch_returns order fn :
  runBatch order fn <> Blocked
  <-> Forall (fun o => o <> Blocked) fn /\ forall i, (i < length fn)%nat -> i ∈ order.
Proof.
  unfold runBatch. split.
  - destruct (forallb is_returned fn) eqn:Hret; [|by intros []].
    destruct (forallb _ (seq 0 (length fn))) eqn:Hall; [|by intros []].
    intros _. split.
    + apply Forall_forall. intros o Ho ->.
      rewrite forallb_forall in Hret. apply list_elem_of_In in Ho.
      by specialize (Hret _ Ho).
    + intros i Hi. rewrite forallb_forall in Hall.
      specialize (Hall i). rewrite bool_decide_eq_true in Hall.
      apply Hall, in_seq. lia.
  - intros [Hret Hin].
    replace (forallb is_returned fn) with true.
    + replace (forallb _ (seq 0 (length fn))) with true; [discriminate|].
      symmetry. apply forallb_forall. intros i Hi. apply bool_decide_eq_true.
      apply Hin. apply in_seq in Hi. lia.
    + symmetry. apply forallb_forall. intros o Ho. apply list_elem_of_In in Ho.
      rewrite Forall_forall in Hret. specialize (Hret o Ho). by destruct o.
Qed.

Lemma runBatch_value order fn :
  runBatch order fn <> Blocked ->
  runBatch order fn = Returned (first_error (omap (fun i => fn !! i) order)).
Proof. unfold runBatch. by case_match. Qed.
End Batch.

(** X1.  [runBatch] returns exactly when every function has returned,
    whether or not one of them failed early; it returns nil exactly when
    all of them returned nil; and when several fail it returns the error
    of the one that returned first. *)
Theorem runBatch_waits_for_every_function (order : list nat) (fn : list outcome) :
  (runBatch order fn <> Blocked
   <-> Forall (fun o => o <> Blocked) fn /\ forall i, (i < length fn)%nat -> i ∈ order)
  /\ (runBatch order fn = Returned None
      <-> Forall (fun o => o = Returned None) fn
          /\ forall i, (i < length fn)%nat -> i ∈ order)
  /\ (forall (pre post : list nat) (i : nat) (e : error),
        order = pre ++ i :: post ->
        fn !! i = Some (Returned (Some e)) ->
        (forall j e', j ∈ pre -> fn !! j <> Some (Returned (Some e'))) ->
        runBatch order fn <> Blocked ->
        runBatch order fn = Returned (Some e)).
Proof.
  split; [apply runBatch_returns|split; [apply runBatch_nil|]].
  intros pre post i e -> Hi Hpre Hret.
  rewrite (runBatch_value _ _ Hret). f_equal.
  rewrite omap_app. rewrite first_error_app_nil.
  - simpl. rewrite Hi. reflexivity.
  - apply Forall_forall. intros o Ho e' ->.
    apply list_elem_of_omap in Ho as (j & Hj & Hfn). by apply (Hpre j e').
Qed.

Lemma runBatch_waits_for_every_function_witness :
  runBatch [2; 0; 1]%nat
    [ Returned (Some (Foreign "first in the list"));
      Returned None;
      Returned (Some (Foreign "first to return")) ]
  = Returned (Some (Foreign "first to return")).
Proof.
  destruct (runBatch_waits_for_every_function [2; 0; 1]%nat
              [ Returned (Some (Foreign "first in the list"));
                Returned None;
                Returned (Some (Foreign "first to return")) ])
    as (_ & _ & Hfirst).
  apply (Hfirst [] [0; 1]%nat 2%nat); [reflexivity|reflexivity| |vm_compute; discriminate].
  intros j e' Hj. by apply elem_of_nil in Hj.
Defined.

(** X2.  [enableEvents] returns nil exactly when its five calls all
    return nil; an error it returns is the error of one of the five,
    wrapped once by [xerror.New]; and as long as one call has not
    returned it does not return, even if another call has failed. *)
Theorem enableEvents_needs_all_five (c : enable_calls) :
  (chromePrinter_enableEvents c = Returned None
   <-> Forall (fun o => o = Returned None) (enable_batch c)
       /\ forall i, (i < 5)%nat -> i ∈ ee_finished c)
  /\ (forall err, chromePrinter_enableEvents c = Returned (Some err) ->
        exists cause, err = XNew op_enableEvents cause
                      /\ Returned (Some cause) ∈ enable_batch c)
  /\ (Blocked ∈ enable_batch c -> chromePrinter_enableEvents c = Blocked).
Proof.
  unfold chromePrinter_enableEvents. split; [|split].
  - rewrite <- (runBatch_nil (ee_finished c) (enable_batch c)).
    destruct (runBatch _ _) as [|[e|]]; split; (discriminate || reflexivity || idtac).
  - intros err. destruct (runBatch _ _) as [|[e|]] eqn:Hb; try discriminate.
    intros [= <-]. exists e. split; [reflexivity|]. by apply runBatch_error in Hb.
  - intros Hin. destruct (runBatch _ _) as [|r] eqn:Hb; [reflexivity|].
    assert (runBatch (ee_finished c) (enable_batch c) <> Blocked) as Hret
      by (rewrite Hb; discriminate).
    apply runBatch_returns in Hret as [Hall _].
    rewrite Forall_forall in Hall. by destruct (Hall _ Hin).
Qed.

Lemma enableEvents_needs_all_five_witness :
  chromePrinter_enableEvents
    {| ee_DOM_Enable := Returned None;
       ee_Network_Enable := Returned (Some (Foreign "rpcc: connection closed"));
       ee_Page_Enable := Blocked;
       ee_Page_SetLifecycleEventsEnabled := Returned None;
       ee_Runtime_Enable := Returned None;
       ee_finished := [0; 1; 3; 4]%nat |}
  = Blocked.
Proof.
  destruct (enableEvents_needs_all_five
              {| ee_DOM_Enable := Returned None;
                 ee_Network_Enable := Returned (Some (Foreign "rpcc: connection closed"));
                 ee_Page_Enable := Blocked;
                 ee_Page_SetLifecycleEventsEnabled := Returned None;
                 ee_Runtime_Enable := Returned None;
                 ee_finished := [0; 1; 3; 4]%nat |})
    as (_ & _ & Hblocked).
  apply Hblocked. simpl. unfold enable_batch. simpl. repeat constructor.
Defined.

(** ** The copy of the headers *)

Section Headers.
Implicit Types (visit : list (string * string)) (m : gmap string string).

Lemma fold_insert_lookup visit m (k : string) :
  NoDup visit.*1 ->
  fold_left (fun m kv => <[kv.1 := kv.2]> m) visit m !! k
  = match (list_to_map visit : gmap string string) !! k with
    | Some v => Some v
    | None => m !! k
    end.
Proof.
  revert m. induction visit as [|[k' v'] visit IH]; intros m Hnd; [reflexivity|].
  apply NoDup_cons in Hnd as [Hk' Hnd]. simpl fold_left. rewrite IH by exact Hnd.
  simpl list_to_map. destruct (decide (k = k')) as [->|Hne].
  - rewrite !lookup_insert_eq.
    by rewrite (not_elem_of_list_to_map_1 (M := gmap string) _ _ Hk').
  - rewrite !lookup_insert_ne by done. reflexivity.
Qed.

(** Copying entry by entry gives the map back, in whatever order the
    entries are visited. *)
Lemma copy_headers_range visit m :
  visit ≡ₚ map_to_list m -> copy_headers visit = m.
Proof.
  intros Hperm.
  assert (NoDup visit.*1) as Hnd by (rewrite Hperm; apply NoDup_fst_map_to_list).
  transitivity (list_to_map visit : gmap string string).
  - apply map_eq. intros k. unfold copy_headers. rewrite fold_insert_lookup by exact Hnd.
    rewrite lookup_empty. by destruct (list_to_map visit !! k).
  - rewrite (list_to_map_proper (M := gmap string) _ _ Hnd Hperm).
    apply list_to_map_to_list.
Qed.
End Headers.

(** X3.  [setCustomHTTPHeaders] makes no call and returns nil for an
    empty map of headers.  Otherwise it marshals a copy that equals the
    configured map, whatever the order of the [range], and hands it to
    [SetExtraHTTPHeaders] once; every error it returns is the error of
    the marshalling or of that call wrapped once by [xerror.New]. *)
Theorem setCustomHTTPHeaders_sends_the_configured_map `{JsonMarshal}
    (CustomHTTPHeaders : gmap string string) (visit : list (string * string))
    (SetExtraHTTPHeaders : string -> option error) :
  visit ≡ₚ map_to_list CustomHTTPHeaders ->
  (CustomHTTPHeaders = ∅ ->
   chromePrinter_setCustomHTTPHeaders CustomHTTPHeaders visit SetExtraHTTPHeaders
   = ([], None))
  /\ (CustomHTTPHeaders <> ∅ ->
      forall b, json_Marshal CustomHTTPHeaders = inr b ->
        chromePrinter_setCustomHTTPHeaders CustomHTTPHeaders visit SetExtraHTTPHeaders
        = ([b], XNew op_setCustomHTTPHeaders <$> SetExtraHTTPHeaders b))
  /\ (CustomHTTPHeaders <> ∅ ->
      forall err, json_Marshal CustomHTTPHeaders = inl err ->
        chromePrinter_setCustomHTTPHeaders CustomHTTPHeaders visit SetExtraHTTPHeaders
        = ([], Some (XNew op_setCustomHTTPHeaders err))).
Proof.
  intros Hperm. unfold chromePrinter_setCustomHTTPHeaders.
  rewrite (copy_headers_range _ _ Hperm). split; [|split].
  - intros ->. reflexivity.
  - intros Hne b Hb. apply map_size_non_empty_iff in Hne.
    rewrite bool_decide_eq_false_2 by exact Hne. rewrite Hb.
    by destruct (SetExtraHTTPHeaders b).
  - intros Hne err Herr. apply map_size_non_empty_iff in Hne.
    rewrite bool_decide_eq_false_2 by exact Hne. rewrite Herr. reflexivity.
Qed.

Lemma setCustomHTTPHeaders_sends_the_configured_map_witness :
  @chromePrinter_setCustomHTTPHeaders sample_marshal
    (<["X-Trace" := "7"]> (<["Accept" := "text/html"]> ∅))
    [("X-Trace", "7"); ("Accept", "text/html")]
    (fun _ => Some (Foreign "rpcc: connection closed"))
  = (["Accept:text/html,X-Trace:7"],
     Some (XNew op_setCustomHTTPHeaders (Foreign "rpcc: connection closed"))).
Proof.
  destruct (@setCustomHTTPHeaders_sends_the_configured_map sample_marshal
              (<["X-Trace" := "7"]> (<["Accept" := "text/html"]> ∅))
              [("X-Trace", "7"); ("Accept", "text/html")]
              (fun _ => Some (Foreign "rpcc: connection closed")))
    as (_ & Hsend & _).
  - vm_compute. apply Permutation_swap.
  - apply (Hsend ltac:(apply insert_non_empty) "Accept:text/html,X-Trace:7").
    vm_compute. reflexivity.
Defined.

(** ** What a result of [poll] tells *)

Section PollInversion.
Variable fn : nat -> bool * option error.
Variable ctx_done : nat -> option error.

Lemma poll_loop_inv (fuel i : nat) (steps : list poll_step) (r : option error) :
  poll_loop fuel fn ctx_done i = Some (steps, r) ->
  exists n last,
    (n < fuel)%nat
    /\ (forall j, (i <= j < i + n)%nat -> goes_on fn ctx_done j)
    /\ steps = poll_turns i n ++ last
    /\ poll_ends fn ctx_done (i + n) last r.
Proof.
  revert i steps r. induction fuel as [|fuel IH]; intros i steps r; [discriminate|].
  simpl. destruct (fn i) as [[] [err|]] eqn:Hfn; simpl.
  - intros [= <- <-]. exists 0%nat, [CallFn i]. rewrite Nat.add_0_r.
    split; [lia|]. split; [intros j Hj; lia|]. split; [reflexivity|].
    right. left. by exists true, err.
  - intros [= <- <-]. exists 0%nat, [CallFn i]. rewrite Nat.add_0_r.
    split; [lia|]. split; [intros j Hj; lia|]. split; [reflexivity|]. by left.
  - intros [= <- <-]. exists 0%nat, [CallFn i]. rewrite Nat.add_0_r.
    split; [lia|]. split; [intros j Hj; lia|]. split; [reflexivity|].
    right. left. by exists false, err.
  - destruct (ctx_done i) as [err|] eqn:Hctx.
    + intros [= <- <-]. exists 0%nat, [CallFn i; TimerReset (100 * Millisecond); CtxDone].
      rewrite Nat.add_0_r. split; [lia|]. split; [intros j Hj; lia|].
      split; [reflexivity|]. right. right. by exists err.
    + destruct (poll_loop fuel fn ctx_done (S i)) as [[steps' r']|] eqn:Hrec;
        [|discriminate].
      intros [= <- <-]. destruct (IH _ _ _ Hrec) as (n & last & Hn & Hgo & -> & Hend).
      exists (S n), last. replace (i + S n)%nat with (S i + n)%nat by lia.
      split; [lia|]. split; [|split; [reflexivity|exact Hend]].
      intros j Hj. destruct (decide (j = i)) as [->|Hne]; [by split|].
      apply Hgo. lia.
Qed.

Lemma poll_loop_out_of_fuel (fuel i : nat) :
  poll_loop fuel fn ctx_done i = None
  <-> forall j, (i <= j < i + fuel)%nat -> goes_on fn ctx_done j.
Proof.
  revert i. induction fuel as [|fuel IH]; intros i.
  - split; [intros _ j Hj; lia|reflexivity].
  - simpl. split.
    + destruct (fn i) as [[] [err|]] eqn:Hfn; try discriminate.
      destruct (ctx_done i) eqn:Hctx; [discriminate|].
      destruct (poll_loop fuel fn ctx_done (S i)) as [[]|] eqn:Hrec; [discriminate|].
      intros _ j Hj. destruct (decide (j = i)) as [->|Hne]; [by split|].
      apply (proj1 (IH (S i)) Hrec). lia.
    + intros Hgo. destruct (Hgo i ltac:(lia)) as [-> ->].
      replace (poll_loop fuel fn ctx_done (S i)) with (@None (list poll_step * option error));
        [reflexivity|].
      symmetry. apply IH. intros j Hj. apply Hgo. lia.
Qed.
End PollInversion.

Lemma Wait_fn_decodes `{JsonBool} (reply : error + EvaluateReply) (b : bool) :
  Wait_fn reply = (b, None) <-> decodes_to reply b.
Proof.
  unfold Wait_fn, decodes_to, Eval, eval. split.
  - destruct reply as [err|r]; [discriminate|].
    destruct (ExceptionDetails r) eqn:He; [discriminate|].
    destruct (json_Unmarshal (Result_Value r) false) as [b' [err|]] eqn:Hj; [discriminate|].
    simpl. intros [= ->]. by exists r.
  - intros (r & -> & -> & ->). reflexivity.
Qed.

(** X4.  A result of [poll] tells how the run went: some turn [n] ended
    it, by a yes of the function, by an error of the function or by the
    context during the wait, and every turn before [n] was a no followed
    by the timer.  [poll] goes on past [fuel] turns exactly when all of
    them are a no followed by the timer: nothing else ends the loop. *)
Theorem poll_ends_only_on_yes_error_or_context
    (fn : nat -> bool * option error) (ctx_done : nat -> option error)
    (stopped : bool) (fuel : nat) :
  (forall steps r,
      poll fuel stopped fn ctx_done = Some (steps, r) ->
      exists n last,
        (n < fuel)%nat
        /\ (forall j, (j < n)%nat -> goes_on fn ctx_done j)
        /\ steps = poll_arm stopped ++ poll_turns 0 n ++ last
        /\ poll_ends fn ctx_done n last r)
  /\ (poll fuel stopped fn ctx_done = None
      <-> forall j, (j < fuel)%nat -> goes_on fn ctx_done j).
Proof.
  unfold poll. split.
  - intros steps r.
    destruct (poll_loop fuel fn ctx_done 0) as [[steps' r']|] eqn:Hloop; [|discriminate].
    intros [= <- <-].
    destruct (poll_loop_inv _ _ _ _ _ _ Hloop) as (n & last & Hn & Hgo & -> & Hend).
    exists n, last. split; [exact Hn|]. split; [|by split].
    intros j Hj. apply Hgo. lia.
  - split.
    + destruct (poll_loop fuel fn ctx_done 0) as [[]|] eqn:Hloop; [discriminate|].
      intros _ j Hj. apply (proj1 (poll_loop_out_of_fuel fn ctx_done fuel 0) Hloop). lia.
    + intros Hgo.
      replace (poll_loop fuel fn ctx_done 0) with (@None (list poll_step * option error));
        [reflexivity|].
      symmetry. apply poll_loop_out_of_fuel. intros j Hj. apply Hgo. lia.
Qed.

Lemma poll_ends_only_on_yes_error_or_context_witness :
  goes_on (fun _ => (false, None)) (fun _ => None) 2.
Proof.
  destruct (poll_ends_only_on_yes_error_or_context
              (fun _ => (false, None)) (fun _ => None) true 3) as (_ & Hloop).
  apply (proj1 Hloop ltac:(vm_compute; reflexivity) 2%nat). lia.
Defined.

(** X5.  When [Wait] returns nil, the reply to its last evaluation had no
    exception and a value that decodes to true, every earlier reply had
    no exception and a value that decodes to false, and the context did
    not end any of the waits in between. *)
Theorem Wait_nil_means_status_reached `{JsonBool}
    (fuel : nat) (stopped : bool) (replies : nat -> error + EvaluateReply)
    (ctx_done : nat -> option error) (steps : list poll_step) :
  Wait fuel stopped replies ctx_done = Some (steps, None) ->
  exists n,
    (n < fuel)%nat
    /\ decodes_to (replies n) true
    /\ (forall j, (j < n)%nat -> decodes_to (replies j) false /\ ctx_done j = None)
    /\ steps = poll_arm stopped ++ poll_turns 0 n ++ [CallFn n].
Proof.
  unfold Wait, poll.
  destruct (poll_loop _ _ _ _) as [[steps' r']|] eqn:Hloop; [|discriminate].
  intros [= <- ->].
  destruct (poll_loop_inv _ _ _ _ _ _ Hloop) as (n & last & Hn & Hgo & -> & Hend).
  exists n. split; [exact Hn|].
  destruct Hend as [(Hfn & -> & _)|[(b & err & _ & _ & ?)|(err & _ & _ & _ & ?)]];
    try discriminate.
  split; [by apply Wait_fn_decodes|]. split; [|reflexivity].
  intros j Hj. destruct (Hgo j ltac:(lia)) as [Hfj Hcj].
  split; [by apply Wait_fn_decodes|exact Hcj].
Qed.

Lemma Wait_nil_means_status_reached_witness :
  exists n, (n < 10)%nat /\ @decodes_to sample_json (sample_replies n) true
            /\ (forall j, (j < n)%nat -> @decodes_to sample_json (sample_replies j) false).
Proof.
  destruct (@Wait_nil_means_status_reached sample_json 10 true sample_replies
              (fun _ => None)
              (poll_arm true ++ poll_turns 0 5 ++ [CallFn 5])
              ltac:(vm_compute; reflexivity))
    as (n & Hn & Hyes & Hno & _).
  exists n. split; [exact Hn|]. split; [exact Hyes|].
  intros j Hj. exact (proj1 (Hno j Hj)).
Defined.

(** ** What the listeners never return *)

Section NeverBenign.
Context `{XerrorText}.
Implicit Types (st : shared) (e err : error).

Lemma on_recv_error_inv err e :
  on_recv_error err = Returned (Some e) ->
  e = err /\ Contains (Error err) stream_closing = false.
Proof.
  unfold on_recv_error. destruct (Contains (Error err) stream_closing); [discriminate|].
  intros [= ->]. by split.
Qed.

Lemma on_wait_error_inv err e :
  on_wait_error err = Returned (Some e) ->
  e = err /\ Contains (Error err) context_canceled = false.
Proof.
  unfold on_wait_error. destruct (Contains (Error err) context_canceled); [discriminate|].
  intros [= ->]. by split.
Qed.

Lemma consoleListener_error (s : list (recv string)) st e :
  (consoleListener s st).2 = Returned (Some e) ->
  Contains (Error e) stream_closing = false.
Proof.
  induction s as [|[ev|err] s IH]; simpl; [discriminate|exact IH|].
  by intros [-> ?]%on_recv_error_inv.
Qed.

Lemma requestWillBeSentListener_error (s : list (recv RequestWillBeSentReply)) st e :
  (requestWillBeSentListener s st).2 = Returned (Some e) ->
  Contains (Error e) stream_closing = false.
Proof.
  revert st. induction s as [|[ev|err] s IH]; intros st; simpl;
    [discriminate|apply IH|].
  by intros [-> ?]%on_recv_error_inv.
Qed.

Lemma responseReceivedListener_error (s : list (recv ResponseReceivedReply)) st e :
  (responseReceivedListener s st).2 = Returned (Some e) ->
  Contains (Error e) stream_closing = false.
Proof.
  revert st. induction s as [|[ev|err] s IH]; intros st; simpl;
    [discriminate|apply IH|].
  by intros [-> ?]%on_recv_error_inv.
Qed.

Lemma loadingFailedListener_error (s : list (recv LoadingFailedReply)) st e :
  (loadingFailedListener s st).2 = Returned (Some e) ->
  Contains (Error e) stream_closing = false.
Proof.
  revert st. induction s as [|[ev|err] s IH]; intros st; simpl;
    [discriminate|apply IH|].
  by intros [-> ?]%on_recv_error_inv.
Qed.
End NeverBenign.

(** X6.  No listener returns an error of [Recv] whose text contains
    ["rpcc: the stream is closing"]: the four looping listeners return
    only other errors of [Recv], and the crash and exception listeners
    return besides only the error they build at the first event.  And
    [waiter] never returns an error whose text contains
    ["context canceled"]. *)
Theorem listeners_never_return_benign_errors `{XerrorText} (st : shared) (e : error) :
  (forall s, (consoleListener s st).2 = Returned (Some e) ->
             Contains (Error e) "rpcc: the stream is closing" = false)
  /\ (forall s, (requestWillBeSentListener s st).2 = Returned (Some e) ->
                Contains (Error e) "rpcc: the stream is closing" = false)
  /\ (forall s, (responseReceivedListener s st).2 = Returned (Some e) ->
                Contains (Error e) "rpcc: the stream is closing" = false)
  /\ (forall s, (loadingFailedListener s st).2 = Returned (Some e) ->
                Contains (Error e) "rpcc: the stream is closing" = false)
  /\ (forall s, (crashListener s st).2 = Returned (Some e) ->
                e = XInvalid op_Print "target has crashed" None
                \/ Contains (Error e) "rpcc: the stream is closing" = false)
  /\ (forall s, (exceptionListener s st).2 = Returned (Some e) ->
                (exists details rest, s = Event details :: rest
                                      /\ e = XInvalid op_Print details None)
                \/ Contains (Error e) "rpcc: the stream is closing" = false)
  /\ (forall opts c wait, waiter opts c wait = Returned (Some e) ->
                          Contains (Error e) "context canceled" = false).
Proof.
  repeat split.
  - intros s. apply consoleListener_error.
  - intros s. apply requestWillBeSentListener_error.
  - intros s. apply responseReceivedListener_error.
  - intros s. apply loadingFailedListener_error.
  - intros [|[[]|err] s]; simpl; [discriminate|intros [= <-]; by left|].
    intros [-> ?]%on_recv_error_inv. by right.
  - intros [|[details|err] s]; simpl; [discriminate| |].
    + intros [= <-]. left. by exists details, s.
    + intros [-> ?]%on_recv_error_inv. by right.
  - intros opts c wait. unfold waiter.
    destruct (listenEvents c) as [|[err|]]; [discriminate| |].
    + by intros [-> ?]%on_wait_error_inv.
    + destruct (negb _); [|discriminate].
      destruct wait as [|[err|]]; [discriminate| |discriminate].
      by intros [-> ?]%on_wait_error_inv.
Qed.

Lemma listeners_never_return_benign_errors_witness :
  Contains (@Error sample_xerror (Foreign "rpcc: websocket closed"))
    "rpcc: the stream is closing" = false.
Proof.
  destruct (@listeners_never_return_benign_errors sample_xerror shared_init
              (Foreign "rpcc: websocket closed")) as (Hconsole & _).
  apply (Hconsole [Event "log"; Event "warn"; RecvError (Foreign "rpcc: websocket closed")]).
  vm_compute. reflexivity.
Defined.

(** ** Invariants of the two maps *)

Section Maps.
Implicit Types (st : shared) (id : string) (ev : network_event)
  (evs : list network_event).

Lemma turn_urls_other st ev id :
  request_of id ev = false ->
  requestURLs (turn st ev) !! id = requestURLs st !! id.
Proof.
  destruct ev as [event|event|event]; simpl.
  - intros Hne%String.eqb_neq. by rewrite lookup_insert_ne.
  - intros _. unfold responseReceived_body.
    repeat case_match; reflexivity.
  - intros _. unfold loadingFailed_body. case_match; reflexivity.
Qed.

Lemma turns_urls_other evs st id :
  Forall (fun ev => request_of id ev = false) evs ->
  requestURLs (turns evs st) !! id = requestURLs st !! id.
Proof.
  intros Hall. revert st. induction Hall as [|ev evs Hev _ IH]; intros st; [reflexivity|].
  rewrite turns_cons, IH. by apply turn_urls_other.
Qed.

(** Only the turns of [requestWillBeSentListener] leave the error map
    and the count of cancellations alone. *)
Lemma turn_request_only st (event : RequestWillBeSentReply) :
  requestErrorMessages (turn st (RequestWillBeSent event)) = requestErrorMessages st
  /\ cancelOperation_calls (turn st (RequestWillBeSent event)) = cancelOperation_calls st.
Proof. by split. Qed.

Lemma turns_requests_only (events : list RequestWillBeSentReply) st :
  requestErrorMessages (turns (RequestWillBeSent <$> events) st) = requestErrorMessages st
  /\ cancelOperation_calls (turns (RequestWillBeSent <$> events) st)
     = cancelOperation_calls st.
Proof.
  revert st. induction events as [|event events IH]; intros st; [by split|].
  rewrite fmap_cons, turns_cons. destruct (IH (turn st (RequestWillBeSent event))) as [-> ->].
  by split.
Qed.

(** A turn either leaves the error map and the count alone, or writes
    one entry and cancels once. *)
Lemma turn_writes st ev :
  (requestErrorMessages (turn st ev) = requestErrorMessages st
   /\ cancelOperation_calls (turn st ev) = cancelOperation_calls st)
  \/ (exists v, reports (event_key ev) v ev
                /\ requestErrorMessages (turn st ev)
                   = <[event_key ev := v]> (requestErrorMessages st)
                /\ cancelOperation_calls (turn st ev) = S (cancelOperation_calls st)).
Proof.
  destruct ev as [event|event|event]; simpl.
  - by left.
  - unfold responseReceived_body.
    destruct (Z.ltb_spec (rr_Status event) 400) as [|Hge]; [by left|].
    destruct (requestErrorMessages st !! rr_RequestID event) as [value|].
    + destruct (String.eqb value ERR_ABORTED); [|by left].
      right. eexists. by repeat split.
    + right. eexists. by repeat split.
  - unfold loadingFailed_body.
    destruct (requestErrorMessages st !! lf_RequestID event); [by left|].
    right. eexists. by repeat split.
Qed.
End Maps.

Section Provenance.
Implicit Types (st : shared) (id : string) (ev : network_event)
  (evs : list network_event).

Lemma turn_mono st ev id :
  is_Some (requestErrorMessages st !! id) ->
  is_Some (requestErrorMessages (turn st ev) !! id).
Proof.
  intros Hsome. destruct (turn_writes st ev) as [[-> _]|(v & _ & -> & _)]; [exact Hsome|].
  destruct (decide (event_key ev = id)) as [->|Hne].
  - rewrite lookup_insert_eq. by eexists.
  - by rewrite lookup_insert_ne.
Qed.

Lemma turns_mono evs st id :
  is_Some (requestErrorMessages st !! id) ->
  is_Some (requestErrorMessages (turns evs st) !! id).
Proof.
  revert st. induction evs as [|ev evs IH]; intros st Hsome; [exact Hsome|].
  rewrite turns_cons. apply IH. by apply turn_mono.
Qed.

Lemma turn_provenance st ev id (v : string) :
  requestErrorMessages (turn st ev) !! id = Some v ->
  requestErrorMessages st !! id = Some v \/ reports id v ev.
Proof.
  destruct (turn_writes st ev) as [[-> _]|(v' & Hrep & -> & _)]; [by left|].
  destruct (decide (event_key ev = id)) as [<-|Hne].
  - rewrite lookup_insert_eq. intros [= <-]. by right.
  - rewrite lookup_insert_ne by done. by left.
Qed.

Lemma reports_key id (v : string) ev : reports id v ev -> event_key ev = id.
Proof. destruct ev; simpl; [done|by intros [? _]|by intros [? _]]. Qed.

(** A turn that reports an error for a request leaves an entry for it. *)
Lemma turn_reports st ev id (v : string) :
  reports id v ev -> is_Some (requestErrorMessages (turn st ev) !! id).
Proof.
  destruct ev as [event|event|event]; simpl; [done| |].
  - intros (<- & Hge & _). unfold responseReceived_body.
    destruct (Z.ltb_spec (rr_Status event) 400) as [|_]; [lia|].
    destruct (requestErrorMessages st !! rr_RequestID event) as [value|] eqn:E.
    + destruct (String.eqb value ERR_ABORTED).
      * simpl. rewrite lookup_insert_eq. by eexists.
      * rewrite E. by eexists.
    + simpl. rewrite lookup_insert_eq. by eexists.
  - intros [<- _]. unfold loadingFailed_body.
    destruct (requestErrorMessages st !! lf_RequestID event) as [value|] eqn:E.
    + rewrite E. by eexists.
    + simpl. rewrite lookup_insert_eq. by eexists.
Qed.

(** The count of cancellations bounds the size of the error map, and a
    cancellation leaves a non-empty map. *)
Lemma turn_counts st ev :
  (size (requestErrorMessages st) <= cancelOperation_calls st)%nat
  /\ (0 < cancelOperation_calls st -> requestErrorMessages st <> ∅)%nat ->
  (size (requestErrorMessages (turn st ev)) <= cancelOperation_calls (turn st ev))%nat
  /\ (0 < cancelOperation_calls (turn st ev) ->
      requestErrorMessages (turn st ev) <> ∅)%nat.
Proof.
  intros [Hsize Hne].
  destruct (turn_writes st ev) as [[-> ->]|(v & _ & -> & ->)]; [by split|].
  split; [|intros _; apply insert_non_empty].
  pose proof (map_size_insert (event_key ev) v (requestErrorMessages st)) as Hins.
  rewrite Hins. case_match; unfold id; lia.
Qed.

Lemma turns_counts evs st :
  (size (requestErrorMessages st) <= cancelOperation_calls st)%nat
  /\ (0 < cancelOperation_calls st -> requestErrorMessages st <> ∅)%nat ->
  (size (requestErrorMessages (turns evs st)) <= cancelOperation_calls (turns evs st))%nat
  /\ (0 < cancelOperation_calls (turns evs st) ->
      requestErrorMessages (turns evs st) <> ∅)%nat.
Proof.
  revert st. induction evs as [|ev evs IH]; intros st Hst; [exact Hst|].
  rewrite turns_cons. apply IH. by apply turn_counts.
Qed.
End Provenance.

(** X7.  The url kept for a request id is the one of the latest
    [requestWillBeSent] event for that id, so a redirect replaces it;
    turns of the other listeners and events for other ids leave it alone.
    The turns of [requestWillBeSentListener] change neither the error map
    nor the count of cancellations.  An entry of the message for a
    request with no url kept starts with the colon. *)
Theorem requestURLs_keeps_the_latest_url (st : shared) (id : string) :
  (forall evs, Forall (fun ev => request_of id ev = false) evs ->
     url_of (requestURLs (turns evs st)) id = url_of (requestURLs st) id)
  /\ (forall pre post event,
        rs_RequestID event = id ->
        Forall (fun ev => request_of id ev = false) post ->
        url_of (requestURLs (turns (pre ++ RequestWillBeSent event :: post) st)) id
        = rs_URL event)
  /\ (forall events,
        requestErrorMessages (turns (RequestWillBeSent <$> events) st)
        = requestErrorMessages st
        /\ cancelOperation_calls (turns (RequestWillBeSent <$> events) st)
           = cancelOperation_calls st)
  /\ (forall m, requestURLs st !! id = None ->
        resource_entry (requestURLs st) (id, m) = ": " +:+ m).
Proof.
  split; [|split; [|split]].
  - intros evs Hall. unfold url_of. by rewrite turns_urls_other.
  - intros pre post event <- Hpost. unfold url_of.
    rewrite turns_app, turns_cons, turns_urls_other by exact Hpost.
    simpl. by rewrite lookup_insert_eq.
  - intros events. apply turns_requests_only.
  - intros m Hnone. unfold resource_entry, url_of. simpl. rewrite Hnone. reflexivity.
Qed.

Lemma requestURLs_keeps_the_latest_url_witness :
  url_of
    (requestURLs
       (turns [ RequestWillBeSent {| rs_RequestID := "1"; rs_URL := "http://t/a" |};
                RequestWillBeSent {| rs_RequestID := "1"; rs_URL := "https://t/a" |};
                RequestWillBeSent {| rs_RequestID := "2"; rs_URL := "http://t/b" |};
                LoadingFailed {| lf_RequestID := "1"; lf_ErrorText := "net::ERR_FAILED" |} ]
          shared_init)) "1"
  = "https://t/a".
Proof.
  destruct (requestURLs_keeps_the_latest_url shared_init "1") as (_ & Hlast & _).
  apply (Hlast [RequestWillBeSent {| rs_RequestID := "1"; rs_URL := "http://t/a" |}]
           [ RequestWillBeSent {| rs_RequestID := "2"; rs_URL := "http://t/b" |};
             LoadingFailed {| lf_RequestID := "1"; lf_ErrorText := "net::ERR_FAILED" |} ]
           {| rs_RequestID := "1"; rs_URL := "https://t/a" |} eq_refl).
  repeat constructor.
Defined.

(** X8.  Starting from the empty maps, after any sequence of turns the
    error map is non-empty exactly when a network listener has called
    [cancelOperation], and it never has more entries than there were
    calls. *)
Theorem cancellation_tracks_the_ledger (evs : list network_event) :
  (size (requestErrorMessages (turns evs shared_init))
   <= cancelOperation_calls (turns evs shared_init))%nat
  /\ (requestErrorMessages (turns evs shared_init) = ∅
      <-> cancelOperation_calls (turns evs shared_init) = 0%nat).
Proof.
  destruct (turns_counts evs shared_init) as [Hsize Hne].
  { split; [simpl; rewrite map_size_empty; lia|simpl; lia]. }
  split; [exact Hsize|]. split.
  - intros Hempty. destruct (cancelOperation_calls (turns evs shared_init)); [reflexivity|].
    destruct Hne; [lia|exact Hempty].
  - intros Hzero. apply map_size_empty_inv. lia.
Qed.

(** X9.  Every entry of the error map was there before or is the text a
    turn reported for that request id; an entry, once there, stays; and a
    request id without an entry at the end has had no load failure and
    no response with status 400 or more. *)
Theorem ledger_entries_come_from_reports (evs : list network_event) (st : shared)
    (id : string) :
  (forall v, requestErrorMessages (turns evs st) !! id = Some v ->
     requestErrorMessages st !! id = Some v \/ Exists (reports id v) evs)
  /\ (is_Some (requestErrorMessages st !! id) ->
      is_Some (requestErrorMessages (turns evs st) !! id))
  /\ (requestErrorMessages (turns evs st) !! id = None ->
      Forall (fun ev => forall v, ~ reports id v ev) evs).
Proof.
  split; [|split].
  - revert st. induction evs as [|ev evs IH]; intros st v; [by left|].
    rewrite turns_cons. intros Hv. apply IH in Hv as [Hv|Hex].
    + apply turn_provenance in Hv as [Hv|Hrep]; [by left|right; by left].
    + right. by right.
  - apply turns_mono.
  - revert st. induction evs as [|ev evs IH]; intros st Hnone; [constructor|].
    rewrite turns_cons in Hnone. constructor; [|by apply (IH (turn st ev))].
    intros v Hrep. apply (turn_reports st) in Hrep.
    apply (turns_mono evs) in Hrep. rewrite Hnone in Hrep. by destruct Hrep.
Qed.

Lemma ledger_entries_come_from_reports_witness :
  Exists (reports "1" "503 Service Unavailable")
    [ RequestWillBeSent {| rs_RequestID := "1"; rs_URL := "http://t/api" |};
      ResponseReceived {| rr_RequestID := "1"; rr_Status := 503;
                          rr_StatusText := "Service Unavailable" |} ].
Proof.
  destruct (ledger_entries_come_from_reports
              [ RequestWillBeSent {| rs_RequestID := "1"; rs_URL := "http://t/api" |};
                ResponseReceived {| rr_RequestID := "1"; rr_Status := 503;
                                    rr_StatusText := "Service Unavailable" |} ]
              shared_init "1") as (Hfrom & _).
  destruct (Hfrom "503 Service Unavailable" ltac:(vm_compute; reflexivity)) as [Hinit|Hex].
  - discriminate Hinit.
  - exact Hex.
Defined.

(** ** What [resolver] releases *)

Section Release.
Implicit Types (b : resolver_calls) (c : call).

Lemma teardown_expected b :
  (resolver b).2 <> Blocked -> teardown b = expected_teardown b.
Proof.
  unfold expected_teardown.
  destruct (Version b) as [e1|] eqn:H1.
  { intros _. unfold teardown, resolver, run_deferred, resolver_body, mbind, M_bind, perform.
    rewrite H1. reflexivity. }
  destruct (Dial_devt b) as [e2|] eqn:H2.
  { intros _. unfold teardown, resolver, run_deferred, resolver_body, mbind, M_bind, perform.
    rewrite H1, H2. reflexivity. }
  destruct (CreateBrowserContext b) as [e3|cid] eqn:H3.
  { intros _.
    unfold teardown, resolver, run_deferred, resolver_body, mbind, M_bind, perform, defer.
    rewrite H1, H2, H3. reflexivity. }
  destruct (CreateTarget b) as [e4|tid] eqn:H4.
  { intros _.
    unfold teardown, resolver, run_deferred, resolver_body, mbind, M_bind, perform, defer.
    rewrite H1, H2, H3, H4. reflexivity. }
  destruct (Dial_target b) as [e5|] eqn:H5.
  { intros _.
    unfold teardown, resolver, run_deferred, resolver_body, mbind, M_bind, perform, defer.
    rewrite H1, H2, H3, H4, H5. reflexivity. }
  intros Hret.
  destruct (resolver_shape b) as (work & rel & cid' & tid' & Hrun & Hwork & _ & Hfull).
  specialize (Hfull cid tid H1 H2 H3 H4 H5 Hret). subst rel.
  unfold teardown. rewrite Hrun. apply filter_release_work; [exact Hwork|].
  repeat constructor.
Qed.

Lemma elem_of_teardown b c :
  c ∈ teardown b <-> c ∈ (resolver b).1 /\ is_release c = true.
Proof. unfold teardown. rewrite list_elem_of_filter. tauto. Qed.
End Release.

(** X10.  In a run of [resolver] that returns, each release is made
    exactly when its resource was acquired: the first connection is
    closed exactly when it was dialed, the browser context is disposed
    exactly when it was created, and the connection to the target is
    closed, and [CloseTarget] sent, exactly when that connection was
    dialed.  So a target whose connection could not be dialed gets no
    [CloseTarget] and is left to the disposal of its context.  No release
    is made twice. *)
Theorem resolver_releases_what_it_acquired (b : resolver_calls) :
  (resolver b).2 <> Blocked ->
  (Conn_Close devtConn ∈ (resolver b).1 <-> Version b = None /\ Dial_devt b = None)
  /\ (forall cid,
        Target_DisposeBrowserContext ctx_Background devtConn cid ∈ (resolver b).1
        <-> Version b = None /\ Dial_devt b = None /\ CreateBrowserContext b = inr cid)
  /\ (Conn_Close newContextConn ∈ (resolver b).1
      <-> Version b = None /\ Dial_devt b = None
          /\ (exists cid, CreateBrowserContext b = inr cid)
          /\ (exists tid, CreateTarget b = inr tid) /\ Dial_target b = None)
  /\ (forall tid,
        Target_CloseTarget ctx_Background newContextConn tid ∈ (resolver b).1
        <-> Version b = None /\ Dial_devt b = None
            /\ (exists cid, CreateBrowserContext b = inr cid)
            /\ CreateTarget b = inr tid /\ Dial_target b = None)
  /\ NoDup (teardown b).
Proof.
  intros Hret.
  assert (forall c, is_release c = true ->
            (c ∈ (resolver b).1 <-> c ∈ expected_teardown b)) as Hmem.
  { intros c Hc. rewrite <- (teardown_expected b Hret), elem_of_teardown. tauto. }
  rewrite (teardown_expected b Hret).
  split; [|split; [|split; [|split]]]; try intros x; rewrite ?Hmem by reflexivity;
    unfold expected_teardown, full_teardown;
    destruct (Version b), (Dial_devt b), (CreateBrowserContext b), (CreateTarget b),
      (Dial_target b);
    clear;
    try (rewrite ?elem_of_cons, ?elem_of_nil;
         split;
         [ intros Hin; repeat (destruct Hin as [Hin|Hin]); try (by destruct Hin);
           simplify_eq; repeat split; eauto
         | intros Hc; decompose [and ex] Hc; simplify_eq; auto 10 ]; fail);
    repeat (apply NoDup_cons_2;
            [rewrite ?elem_of_cons, ?elem_of_nil; intros Hin;
             repeat (destruct Hin as [Hin|Hin]); try (by destruct Hin); simplify_eq|]);
    try apply NoDup_nil_2.
Qed.

Lemma resolver_releases_what_it_acquired_witness :
  (Target_CloseTarget ctx_Background newContextConn "T1"
     ∉ (resolver sample_calls_no_dial).1)
  /\ (Target_DisposeBrowserContext ctx_Background devtConn "C1"
       ∈ (resolver sample_calls_no_dial).1).
Proof.
  destruct (resolver_releases_what_it_acquired sample_calls_no_dial
              ltac:(vm_compute; discriminate)) as (_ & Hdispose & _ & Hclose & _).
  split.
  - intros Hin. apply Hclose in Hin as (_ & _ & _ & _ & Hdial). discriminate Hdial.
  - apply Hdispose. repeat split.
Defined.

(** ** The print phase after a resource error *)

Section NoPrint.
Implicit Types (b : resolver_calls) (P : call -> Prop).

Lemma within_ret {A : Type} P (a : A) : within P (mret a).
Proof. intros f. exists [], []. by rewrite app_nil_r. Qed.

Lemma within_bind {A B : Type} P (m : M A) (k : A -> M B) :
  within P m -> (forall a, within P (k a)) -> within P (m ≫= k).
Proof.
  intros Hm Hk f. unfold mbind, M_bind.
  destruct (Hm f) as (cs & ds & Hp & Hd & Hcs & Hds).
  destruct (m f) as [f' [a|o]] eqn:E; simpl in *.
  - destruct (Hk a f') as (cs' & ds' & Hp' & Hd' & Hcs' & Hds').
    exists (cs ++ cs'), (ds' ++ ds). rewrite Hp', Hp, Hd', Hd, !app_assoc.
    repeat split; by apply Forall_app.
  - by exists cs, ds.
Qed.

Lemma within_perform {A : Type} P (c : call) (r : error + A) :
  P c -> within P (perform c r).
Proof.
  intros Hc f. exists [c], []. repeat split; by repeat constructor.
Qed.

Lemma within_await P (c : call) (o : outcome) : P c -> within P (await c o).
Proof.
  intros Hc f. exists [c], []. repeat split; by repeat constructor.
Qed.

Lemma within_defer P (c : call) : P c -> within P (defer c).
Proof.
  intros Hc f. exists [], [c]. simpl. rewrite app_nil_r. repeat split; by repeat constructor.
Qed.

Lemma within_leave {A : Type} P (r : error + unit) : within P (@leave A r).
Proof. intros f. exists [], []. by rewrite app_nil_r. Qed.

Lemma within_subscribe_all P (names : list string) (answers : list (option error)) :
  (forall name, P (subscribe ctx_Print name)) ->
  within P (subscribe_all names answers).
Proof.
  intros Hsub. revert answers. induction names as [|name names IH]; intros answers.
  - apply within_ret.
  - simpl. apply within_bind; [by apply within_perform|]. intros _. apply IH.
Qed.

Lemma after_readiness_error (st : shared) (order : list (string * string)) :
  requestErrorMessages st <> ∅ ->
  after_readiness None st order
  = inl (XInvalid op_Print (resource_message (requestURLs st) order) None).
Proof.
  intros Hne. unfold after_readiness. apply map_size_non_empty_iff in Hne.
  rewrite bool_decide_eq_true_2 by lia. reflexivity.
Qed.

(** With a non-empty error map no call of [resolver] is the print
    batch. *)
Lemma within_resolver_body b :
  requestErrorMessages (ledger b) <> ∅ ->
  within (fun c => forall ctx, c <> print_batch ctx) (resolver_body b).
Proof.
  intros Hne. unfold resolver_body, render_phase.
  rewrite (after_readiness_error _ _ Hne).
  repeat (apply within_bind;
          [first [ by apply within_perform | by apply within_defer | by apply within_await
                 | by apply within_subscribe_all ]
          |intros ?]).
  apply within_leave.
Qed.

Lemma subscribe_all_ok (names : list string) (answers : list (option error)) (f : frame) :
  Forall (fun a => a = None) answers ->
  subscribe_all names answers f
  = ({| performed := performed f ++ (subscribe ctx_Print <$> names);
        deferred := deferred f |}, Go tt).
Proof.
  revert answers f. induction names as [|name names IH]; intros answers f Hall.
  - simpl. rewrite app_nil_r. by destruct f.
  - simpl. unfold mbind, M_bind, perform.
    assert (default None (head answers) = None) as ->.
    { destruct Hall; [reflexivity|]. simpl. assumption. }
    simpl. rewrite IH by (destruct Hall; [constructor|assumption]).
    simpl. by rewrite <- app_assoc.
Qed.
End NoPrint.

(** X11.  When the error map is not empty after the readiness batch,
    [resolver] never starts the print batch, whatever else happens in the
    run.  If everything before succeeded it returns the resource error,
    having made no second subscription to the crash events, and then
    runs the full teardown. *)
Theorem no_print_after_a_resource_error (b : resolver_calls) :
  requestErrorMessages (ledger b) <> ∅ ->
  (forall ctx, print_batch ctx ∉ (resolver b).1)
  /\ (forall cid tid,
        Version b = None -> Dial_devt b = None ->
        CreateBrowserContext b = inr cid -> CreateTarget b = inr tid ->
        Dial_target b = None -> enable b = None -> headers b = None ->
        Forall (fun a => a = None) (subscriptions b) ->
        readiness b = Returned None ->
        resolver b
        = ([ devtool_Version ctx_Print; rpcc_DialContext ctx_Print devtConn;
             Target_CreateBrowserContext ctx_Print devtConn;
             Target_CreateTarget ctx_Print devtConn cid;
             rpcc_DialContext ctx_Print newContextConn;
             enableEvents ctx_Print; setCustomHTTPHeaders ctx_Print ]
           ++ (subscribe ctx_Print <$> subscription_names)
           ++ [readiness_batch ctx_Print]
           ++ full_teardown cid tid,
           Returned (Some (XInvalid op_Print
                             (resource_message (requestURLs (ledger b)) (visit b))
                             None)))).
Proof.
  intros Hne. split.
  - intros ctx Hin.
    destruct (within_resolver_body b Hne {| performed := []; deferred := [] |})
      as (cs & ds & Hp & Hd & Hcs & Hds).
    unfold resolver, run_deferred in Hin.
    destruct (resolver_body b {| performed := []; deferred := [] |}) as [f r].
    simpl in Hp, Hd, Hin. rewrite app_nil_r in Hd.
    assert (print_batch ctx ∈ cs ++ ds) as Hin'.
    { rewrite Hp, Hd in Hin. destruct r as [[]|[|r]]; simpl in Hin;
        rewrite ?elem_of_app in *; tauto. }
    apply elem_of_app in Hin' as [Hin'|Hin'].
    + rewrite Forall_forall in Hcs. by apply (Hcs _ Hin' ctx).
    + rewrite Forall_forall in Hds. by apply (Hds _ Hin' ctx).
  - intros cid tid H1 H2 H3 H4 H5 He Hh Hsub Hr.
    unfold resolver, run_deferred.
    rewrite (resolver_body_acquired b cid tid H1 H2 H3 H4 H5).
    unfold render_phase, mbind, M_bind, perform, await.
    rewrite He, Hh. cbn -[subscribe_all subscription_names after_readiness].
    rewrite (subscribe_all_ok _ _ _ Hsub). cbn -[subscription_names fmap after_readiness].
    rewrite Hr. rewrite (after_readiness_error _ _ Hne). reflexivity.
Qed.

Lemma no_print_after_a_resource_error_witness :
  print_batch ctx_Print
  ∉ (resolver
       {| Version := None; Dial_devt := None;
          CreateBrowserContext := inr "C1"; CreateTarget := inr "T1";
          Dial_target := None; enable := None; headers := None; subscriptions := [];
          readiness := Returned None;
          ledger := turns [LoadingFailed {| lf_RequestID := "1";
                                           lf_ErrorText := "net::ERR_FAILED" |}]
                      shared_init;
          visit := [("1", "net::ERR_FAILED")];
          TargetCrashed_again := None; printing := Returned None |}).1.
Proof.
  refine (proj1 (no_print_after_a_resource_error _ _) ctx_Print).
  simpl. apply insert_non_empty.
Defined.

(** ** What [printer] leaves on disk *)

Section Disk.
Context `{XerrorText}.
Implicit Types (fs : gmap string File) (c : printer_calls).

(** Writing through the handle [printer] has opened. *)
Lemma file_write_opened (mask : Z) (destination : string) (bytes : list Byte.byte) fs :
  file_write {| h_name := destination; h_flag := Z.lor O_CREATE O_WRONLY; h_offset := 0 |}
    bytes
    (match fs !! destination with
     | Some _ => fs
     | None => <[destination := {| mode := Z.land 384 (Z.lnot mask); data := [] |}]> fs
     end)
  = <[destination := written mask (fs !! destination) bytes]> fs.
Proof.
  destruct (fs !! destination) as [f|] eqn:Hf.
  - by rewrite (file_write_printer _ _ _ f).
  - rewrite (file_write_printer _ _ _ {| mode := Z.land 384 (Z.lnot mask); data := [] |})
      by apply lookup_insert_eq.
    simpl. rewrite drop_nil, app_nil_r. apply insert_insert_eq.
Qed.

(** The files after a run of [printer], whatever its result: as before
    when nothing was opened, and otherwise with the first [n] bytes of
    the stream written over the destination. *)
Lemma printer_files (opts : ChromePrinterOptions) (destination : string) c fs :
  ((exists e, PrintToPDF c = inl e) \/ is_Some (open_refused c) ->
   (printer opts destination c fs).1 = fs)
  /\ (forall s, PrintToPDF c = inr s -> open_refused c = None ->
      exists n, (n <= length (stream_bytes s))%nat
        /\ (printer opts destination c fs).1
           = <[destination := written (umask c) (fs !! destination)
                                (take n (stream_bytes s))]> fs
        /\ ((printer opts destination c fs).2 = None -> n = length (stream_bytes s))).
Proof.
  unfold printer. split.
  - intros [[e ->]|[e He]]; [by repeat case_match|].
    destruct (PrintToPDF c); [by repeat case_match|].
    unfold OpenFile. rewrite He. reflexivity.
  - intros s -> ->. rewrite OpenFile_printer. unfold WriteTo.
    destruct (disk c) as [[n e]|].
    + case_bool_decide.
      * exists n. rewrite file_write_opened. simpl. split; [lia|]. split; [reflexivity|].
        discriminate.
      * exists (length (stream_bytes s)). rewrite file_write_opened, firstn_all.
        split; [lia|]. split; [by repeat case_match|reflexivity].
    + exists (length (stream_bytes s)). rewrite file_write_opened, firstn_all.
      split; [lia|]. split; [by repeat case_match|reflexivity].
Qed.
End Disk.

(** X12.  Whatever its result, [printer] changes no file but the
    destination, never shrinks the destination and never changes its
    permission bits when it exists.  It leaves the file system as it was
    when [PrintToPDF] failed or the file could not be opened; once the
    file is opened, the destination exists afterwards, also when the run
    fails, and holds the bytes of the stream that were written, which
    are all of them when the run succeeds. *)
Theorem printer_touches_only_the_destination `{XerrorText}
    (opts : ChromePrinterOptions) (destination : string) (c : printer_calls)
    (fs : gmap string File) :
  (forall other, other <> destination ->
     (printer opts destination c fs).1 !! other = fs !! other)
  /\ (forall f, fs !! destination = Some f ->
        exists f', (printer opts destination c fs).1 !! destination = Some f'
                   /\ mode f' = mode f
                   /\ (length (data f) <= length (data f'))%nat)
  /\ ((exists e, PrintToPDF c = inl e) \/ is_Some (open_refused c) ->
      (printer opts destination c fs).1 = fs)
  /\ (forall s, PrintToPDF c = inr s -> open_refused c = None ->
      exists n, (n <= length (stream_bytes s))%nat
        /\ (printer opts destination c fs).1 !! destination
           = Some (written (umask c) (fs !! destination) (take n (stream_bytes s)))
        /\ ((printer opts destination c fs).2 = None -> n = length (stream_bytes s))).
Proof.
  destruct (printer_files opts destination c fs) as [Hsame Hopen].
  assert ((printer opts destination c fs).1 = fs
          \/ exists bytes,
               (printer opts destination c fs).1
               = <[destination := written (umask c) (fs !! destination) bytes]> fs)
    as Hcases.
  { destruct (PrintToPDF c) as [e|s] eqn:Hp; [left; apply Hsame; left; by exists e|].
    destruct (open_refused c) as [e|] eqn:Ho; [left; apply Hsame; right; by exists e|].
    destruct (Hopen s eq_refl eq_refl) as (n & _ & -> & _). right. by eexists. }
  split; [|split; [|split]].
  - intros other Hne. destruct Hcases as [->|[bytes ->]]; [reflexivity|].
    by rewrite lookup_insert_ne.
  - intros f Hf. destruct Hcases as [->|[bytes ->]]; [by exists f|].
    rewrite lookup_insert_eq, Hf. eexists. split; [reflexivity|]. simpl.
    split; [reflexivity|]. rewrite length_app, length_drop. lia.
  - exact Hsame.
  - intros s Hs Ho. destruct (Hopen s Hs Ho) as (n & Hn & -> & Hall).
    exists n. split; [exact Hn|]. split; [apply lookup_insert_eq|exact Hall].
Qed.

Lemma printer_touches_only_the_destination_witness :
  (@printer sample_xerror sample_opts "new.pdf"
     (sample_print (inr {| stream_bytes := sample_pdf;
                           stream_error := Some (Foreign "rpcc: connection closed") |}))
     sample_fs).1 !! "out.pdf"
  = Some sample_old_file.
Proof.
  destruct (@printer_touches_only_the_destination sample_xerror sample_opts "new.pdf"
              (sample_print (inr {| stream_bytes := sample_pdf;
                                    stream_error := Some (Foreign "rpcc: connection closed") |}))
              sample_fs) as (Hother & _).
  rewrite (Hother "out.pdf" ltac:(discriminate)). reflexivity.
Defined.



(** X14.  With a cap of one connection or less and a counter that is
    not negative, [Print] never takes the path without the slot.  It
    runs [resolver] only while it holds the slot, taken at the first
    moment the [select] was not parked, where the slot was free.  As long
    as the slot is taken it makes no step and does not run [resolver];
    and unless it is refused at once, it does run [resolver] when the
    slot is free at the first moment that is not busy, also after it
    has waited. *)
Theorem cap_of_one_serialises_renders {World : Type}
    (run_resolver : globals -> World -> World * outcome)
    (MustHandleError : option error -> error -> error)
    (opts : ChromePrinterOptions) (e : print_env) (g : globals) (w : World) :
  Forall (fun mo => below_max (m_vars mo)) (moments e g) ->
  0 <= devtConnections g ->
  MaxConnections opts <= 1 ->
  let result := Print run_resolver MustHandleError opts e g w in
  (forall s, (Resolve, s) ∈ result.1.2 ->
     lockChrome s = 1%nat
     /\ exists before mo after,
          moments e g = before ++ mo :: after /\ Forall busy before
          /\ lockChrome (m_vars mo) = 0%nat
          /\ head result.1.2
             = Some (SendLock, {| devtConnections := devtConnections (m_vars mo);
                                  lockChrome := 1 |})
          /\ s = {| devtConnections := devtConnections (m_vars mo) + 1;
                    lockChrome := 1 |})
  /\ (Forall (fun mo => (1 <= lockChrome (m_vars mo))%nat) (moments e g) ->
      result.1.2 = [] /\ result.1.1.2 = w)
  /\ (devtConnections g < MaxConnections opts \/ WaitForConnection opts = true ->
      forall before mo after,
        moments e g = before ++ mo :: after -> Forall busy before -> admits mo ->
        let up := {| devtConnections := devtConnections (m_vars mo) + 1;
                     lockChrome := 1 |} in
        (Resolve, up) ∈ result.1.2 /\ result.1.1.2 = (run_resolver up w).1).
Proof.
  intros Hall Hg Hm result.
  assert (below_max g) as Hbelow by (by apply Forall_cons in Hall as [? _]).
  split; [|split].
  - intros s Hs.
    destruct (Print_shapes run_resolver MustHandleError opts e g w Hall)
      as [[Hlt _]|[(_ & _ & Href)|(_ & _ & Hsel)]]; [lia|..].
    { subst result. rewrite Href in Hs. simpl in Hs. by apply elem_of_nil in Hs. }
    destruct Hsel as [(before & mo & after & Heq & Hbefore & Hmo & Hslot)
                     |[(before & mo & after & err & _ & _ & _ & Hexp)
                      |(_ & mo & _ & Hpark)]].
    + subst result. rewrite Hslot in Hs |- *. rewrite rendered_steps in Hs |- *.
      assert (s = {| devtConnections := devtConnections (m_vars mo) + 1;
                     lockChrome := 1 |}) as ->.
      { simpl in Hs. apply elem_of_cons in Hs as [[=]|Hs].
        apply elem_of_cons in Hs as [[=]|Hs].
        apply elem_of_cons in Hs as [[= ->]|Hs]; [reflexivity|].
        destruct (is_returned _); [|by apply elem_of_nil in Hs].
        apply elem_of_cons in Hs as [[=]|Hs].
        apply elem_of_cons in Hs as [[=]|Hs]. by apply elem_of_nil in Hs. }
      split; [reflexivity|]. exists before, mo, after.
      destruct Hmo as [Hl _]. by repeat split.
    + subst result. rewrite Hexp in Hs. simpl in Hs. by apply elem_of_nil in Hs.
    + subst result. rewrite Hpark in Hs. simpl in Hs. by apply elem_of_nil in Hs.
  - intros Htaken.
    destruct (Print_shapes run_resolver MustHandleError opts e g w Hall)
      as [[Hlt _]|[(_ & _ & Href)|(_ & _ & Hsel)]]; [lia|..].
    { subst result. by rewrite Href. }
    destruct Hsel as [(before & mo & after & Heq & _ & [Hl _] & _)
                     |[(before & mo & after & err & _ & _ & _ & Hexp)
                      |(_ & mo & _ & Hpark)]].
    + rewrite Heq in Htaken. apply Forall_app in Htaken as [_ Htaken].
      apply Forall_cons in Htaken as [Htaken _]. lia.
    + subst result. by rewrite Hexp.
    + subst result. by rewrite Hpark.
  - intros Hor before mo after Heq Hbefore Hmo up.
    assert (below_max (m_vars mo)) as Hmo_below.
    { rewrite Heq in Hall. apply Forall_app in Hall as [_ Hall].
      by apply Forall_cons in Hall as [? _]. }
    subst result.
    rewrite (Print_slot run_resolver MustHandleError opts e g w before mo after)
      by (first [assumption | lia]).
    rewrite rendered_steps, rendered_world. split; [|reflexivity].
    simpl. apply list_elem_of_further, list_elem_of_further, list_elem_of_here.
Qed.

Lemma cap_of_one_serialises_renders_witness :
  (Resolve, {| devtConnections := 1; lockChrome := 1 |})
  ∈ (Print sample_run sample_MustHandleError sample_opts_one sample_env_waiting
       {| devtConnections := 1; lockChrome := 1 |} ([], sample_fs)).1.2.
Proof.
  destruct (cap_of_one_serialises_renders sample_run sample_MustHandleError
              sample_opts_one sample_env_waiting
              {| devtConnections := 1; lockChrome := 1 |} ([], sample_fs))
    as (_ & _ & Hruns).
  - repeat constructor; unfold below_max; simpl; lia.
  - simpl. lia.
  - simpl. lia.
  - refine (proj1 (Hruns (or_intror eq_refl)
                     [ {| m_vars := {| devtConnections := 1; lockChrome := 1 |};
                          m_ctx_Err := None; m_pick := true |};
                       {| m_vars := {| devtConnections := 1; lockChrome := 1 |};
                          m_ctx_Err := None; m_pick := true |} ]
                     {| m_vars := {| devtConnections := 0; lockChrome := 0 |};
                        m_ctx_Err := None; m_pick := true |} [] eq_refl _ _)).
    + repeat constructor.
    + split; [reflexivity|by left].
Defined.

(** * The package [xlog] *)

Section Levels.
Implicit Types (s : string).

Lemma elem_of_Levels s : s ∈ Levels <-> s = "DEBUG" \/ s = "INFO" \/ s = "ERROR".
Proof. unfold Levels. rewrite !elem_of_cons, elem_of_nil. tauto. Qed.

Lemma MustParseLevel_cases s :
  (s ∈ Levels /\ MustParseLevel s = Value s)
  \/ ((s ∉ Levels) /\ exists text, MustParseLevel s = Panic text).
Proof.
  rewrite elem_of_Levels. unfold MustParseLevel.
  destruct (String.eqb_spec s DebugLevel) as [->|H1]; [left; by split; [left|]|].
  destruct (String.eqb_spec s InfoLevel) as [->|H2];
    [left; by split; [right; left|]|].
  destruct (String.eqb_spec s ErrorLevel) as [->|H3];
    [left; by split; [right; right|]|].
  right. split; [|by eexists]. intros [?|[?|?]]; contradiction.
Qed.

Lemma mustLogrusLevel_cases s :
  (s = "DEBUG" /\ mustLogrusLevel s = Value logrus_DebugLevel)
  \/ (s = "INFO" /\ mustLogrusLevel s = Value logrus_InfoLevel)
  \/ (s = "ERROR" /\ mustLogrusLevel s = Value logrus_ErrorLevel)
  \/ ((s ∉ Levels) /\ exists text, mustLogrusLevel s = Panic text).
Proof.
  rewrite elem_of_Levels. unfold mustLogrusLevel.
  destruct (String.eqb_spec s DebugLevel) as [->|H1]; [by left|].
  destruct (String.eqb_spec s InfoLevel) as [->|H2]; [right; by left|].
  destruct (String.eqb_spec s ErrorLevel) as [->|H3]; [right; right; by left|].
  right. right. right. split; [|by eexists]. intros [?|[?|?]]; contradiction.
Qed.
End Levels.

(** X15.  [MustParseLevel] returns, and then gives back the very string
    it was given, exactly for the three strings of [Levels]; for every
    other string, a lower-case name included, it panics.
    [mustLogrusLevel] returns for the same three strings and sends them
    to three different levels of logrus, so [New] at a parsed level never
    panics and the logger it builds reports that level. *)
Theorem parsed_levels_are_the_three_names (s : string) :
  (forall l, MustParseLevel s = Value l <-> s ∈ Levels /\ l = s)
  /\ ((exists text, MustParseLevel s = Panic text) <-> s ∉ Levels)
  /\ ((exists l, mustLogrusLevel s = Value l) <-> s ∈ Levels)
  /\ (forall s' l, mustLogrusLevel s = Value l -> mustLogrusLevel s' = Value l -> s = s')
  /\ (forall l isatty trace,
        MustParseLevel s = Value l ->
        exists logger, xlog_New isatty l trace = Value logger
                       /\ Logger_Level logger = s).
Proof.
  split; [|split; [|split; [|split]]].
  - intros l. destruct (MustParseLevel_cases s) as [[Hin ->]|[Hout [text ->]]].
    + split; [by intros [= <-]|by intros [_ ->]].
    + split; [discriminate|]. by intros [? _].
  - destruct (MustParseLevel_cases s) as [[Hin ->]|[Hout [text ->]]].
    + split; [by intros [? ?]|done].
    + split; [done|by eexists].
  - destruct (mustLogrusLevel_cases s)
      as [[-> ->]|[[-> ->]|[[-> ->]|[Hout [text ->]]]]];
      rewrite ?elem_of_Levels.
    + split; [by left|by eexists].
    + split; [right; by left|by eexists].
    + split; [right; by right|by eexists].
    + split; [by intros [? ?]|]. intros Hin. by apply elem_of_Levels in Hin.
  - intros s' l.
    destruct (mustLogrusLevel_cases s)
      as [[-> ->]|[[-> ->]|[[-> ->]|[Hout [text ->]]]]];
      destruct (mustLogrusLevel_cases s')
        as [[-> ->]|[[-> ->]|[[-> ->]|[Hout' [text' ->]]]]]; congruence.
  - intros l isatty trace Hl.
    destruct (MustParseLevel_cases s) as [[Hin Hs]|[Hout [text Hs]]];
      rewrite Hs in Hl; [|discriminate].
    injection Hl as <-. unfold xlog_New.
    destruct (mustLogrusLevel_cases s)
      as [[-> ->]|[[-> ->]|[[-> ->]|[Hout _]]]]; [by eexists..|contradiction].
Qed.

Lemma parsed_levels_are_the_three_names_witness :
  (exists text, MustParseLevel "debug" = Panic text)
  /\ exists logger, xlog_New false "INFO" "trace-7" = Value logger
                    /\ Logger_Level logger = "INFO".
Proof.
  split.
  - destruct (parsed_levels_are_the_three_names "debug") as (_ & Hpanic & _).
    apply Hpanic. intros Hin. apply elem_of_Levels in Hin as [?|[?|?]]; discriminate.
  - destruct (parsed_levels_are_the_three_names "INFO") as (_ & _ & _ & _ & Hnew).
    exact (Hnew "INFO" false "trace-7" eq_refl).
Defined.

Section Fields.
Implicit Types (kvs : list value) (acc : gmap string value) (ps : list (value * value)).

(** Lists two elements at a time. *)
Lemma pairs_ind (P : list value -> Prop) :
  P [] -> (forall x, P [x]) -> (forall k v rest, P rest -> P (k :: v :: rest)) ->
  forall kvs, P kvs.
Proof.
  intros Hnil Hone Hstep kvs.
  assert (P kvs /\ forall x, P (x :: kvs)) as [Hkvs _]; [|exact Hkvs].
  induction kvs as [|y kvs [IH1 IH2]]; [by split|].
  split; [apply IH2|]. intros x. by apply Hstep.
Qed.

Lemma fields_from_cases kvs acc :
  (Forall (fun p => is_string p.1 = true) (pairs kvs)
   /\ fields_from kvs acc = Value (fold_left insert_pair (pairs kvs) acc))
  \/ (~ Forall (fun p => is_string p.1 = true) (pairs kvs)
      /\ exists text, fields_from kvs acc = Panic text).
Proof.
  revert acc. induction kvs as [|x|k v rest IH] using pairs_ind; intros acc.
  - left. by split.
  - left. by split.
  - destruct k as [s| | |]; simpl.
    + destruct (IH (<[s := v]> acc)) as [[Hall ->]|[Hall [text ->]]].
      * left. split; [by constructor|reflexivity].
      * right. split; [|by eexists]. intros Hall'. apply Hall. by inversion Hall'.
    + right. split; [|by eexists]. intros Hall. by inversion Hall.
    + right. split; [|by eexists]. intros Hall. by inversion Hall.
    + right. split; [|by eexists]. intros Hall. by inversion Hall.
Qed.

Lemma fold_insert_pair_other ps acc (k : string) :
  Forall (fun p => p.1 <> VString k) ps ->
  fold_left insert_pair ps acc !! k = acc !! k.
Proof.
  intros Hall. revert acc. induction Hall as [|[key v] ps Hp _ IH]; intros acc;
    [reflexivity|].
  simpl. rewrite IH. unfold insert_pair. simpl in *.
  destruct key as [s| | |]; try reflexivity.
  rewrite lookup_insert_ne; [reflexivity|congruence].
Qed.

Lemma fold_insert_pair_from ps acc (k : string) (v : value) :
  fold_left insert_pair ps acc !! k = Some v ->
  acc !! k = Some v \/ (VString k, v) ∈ ps.
Proof.
  revert acc. induction ps as [|[key v'] ps IH]; intros acc; [by left|].
  simpl. intros Hv. apply IH in Hv as [Hv|Hin]; [|right; by right].
  unfold insert_pair in Hv. simpl in Hv. destruct key as [s| | |]; try by left.
  destruct (decide (s = k)) as [->|Hne].
  - rewrite lookup_insert_eq in Hv. injection Hv as ->. right. left.
  - rewrite lookup_insert_ne in Hv by done. by left.
Qed.

Lemma length_pairs kvs : (2 * length (pairs kvs) <= length kvs)%nat.
Proof.
  induction kvs as [|x|k v rest IH] using pairs_ind; simpl in *; lia.
Qed.

Lemma fields_from_trailing (n : nat) kvs acc (x : value) :
  length kvs = (2 * n)%nat -> fields_from (kvs ++ [x]) acc = fields_from kvs acc.
Proof.
  revert kvs acc. induction n as [|n IH]; intros kvs acc Hlen.
  - destruct kvs; [reflexivity|discriminate].
  - destruct kvs as [|k [|v rest]]; simpl in Hlen; try lia.
    simpl. destruct (assert_string k); [|reflexivity].
    apply IH. lia.
Qed.
End Fields.

(** X16.  [fields] reads its arguments two at a time.  It returns
    exactly when every key of a pair is a string and panics otherwise; a
    last argument without a partner is ignored, so no argument and one
    argument both give the empty map; a key given twice keeps its last
    value; and every entry of the map comes from a pair of the
    arguments. *)
Theorem fields_pairs_keys_with_values (kvs : list value) :
  ((exists m, LeveledLogger_fields kvs = Value m)
   <-> Forall (fun p => is_string p.1 = true) (pairs kvs))
  /\ (forall n x, length kvs = (2 * n)%nat ->
        LeveledLogger_fields (kvs ++ [x]) = LeveledLogger_fields kvs)
  /\ (forall m pre post k v,
        LeveledLogger_fields kvs = Value m ->
        pairs kvs = pre ++ (VString k, v) :: post ->
        Forall (fun p => p.1 <> VString k) post ->
        m !! k = Some v)
  /\ (forall m k v,
        LeveledLogger_fields kvs = Value m -> m !! k = Some v ->
        (VString k, v) ∈ pairs kvs)
  /\ (forall m, LeveledLogger_fields kvs = Value m -> (size m <= length kvs / 2)%nat).
Proof.
  unfold LeveledLogger_fields.
  destruct (fields_from_cases kvs ∅) as [[Hall Hm]|[Hall [text Hp]]].
  - rewrite Hm. split; [|split; [|split; [|split]]].
    + split; [done|by eexists].
    + intros n x Hlen. by rewrite (fields_from_trailing n), Hm.
    + intros m pre post k v [= <-] Hpairs Hpost. rewrite Hpairs.
      rewrite fold_left_app. simpl. rewrite fold_insert_pair_other by exact Hpost.
      unfold insert_pair. simpl. apply lookup_insert_eq.
    + intros m k v [= <-] Hv. apply fold_insert_pair_from in Hv as [Hv|Hin]; [|exact Hin].
      by rewrite lookup_empty in Hv.
    + intros m [= <-]. clear Hall Hm.
      assert (forall ps acc, (size (fold_left insert_pair ps acc)
                              <= size acc + length ps)%nat) as Hsize.
      { induction ps as [|[key v] ps IH]; intros acc; [simpl; lia|].
        simpl. etransitivity; [apply IH|]. unfold insert_pair. simpl.
        destruct key as [s| | |]; try lia.
        rewrite map_size_insert. case_match; unfold id; lia. }
      etransitivity; [apply Hsize|]. rewrite map_size_empty, Nat.add_0_l.
      apply Nat.div_le_lower_bound; [lia|apply length_pairs].
  - rewrite Hp. split; [|split; [|split; [|split]]]; try discriminate.
    + split; [by intros [m ?]|done].
    + intros n x Hlen. by rewrite (fields_from_trailing n), Hp.
Qed.

Lemma fields_pairs_keys_with_values_witness :
  LeveledLogger_fields [VString "attempt"; VInt 1; VString "attempt"; VInt 2; VString "odd"]
  = LeveledLogger_fields [VString "attempt"; VInt 1; VString "attempt"; VInt 2].
Proof.
  destruct (fields_pairs_keys_with_values
              [VString "attempt"; VInt 1; VString "attempt"; VInt 2])
    as (_ & Htrail & _).
  exact (Htrail 2%nat (VString "odd") eq_refl).
Defined.

Section Lines.
Context `{Fmt}.
Implicit Types (logger : Logger) (fields : gmap string value).

Lemma xlog_New_inv (isatty : bool) (lvl trace : string) logger :
  xlog_New isatty lvl trace = Value logger ->
  exists l, mustLogrusLevel lvl = Value l
    /\ logger = {| entry := {| e_Logger := {| lg_Level := l;
                                               lg_JSONFormatter := negb isatty |};
                               e_Data := {[ "trace" := VString trace ]} |};
                   level := lvl |}.
Proof.
  unfold xlog_New. destruct (mustLogrusLevel lvl) as [l|text]; [|discriminate].
  intros [= <-]. exists l. split; [reflexivity|].
  unfold Entry_WithField, Entry_WithFields. simpl. by rewrite (right_id_L ∅ (∪)).
Qed.

(** A line of a logger built by [New], with the fields of one call. *)
Lemma leveled_line (isatty : bool) (lvl trace op text : string) logger fields
    (at_level : logrus_Level) :
  xlog_New isatty lvl trace = Value logger ->
  exists l, mustLogrusLevel lvl = Value l
    /\ Entry_Log at_level text
         (Entry_WithField "op" (VString op) (entry (Logger_WithFields fields logger)))
       = if bool_decide (logrus_rank at_level <= logrus_rank l)%nat
         then [{| l_Level := at_level; l_Data := leveled_data op trace fields;
                  l_Message := text |}]
         else [].
Proof.
  intros (l & Hl & ->)%xlog_New_inv. exists l. split; [exact Hl|]. reflexivity.
Qed.
End Lines.

(** X17.  On a logger built by [New], a leveled logger writes [Error]
    and [Warn] at every one of the three levels, [Warn] as a line of the
    error level equal to the one of [Error]; it writes [Info] at the
    levels DEBUG and INFO only, and [Debug] at the level DEBUG only.  The
    message is the one [Sprintf] gives for ["%s"]. *)
Theorem leveled_logger_filters_by_level `{Fmt}
    (isatty : bool) (lvl trace op msg : string) (logger : Logger)
    (kvs : list value) (fields : gmap string value) :
  xlog_New isatty lvl trace = Value logger ->
  LeveledLogger_fields kvs = Value fields ->
  let l := NewLeveledLogger logger op in
  let written at_level :=
    [{| l_Level := at_level; l_Data := leveled_data op trace fields;
        l_Message := fmt_Sprintf "%s" [VString msg] |}] in
  LeveledLogger_Error l msg kvs = Value (written logrus_ErrorLevel)
  /\ LeveledLogger_Warn l msg kvs = Value (written logrus_ErrorLevel)
  /\ LeveledLogger_Info l msg kvs
     = Value (if bool_decide (lvl = "DEBUG" \/ lvl = "INFO")
              then written logrus_InfoLevel else [])
  /\ LeveledLogger_Debug l msg kvs
     = Value (if bool_decide (lvl = "DEBUG") then written logrus_DebugLevel else []).
Proof.
  intros Hnew Hfields l written. subst l written.
  unfold LeveledLogger_Error, LeveledLogger_Warn, LeveledLogger_Info, LeveledLogger_Debug,
    ErrorOpf, InfoOpf, DebugOpf, NewLeveledLogger.
  rewrite Hfields. cbn [ll_logger ll_op].
  pose proof (fun at_level =>
                leveled_line isatty lvl trace op (fmt_Sprintf "%s" [VString msg])
                  logger fields at_level Hnew) as Hline.
  destruct (Hline logrus_ErrorLevel) as (le & Hle & ->).
  destruct (Hline logrus_InfoLevel) as (li & Hli & ->).
  destruct (Hline logrus_DebugLevel) as (ld & Hld & ->).
  rewrite Hle in Hli, Hld. injection Hli as <-. injection Hld as <-.
  destruct (mustLogrusLevel_cases lvl)
    as [[-> Hl]|[[-> Hl]|[[-> Hl]|[_ [text Hl]]]]];
    rewrite Hl in Hle; [injection Hle as <-..|discriminate];
    repeat split; reflexivity.
Qed.

Lemma leveled_logger_filters_by_level_witness :
  @LeveledLogger_Warn sample_fmt (NewLeveledLogger sample_logger "retry") "slow"
    [VString "attempt"; VInt 2]
  = Value [{| l_Level := logrus_ErrorLevel;
              l_Data := leveled_data "retry" "trace-7" {[ "attempt" := VInt 2 ]};
              l_Message := "slow" |}]
  /\ @LeveledLogger_Info sample_fmt (NewLeveledLogger sample_logger "retry") "slow"
       [VString "attempt"; VInt 2]
     = Value [].
Proof.
  assert (xlog_New true "ERROR" "trace-7" = Value sample_logger) as Hnew
    by (vm_compute; reflexivity).
  assert (LeveledLogger_fields [VString "attempt"; VInt 2]
          = Value ({[ "attempt" := VInt 2 ]} : gmap string value)) as Hfields
    by (vm_compute; reflexivity).
  destruct (@leveled_logger_filters_by_level sample_fmt true "ERROR" "trace-7" "retry"
              "slow" sample_logger [VString "attempt"; VInt 2] _ Hnew Hfields)
    as (_ & Hwarn & Hinfo & _).
  split; [exact Hwarn|exact Hinfo].
Defined.

(** X18.  A logger built by [New] gives back its trace, and keeps its
    level through [WithFields].  Every line a leveled logger writes
    carries the operation of the logger under the key ["op"], also when
    the call gives a field of that name; it carries the trace under
    ["trace"] unless the call gives a field of that name, which then
    wins, and [GetTraceId] after [WithFields] panics if that field is not
    a string; every other field of the call is in the line as given. *)
Theorem lines_carry_operation_and_trace `{Fmt}
    (isatty : bool) (lvl trace : string) (logger : Logger) :
  xlog_New isatty lvl trace = Value logger ->
  GetTraceId logger = Value trace
  /\ (forall fields,
        Logger_Level (Logger_WithFields fields logger) = lvl
        /\ GetTraceId (Logger_WithFields fields logger)
           = assert_string (default (VString trace) (fields !! "trace")))
  /\ (forall op msg kvs fields lines ln,
        LeveledLogger_fields kvs = Value fields ->
        LeveledLogger_Error (NewLeveledLogger logger op) msg kvs = Value lines ->
        ln ∈ lines ->
        l_Data ln !! "op" = Some (VString op)
        /\ l_Data ln !! "trace" = Some (default (VString trace) (fields !! "trace"))
        /\ (forall k, k <> "op" -> k <> "trace" -> l_Data ln !! k = fields !! k)).
Proof.
  intros Hnew. pose proof Hnew as (l & Hl & Hlogger)%xlog_New_inv.
  split; [|split].
  - subst logger. reflexivity.
  - intros fields. subst logger. split; [reflexivity|].
    unfold GetTraceId, Logger_WithFields, Entry_WithFields. simpl.
    rewrite lookup_union. destruct (fields !! "trace") as [v|]; [by destruct v|].
    rewrite lookup_singleton_eq. reflexivity.
  - intros op msg kvs fields lines ln Hfields.
    unfold LeveledLogger_Error, ErrorOpf, NewLeveledLogger. rewrite Hfields.
    cbn [ll_logger ll_op].
    destruct (leveled_line isatty lvl trace op (fmt_Sprintf "%s" [VString msg])
                logger fields logrus_ErrorLevel Hnew) as (l' & _ & ->).
    intros [= <-] Hin. case_bool_decide; [|by apply elem_of_nil in Hin].
    apply list_elem_of_singleton in Hin as ->. simpl. unfold leveled_data.
    split; [|split].
    + rewrite lookup_union, lookup_singleton_eq. by destruct (_ !! "op").
    + rewrite lookup_union, lookup_singleton_ne by done.
      rewrite lookup_union, lookup_singleton_eq.
      by destruct (fields !! "trace").
    + intros k Hop Htrace. rewrite lookup_union, lookup_singleton_ne by done.
      rewrite lookup_union, lookup_singleton_ne by done.
      by destruct (fields !! k).
Qed.

Lemma lines_carry_operation_and_trace_witness :
  GetTraceId (Logger_WithFields {[ "trace" := VInt 7 ]} sample_logger)
  = Panic "interface conversion: interface {} is int, not string".
Proof.
  destruct (@lines_carry_operation_and_trace sample_fmt true "ERROR" "trace-7"
              sample_logger ltac:(vm_compute; reflexivity)) as (_ & Hwith & _).
  rewrite (proj2 (Hwith {[ "trace" := VInt 7 ]})). reflexivity.
Defined.

(** * The package [xhttp] *)

(** X19.  The server [New] builds always has the ping route first.  It
    has the three conversion routes, html, url and markdown in this
    order, exactly when Google Chrome is not disabled, and no other
    route; the handlers registered do not depend on the unoconv setting.
    The basic-authentication middleware is registered exactly when
    authentication is enabled, and then before the four other
    middlewares; its validator accepts exactly the configured user name
    and password and never returns an error. *)
Theorem server_routes_follow_the_switches `{Endpoints} (config : Config) :
  routes (xhttp_New config)
  = {| r_method := "GET"; r_path := pingEndpoint config; r_handler := pingHandler |}
      :: (if DisableGoogleChrome config then []
          else [ {| r_method := "POST"; r_path := htmlEndpoint config;
                    r_handler := htmlHandler |};
                 {| r_method := "POST"; r_path := urlEndpoint config;
                    r_handler := urlHandler |};
                 {| r_method := "POST"; r_path := markdownEndpoint config;
                    r_handler := markdownHandler |} ])
  /\ (forall b, r_handler <$> routes (xhttp_New (with_DisableUnoconv b config))
                = r_handler <$> routes (xhttp_New config))
  /\ middlewares (xhttp_New config)
     = (if EnableAuthentication config then [BasicAuth config] else [])
         ++ [ contextMiddleware config; loggerMiddleware config;
              cleanupMiddleware; errorMiddleware ]
  /\ (Exists (fun m => is_BasicAuth m = true) (middlewares (xhttp_New config))
      <-> EnableAuthentication config = true)
  /\ (forall username password,
        basicAuthValidator config username password = (true, None)
        <-> username = AuthenticationUsername config
            /\ password = AuthenticationPassword config)
  /\ (forall username password, (basicAuthValidator config username password).2 = None).
Proof.
  assert (forall c : Config,
            routes (xhttp_New c)
            = {| r_method := "GET"; r_path := pingEndpoint c; r_handler := pingHandler |}
                :: (if DisableGoogleChrome c then []
                    else [ {| r_method := "POST"; r_path := htmlEndpoint c;
                              r_handler := htmlHandler |};
                           {| r_method := "POST"; r_path := urlEndpoint c;
                              r_handler := urlHandler |};
                           {| r_method := "POST"; r_path := markdownEndpoint c;
                              r_handler := markdownHandler |} ])) as Hroutes.
  { intros c. unfold xhttp_New.
    destruct (EnableAuthentication c), (DisableGoogleChrome c), (DisableUnoconv c);
      reflexivity. }
  assert (middlewares (xhttp_New config)
          = (if EnableAuthentication config then [BasicAuth config] else [])
              ++ [ contextMiddleware config; loggerMiddleware config;
                   cleanupMiddleware; errorMiddleware ]) as Hmid.
  { unfold xhttp_New.
    destruct (EnableAuthentication config), (DisableGoogleChrome config),
      (DisableUnoconv config); reflexivity. }
  split; [apply Hroutes|]. split; [|split; [exact Hmid|split; [|split]]].
  - intros b. rewrite !Hroutes. simpl. by destruct (DisableGoogleChrome config).
  - rewrite Hmid. destruct (EnableAuthentication config); simpl.
    + split; [done|]. intros _. by left.
    + split; [|discriminate]. intros Hex.
      repeat (apply Exists_cons in Hex as [Hex|Hex]; [discriminate|]).
      by apply Exists_nil in Hex.
  - intros username password. unfold basicAuthValidator.
    destruct (String.eqb_spec username (AuthenticationUsername config)) as [->|Hu];
      destruct (String.eqb_spec password (AuthenticationPassword config)) as [->|Hp];
      simpl; (split; [intros Heq; (discriminate Heq || done)|intros [? ?]; congruence]).
  - intros username password. unfold basicAuthValidator.
    by destruct (_ && _).
Qed.

Lemma server_routes_follow_the_switches_witness :
  Exists (fun m => is_BasicAuth m = true)
    (middlewares
       (@xhttp_New sample_endpoints
          {| EnableAuthentication := true; AuthenticationUsername := "admin";
             AuthenticationPassword := "secret"; DisableGoogleChrome := true;
             DisableUnoconv := true |})).
Proof.
  destruct (@server_routes_follow_the_switches sample_endpoints
              {| EnableAuthentication := true; AuthenticationUsername := "admin";
                 AuthenticationPassword := "secret"; DisableGoogleChrome := true;
                 DisableUnoconv := true |}) as (_ & _ & _ & Hauth & _).
  apply Hauth. reflexivity.
Defined.

(** * Errors of [listenEvents] *)

Section ListenErrors.
Lemma first_failure_head (a : option error) (rest pre : list (option error))
    (err : error) (post : list (option error)) :
  a :: rest = pre ++ Some err :: post ->
  Forall (fun x => x = None) pre ->
  (a = Some err /\ pre = [])
  \/ (a = None /\ exists pre', rest = pre' ++ Some err :: post
                              /\ Forall (fun x => x = None) pre').
Proof.
  intros Heq Hpre. destruct pre as [|p pre]; simpl in Heq.
  - injection Heq as -> _. by left.
  - injection Heq as -> ->. apply Forall_cons in Hpre as [-> Hpre].
    right. split; [reflexivity|]. by exists pre.
Qed.

Lemma answer_error_Some {A : Type} (r : error + A) (err : error) :
  answer_error r = Some err -> r = inl err.
Proof. destruct r; simpl; congruence. Qed.

Lemma answer_error_None {A : Type} (r : error + A) :
  answer_error r = None -> exists s, r = inr s.
Proof. destruct r as [|s]; simpl; [discriminate|]. by exists s. Qed.

Lemma runBatch_first (order pre post : list nat) (fn : list outcome) (i : nat)
    (cause : error) :
  order = pre ++ i :: post ->
  fn !! i = Some (Returned (Some cause)) ->
  (forall j e', j ∈ pre -> fn !! j <> Some (Returned (Some e'))) ->
  runBatch order fn <> Blocked ->
  runBatch order fn = Returned (Some cause).
Proof.
  intros -> Hi Hpre Hret.
  rewrite (runBatch_value _ _ Hret). f_equal.
  rewrite omap_app, first_error_app_nil.
  - simpl. by rewrite Hi.
  - apply Forall_forall. intros o Ho e' ->.
    apply list_elem_of_omap in Ho as (j & Hj & Hfn). by apply (Hpre j e').
Qed.

Lemma forallb_false {A : Type} (f : A -> bool) (l : list A) :
  forallb f l = false -> exists x, x ∈ l /\ f x = false.
Proof.
  induction l as [|x l IH]; simpl; [discriminate|].
  destruct (f x) eqn:Hx; simpl.
  - intros Hl. destruct (IH Hl) as (y & Hy & Hfy). exists y.
    split; [by apply list_elem_of_further|exact Hfy].
  - intros _. exists x. split; [apply list_elem_of_here|exact Hx].
Qed.

(** A batch waits exactly when one of its functions does or one has not
    been reported back. *)
Lemma runBatch_blocked (order : list nat) (fn : list outcome) :
  runBatch order fn = Blocked
  <-> Blocked ∈ fn \/ exists i, (i < length fn)%nat /\ i ∉ order.
Proof.
  split.
  - unfold runBatch. destruct (forallb is_returned fn) eqn:Hret; simpl.
    + destruct (forallb _ (seq 0 (length fn))) eqn:Hall; [discriminate|].
      intros _. right. apply forallb_false in Hall as (i & Hi & Hnot).
      exists i. apply list_elem_of_In, in_seq in Hi.
      apply bool_decide_eq_false in Hnot. split; [lia|exact Hnot].
    + intros _. left. apply forallb_false in Hret as (o & Ho & Hblocked).
      by destruct o.
  - intros Hor. destruct (runBatch order fn) as [|r] eqn:Hb; [reflexivity|].
    exfalso. assert (runBatch order fn <> Blocked) as Hret by (by rewrite Hb).
    apply runBatch_returns in Hret as [Hall Hin].
    destruct Hor as [Hgate|(i & Hi & Hnotin)].
    + rewrite Forall_forall in Hall. by apply (Hall Blocked).
    + by apply Hnotin, Hin.
Qed.
End ListenErrors.

(** X20.  [listenEvents] returns the error of the first of its seven
    calls that fails, in the order of the source, wrapped once by
    [xerror.New], whatever the later calls would answer.  When the seven
    calls succeed it waits as long as one of its four gates waits, also
    when another gate has failed; and once all gates are back, an error
    it returns is the wrapped error of the gate that returned first with
    one. *)
Theorem listenEvents_returns_the_first_failure (c : listen_calls) :
  (forall pre err post,
      listen_answers c = pre ++ Some err :: post ->
      Forall (fun a => a = None) pre ->
      listenEvents c = Returned (Some (XNew op_listenEvents err)))
  /\ (forall dom load life fin,
        Page_Enable c = None -> Network_Enable c = None ->
        Page_DOMContentEventFired c = inr dom -> Page_LoadEventFired c = inr load ->
        Page_LifecycleEvent c = inr life -> Network_LoadingFinished c = inr fin ->
        Page_Navigate c = None ->
        let gates := [ (wait_domContentEventFired dom).2;
                       (wait_loadEventFired load).2;
                       (wait_lifecycleEvent life).2;
                       (wait_loadingFinished fin).2 ] in
        (listenEvents c = Blocked
         <-> Blocked ∈ gates \/ exists i, (i < 4)%nat /\ i ∉ finished c)
        /\ (forall pre i post cause,
              finished c = pre ++ i :: post ->
              gates !! i = Some (Returned (Some cause)) ->
              (forall j e', j ∈ pre -> gates !! j <> Some (Returned (Some e'))) ->
              listenEvents c <> Blocked ->
              listenEvents c = Returned (Some (XNew op_listenEvents cause)))).
Proof.
  split.
  - intros pre err post Heq Hpre. unfold listen_answers in Heq.
    unfold listenEvents, listenEvents_resolver.
    destruct (first_failure_head _ _ _ _ _ Heq Hpre)
      as [[-> _]|(-> & pre1 & Heq1 & Hpre1)]; [reflexivity|].
    destruct (first_failure_head _ _ _ _ _ Heq1 Hpre1)
      as [[-> _]|(-> & pre2 & Heq2 & Hpre2)]; [reflexivity|].
    destruct (first_failure_head _ _ _ _ _ Heq2 Hpre2)
      as [[Ha _]|(Ha & pre3 & Heq3 & Hpre3)]; [by rewrite (answer_error_Some _ _ Ha)|].
    apply answer_error_None in Ha as [dom Hdom]. rewrite Hdom.
    destruct (first_failure_head _ _ _ _ _ Heq3 Hpre3)
      as [[Ha _]|(Ha & pre4 & Heq4 & Hpre4)]; [by rewrite (answer_error_Some _ _ Ha)|].
    apply answer_error_None in Ha as [load Hload]. rewrite Hload.
    destruct (first_failure_head _ _ _ _ _ Heq4 Hpre4)
      as [[Ha _]|(Ha & pre5 & Heq5 & Hpre5)]; [by rewrite (answer_error_Some _ _ Ha)|].
    apply answer_error_None in Ha as [life Hlife]. rewrite Hlife.
    destruct (first_failure_head _ _ _ _ _ Heq5 Hpre5)
      as [[Ha _]|(Ha & pre6 & Heq6 & Hpre6)]; [by rewrite (answer_error_Some _ _ Ha)|].
    apply answer_error_None in Ha as [fin Hfin]. rewrite Hfin.
    destruct (first_failure_head _ _ _ _ _ Heq6 Hpre6)
      as [[-> _]|(_ & pre7 & Heq7 & _)]; [reflexivity|].
    by destruct pre7.
  - intros dom load life fin H1 H2 H3 H4 H5 H6 H7 gates.
    assert (listenEvents c
            = match runBatch (finished c) gates with
              | Returned (Some err) => Returned (Some (XNew op_listenEvents err))
              | o => o
              end) as Hlisten.
    { unfold listenEvents, listenEvents_resolver.
      by rewrite H1, H2, H3, H4, H5, H6, H7. }
    assert (listenEvents c = Blocked <-> runBatch (finished c) gates = Blocked) as Hblocked.
    { rewrite Hlisten. by destruct (runBatch _ _) as [|[err|]]. }
    split.
    + rewrite Hblocked. apply runBatch_blocked.
    + intros pre i post cause Hfin Hi Hpre Hret.
      rewrite Hlisten.
      rewrite (runBatch_first (finished c) pre post gates i cause); try assumption.
      * reflexivity.
      * intros Hb. apply Hret. by apply Hblocked.
Qed.

Lemma listenEvents_returns_the_first_failure_witness :
  listenEvents
    {| Page_Enable := None; Network_Enable := None;
       Page_DOMContentEventFired := inr [Event tt];
       Page_LoadEventFired := inl (Foreign "rpcc: connection closed");
       Page_LifecycleEvent := inr [];
       Network_LoadingFinished := inr [];
       Page_Navigate := Some (Foreign "context deadline exceeded");
       finished := [] |}
  = Returned (Some (XNew op_listenEvents (Foreign "rpcc: connection closed"))).
Proof.
  destruct (listenEvents_returns_the_first_failure
              {| Page_Enable := None; Network_Enable := None;
                 Page_DOMContentEventFired := inr [Event tt];
                 Page_LoadEventFired := inl (Foreign "rpcc: connection closed");
                 Page_LifecycleEvent := inr [];
                 Network_LoadingFinished := inr [];
                 Page_Navigate := Some (Foreign "context deadline exceeded");
                 finished := [] |}) as (Hfirst & _).
  apply (Hfirst [None; None; None] _
           [None; None; Some (Foreign "context deadline exceeded")]).
  - reflexivity.
  - repeat constructor.
Defined.
